(** * hw4: correlation, logistic regression, cross-validation, EM and Naive Bayes

    A shallow embedding of [hw4.py].  Arrays are lists, the feature matrix is a
    list of rows, Python dictionaries are association lists that keep their
    insertion order, and the process-wide numpy random generator is a state
    that every function using it receives and returns.

    Numbers.  numpy computes on IEEE-754 doubles.  Here a number is an exact
    real or one of the special values +inf, -inf, nan, and the operations
    follow the IEEE rules for the special values (1/0 = inf, 0/0 = nan,
    inf - inf = nan, comparisons with nan are false ...).  Rounding, overflow,
    underflow and the sign of zero are not modelled there: a statement whose
    truth depends on them carries explicit ranges for its arguments.  Module
    [F64] has the correlation scorer on binary64 numbers themselves, for the
    inputs where rounding decides the result.

    Shapes.  Arrays handed to the functions are taken to be rectangular and of
    matching lengths; numpy's shape errors are outside the model, and a
    statement that depends on the shapes states them as hypotheses.  Indexing
    that Python checks at run time ([l[i]], [d[k]]) returns [option]. *)

From Stdlib Require Import String.
From Stdlib Require Import Reals Lra Lia List ZArith Bool Arith.
From Stdlib Require Import Permutation Sorted.
From Corelib Require PrimFloat.
Import ListNotations.

(** ** Numbers *)

Module Num.

Inductive number : Type :=
| Fin (r : R)
| PInf
| NInf
| NaN.

Definition of_nat (n : nat) : number := Fin (INR n).
Definition of_Z (z : Z) : number := Fin (IZR z).

Definition is_finite (a : number) : bool :=
  match a with Fin _ => true | _ => false end.

Definition isnan (a : number) : bool :=
  match a with NaN => true | _ => false end.

Definition fneg (a : number) : number :=
  match a with
  | Fin x => Fin (- x)
  | PInf => NInf
  | NInf => PInf
  | NaN => NaN
  end.

Definition fadd (a b : number) : number :=
  match a, b with
  | NaN, _ | _, NaN => NaN
  | Fin x, Fin y => Fin (x + y)
  | PInf, NInf | NInf, PInf => NaN
  | PInf, _ | _, PInf => PInf
  | NInf, _ | _, NInf => NInf
  end.

Definition fsub (a b : number) : number := fadd a (fneg b).

(** An infinity of the sign of [x] when [x <> 0], nan when [x = 0]
    (the value of [inf * x]). *)
Definition inf_times (positive : bool) (x : R) : number :=
  if Req_dec_T x 0 then NaN
  else if Rlt_dec 0 x then (if positive then PInf else NInf)
       else (if positive then NInf else PInf).

Definition fmul (a b : number) : number :=
  match a, b with
  | NaN, _ | _, NaN => NaN
  | Fin x, Fin y => Fin (x * y)
  | PInf, Fin y | Fin y, PInf => inf_times true y
  | NInf, Fin y | Fin y, NInf => inf_times false y
  | PInf, PInf | NInf, NInf => PInf
  | PInf, NInf | NInf, PInf => NInf
  end.

(** [x / y] as numpy divides doubles: a zero divisor gives an infinity of the
    sign of the dividend, and nan for [0 / 0]; nothing is raised. *)
Definition fdiv (a b : number) : number :=
  match a, b with
  | NaN, _ | _, NaN => NaN
  | Fin x, Fin y =>
      if Req_dec_T y 0 then inf_times true x else Fin (x / y)
  | Fin _, (PInf | NInf) => Fin 0
  | PInf, Fin y => if Rlt_dec y 0 then NInf else PInf
  | NInf, Fin y => if Rlt_dec y 0 then PInf else NInf
  | (PInf | NInf), (PInf | NInf) => NaN
  end.

Definition fsquare (a : number) : number := fmul a a.

Definition fabs (a : number) : number :=
  match a with
  | Fin x => Fin (Rabs x)
  | PInf | NInf => PInf
  | NaN => NaN
  end.

Definition fsqrt (a : number) : number :=
  match a with
  | Fin x => if Rlt_dec x 0 then NaN else Fin (sqrt x)
  | PInf => PInf
  | NInf | NaN => NaN
  end.

Definition fexp (a : number) : number :=
  match a with
  | Fin x => Fin (exp x)
  | PInf => PInf
  | NInf => Fin 0
  | NaN => NaN
  end.

(** Natural logarithm: [log 0 = -inf], nan below zero. *)
Definition flog (a : number) : number :=
  match a with
  | Fin x => if Rlt_dec x 0 then NaN
             else if Req_dec_T x 0 then NInf else Fin (ln x)
  | PInf => PInf
  | NInf | NaN => NaN
  end.

Definition flog2 (a : number) : number :=
  match a with
  | Fin x => if Rlt_dec x 0 then NaN
             else if Req_dec_T x 0 then NInf else Fin (ln x / ln 2)
  | PInf => PInf
  | NInf | NaN => NaN
  end.

(** Comparisons: false as soon as one side is nan. *)
Definition flt (a b : number) : bool :=
  match a, b with
  | NaN, _ | _, NaN => false
  | Fin x, Fin y => if Rlt_dec x y then true else false
  | PInf, _ | _, NInf => false
  | NInf, _ | _, PInf => true
  end.

Definition fle (a b : number) : bool :=
  match a, b with
  | NaN, _ | _, NaN => false
  | Fin x, Fin y => if Rle_dec x y then true else false
  | NInf, _ | _, PInf => true
  | PInf, _ | _, NInf => false
  end.

Definition fge (a b : number) : bool := fle b a.
Definition fgt (a b : number) : bool := flt b a.

Definition pi : number := Fin PI.

End Num.
Export Num.

Declare Scope num_scope.
Delimit Scope num_scope with num.
Bind Scope num_scope with number.
Infix "+" := fadd : num_scope.
Infix "-" := fsub : num_scope.
Infix "*" := fmul : num_scope.
Infix "/" := fdiv : num_scope.
Notation "- x" := (fneg x) : num_scope.
Notation "0" := (Fin 0%R) : num_scope.
Notation "1" := (Fin 1%R) : num_scope.
Notation "2" := (Fin 2%R) : num_scope.

(** ** Python control flow and containers *)

Module Py.

(** A Python exception ends the computation: [None]. *)
Definition bind {A B : Type} (m : option A) (f : A -> option B) : option B :=
  match m with
  | Some a => f a
  | None => None
  end.

Fixpoint foldM {A B : Type} (f : B -> A -> option B) (l : list A) (b : B)
  : option B :=
  match l with
  | [] => Some b
  | a :: l' => bind (f b a) (foldM f l')
  end.

Fixpoint mapM {A B : Type} (f : A -> option B) (l : list A) : option (list B) :=
  match l with
  | [] => Some []
  | a :: l' =>
      bind (f a) (fun b => bind (mapM f l') (fun bs => Some (b :: bs)))
  end.

(** [l[i]] for [i >= 0]; IndexError out of range. *)
Definition getitem {A : Type} (l : list A) (i : nat) : option A := nth_error l i.

(** [l[-n]] for [n >= 1]; IndexError when the list is shorter than [n]. *)
Definition getitem_neg {A : Type} (l : list A) (n : nat) : option A :=
  if (1 <=? n) && (n <=? length l) then nth_error l (length l - n) else None.

(** [l[i] = v]; IndexError out of range. *)
Fixpoint setitem {A : Type} (l : list A) (i : nat) (v : A) : option (list A) :=
  match l, i with
  | [], _ => None
  | _ :: t, O => Some (v :: t)
  | h :: t, S i' => option_map (cons h) (setitem t i' v)
  end.

(** [l[a:b]] for [0 <= a <= b]: a slice is cut at the end of the list. *)
Definition slice {A : Type} (l : list A) (a b : nat) : list A :=
  firstn (b - a) (skipn a l).

(** [for i in range(start, start + n): body; if ...: break].  The body returns
    the new state and whether it hit [break].  The result is the final state and
    the number of times the body ran. *)
Fixpoint for_range_count {S : Type} (body : nat -> S -> option (S * bool))
  (i n : nat) (s : S) : option (S * nat) :=
  match n with
  | O => Some (s, O)
  | Datatypes.S n' =>
      match body i s with
      | None => None
      | Some (s', true) => Some (s', 1)
      | Some (s', false) =>
          option_map (fun r => (fst r, Datatypes.S (snd r)))
                     (for_range_count body (Datatypes.S i) n' s')
      end
  end.

Definition for_range {S : Type} (body : nat -> S -> option (S * bool))
  (i n : nat) (s : S) : option S :=
  option_map fst (for_range_count body i n s).

(** A [dict] with integer keys: an association list in insertion order. *)
Definition dict (V : Type) : Type := list (Z * V).

Fixpoint dict_get {V : Type} (d : dict V) (k : Z) : option V :=
  match d with
  | [] => None
  | (k', v) :: d' => if Z.eqb k' k then Some v else dict_get d' k
  end.

(** [d[k] = v]: an existing key keeps its place, a new key goes last. *)
Fixpoint dict_set {V : Type} (d : dict V) (k : Z) (v : V) : dict V :=
  match d with
  | [] => [(k, v)]
  | (k', v') :: d' =>
      if Z.eqb k' k then (k', v) :: d' else (k', v') :: dict_set d' k v
  end.

Definition dict_keys {V : Type} (d : dict V) : list Z := map fst d.

End Py.
Export Py.

Notation "x <- m ;; k" := (bind m (fun x => k))
  (at level 61, m at next level, right associativity).
Notation "' p <- m ;; k" := (bind m (fun x => match x with p => k end))
  (at level 61, p pattern, m at next level, right associativity).

(** ** numpy arrays *)

Module Np.

Definition vec : Type := list number.
(** A two-dimensional array, as the list of its rows. *)
Definition matrix : Type := list vec.

Fixpoint zipWith {A B C : Type} (f : A -> B -> C) (a : list A) (b : list B)
  : list C :=
  match a, b with
  | x :: a', y :: b' => f x y :: zipWith f a' b'
  | _, _ => []
  end.

(** [np.sum]; also Python's [sum], which starts from 0. *)
Definition sum (v : vec) : number := fold_left fadd v 0%num.

(** [np.mean]: the mean of no element is [0 / 0]. *)
Definition mean (v : vec) : number := (sum v / of_nat (length v))%num.

(** [a.dot(b)] on two vectors. *)
Definition dot (a b : vec) : number := sum (zipWith fmul a b).

(** [np.std]: the population standard deviation. *)
Definition std (v : vec) : number :=
  let mu := mean v in
  fsqrt (mean (map (fun x => fsquare (fabs (x - mu)%num)) v)).

(** [X.shape[0]] and [X.shape[1]].  For an array with no row numpy still
    knows the number of columns; the model has 0 there. *)
Definition shape0 (X : matrix) : nat := length X.
Definition shape1 (X : matrix) : nat :=
  match X with
  | [] => O
  | r :: _ => length r
  end.

(** [X[:, j]] for [j < X.shape[1]]. *)
Definition column (X : matrix) (j : nat) : vec := map (fun r => nth j r NaN) X.

(** [X.dot(v)] and [X.T.dot(v)]. *)
Definition mat_dot (X : matrix) (v : vec) : vec := map (fun r => dot r v) X.
Definition matT_dot (X : matrix) (v : vec) : vec :=
  map (fun j => dot (column X j) v) (seq 0 (shape1 X)).

(** [l[idx]] with a list of indices; IndexError out of range. *)
Definition take {A : Type} (l : list A) (idx : list nat) : option (list A) :=
  mapM (getitem l) idx.

(** [np.delete(l, idx, axis=0)] for indices in range. *)
Definition delete {A : Type} (l : list A) (idx : list nat) : list A :=
  map snd (filter (fun p => negb (existsb (Nat.eqb (fst p)) idx))
                  (combine (seq 0 (length l)) l)).

(** [X[y == c]]: the rows whose label is [c]. *)
Definition mask_rows {A : Type} (X : list A) (y : list Z) (c : Z) : list A :=
  map fst (filter (fun p => Z.eqb (snd p) c) (combine X y)).

(** [np.unique]: the distinct values, ascending. *)
Fixpoint insert_unique (z : Z) (l : list Z) : list Z :=
  match l with
  | [] => [z]
  | h :: t =>
      if Z.ltb z h then z :: l
      else if Z.eqb z h then l
      else h :: insert_unique z t
  end.

Definition unique (y : list Z) : list Z := fold_right insert_unique [] y.

(** [np.argmax] on one row: the first index holding the maximum, and the
    first nan if there is one; ValueError on an empty row. *)
Fixpoint argmax_from (mp : number) (best i : nat) (l : vec) : nat :=
  match l with
  | [] => best
  | x :: t =>
      if negb (fle x mp)
      then (if isnan x then i else argmax_from x i (S i) t)
      else argmax_from mp best (S i) t
  end.

Definition argmax (l : vec) : option nat :=
  match l with
  | [] => None
  | x :: t => Some (if isnan x then O else argmax_from x O 1 t)
  end.

(** [np.mean(a == b)] on two label vectors of one length. *)
Definition mean_eq (a b : list Z) : number :=
  mean (zipWith (fun p q => if Z.eqb p q then 1%num else 0%num) a b).

End Np.

(** ** The random generator

    [np.random.seed], [np.random.random], [np.random.permutation] and
    [np.random.choice(n, k, replace=False)] act on one generator shared by the
    whole process.  The generator itself (numpy's Mersenne Twister) is a
    parameter of the development: a state, the four operations on it, and what
    numpy promises about the indices they return. *)

Class Generator : Type := {
  rng : Type;
  rng_seed : N -> rng;
  rng_random : nat -> rng -> list R * rng;
  rng_permutation : nat -> rng -> list nat * rng;
  rng_choice : nat -> nat -> rng -> list nat * rng;
  rng_permutation_range :
    forall n g, Permutation (fst (rng_permutation n g)) (seq 0 n);
  rng_choice_range :
    forall n k g, k <= n ->
      length (fst (rng_choice n k g)) = k /\
      Forall (fun i => i < n) (fst (rng_choice n k g))
}.

Import Np.
Local Open Scope num_scope.

(** ** Correlation scorer and feature selector *)

Definition pearson_correlation (x y : vec) : number :=
  let mean_x := mean x in
  let mean_y := mean y in
  let numerator :=
    sum (zipWith fmul (map (fun a => a - mean_x) x) (map (fun b => b - mean_y) y)) in
  let denominator :=
    fsqrt (sum (map (fun a => fsquare (a - mean_x)) x)
           * sum (map (fun b => fsquare (b - mean_y)) y)) in
  numerator / denominator.

(** The same function on binary64 numbers, operation for operation.  numpy
    adds an array of fewer than eight elements from the left (longer arrays
    are summed pairwise), so [F64.sum] is [np.sum] on such arrays. *)
Module F64.

Definition float : Set := PrimFloat.float.

Fixpoint of_nat (n : nat) : float :=
  match n with
  | O => PrimFloat.zero
  | S n' => PrimFloat.add (of_nat n') PrimFloat.one
  end.

Definition is_finite (a : float) : bool :=
  negb (PrimFloat.is_nan a) && negb (PrimFloat.is_infinity a).

Definition sum (v : list float) : float := fold_left PrimFloat.add v PrimFloat.zero.

Definition mean (v : list float) : float :=
  PrimFloat.div (sum v) (of_nat (length v)).

Definition pearson_correlation (x y : list float) : float :=
  let mean_x := mean x in
  let mean_y := mean y in
  let numerator :=
    sum (zipWith PrimFloat.mul (map (fun a => PrimFloat.sub a mean_x) x)
                               (map (fun b => PrimFloat.sub b mean_y) y)) in
  let square := fun a => PrimFloat.mul a a in
  let denominator :=
    PrimFloat.sqrt
      (PrimFloat.mul (sum (map (fun a => square (PrimFloat.sub a mean_x)) x))
                     (sum (map (fun b => square (PrimFloat.sub b mean_y)) y))) in
  PrimFloat.div numerator denominator.

End F64.

(** [correlations.sort(key=lambda x: x[1], reverse=True)].  Python's sort is
    stable, also in reverse, and compares keys with [<] only; on keys that are
    totally ordered (no nan) it is this insertion sort. *)
Fixpoint insert_desc {A : Type} (p : A * number) (l : list (A * number))
  : list (A * number) :=
  match l with
  | [] => [p]
  | q :: t => if negb (flt (snd p) (snd q)) then p :: l else q :: insert_desc p t
  end.

Definition sort_desc {A : Type} (l : list (A * number)) : list (A * number) :=
  fold_right insert_desc [] l.

Section FeatureSelection.

(** A pandas column, its numeric values ([np.array(X[feature])]) and the
    conversion [pd.to_numeric(pd.to_datetime(.))] are pandas' own. *)
Variable series : Type.
Variable np_array : series -> vec.
Variable to_numeric_datetime : series -> series.

(** A table: named columns, in order. *)
Definition DataFrame : Type := list (string * series).

Definition columns (X : DataFrame) : list string := map fst X.

(** [X[name]]; KeyError when there is no such column. *)
Fixpoint df_get (X : DataFrame) (name : string) : option series :=
  match X with
  | [] => None
  | (n, s) :: X' => if String.eqb n name then Some s else df_get X' name
  end.

(** [X[name] = s]: replaces the column where it stands. *)
Fixpoint df_set (X : DataFrame) (name : string) (s : series) : DataFrame :=
  match X with
  | [] => [(name, s)]
  | (n, s') :: X' =>
      if String.eqb n name then (n, s) :: X' else (n, s') :: df_set X' name s
  end.

(** Returns the selected names and the caller's table, whose date column has
    been overwritten. *)
Definition feature_selection (X : DataFrame) (y : vec) (n_features : nat)
  : option (list string * DataFrame) :=
  date <- df_get X "date" ;;
  let X := df_set X "date" (to_numeric_datetime date) in
  correlations <-
    foldM (fun correlations feature =>
             x <- df_get X feature ;;
             let corr := pearson_correlation (np_array x) y in
             Some (correlations ++ [(feature, fabs corr)]))
          (columns X) [] ;;
  let correlations := sort_desc correlations in
  let best_features := map fst (firstn n_features correlations) in
  Some (best_features, X).

End FeatureSelection.

(** ** Logistic regression by gradient descent *)

Module LogisticRegressionGD.

Record t : Type := mk {
  eta : number;
  n_iter : nat;
  eps : number;
  random_state : N;
  theta : option vec;      (* None until the first fit *)
  Js : vec;
  thetas : list vec
}.

(** [__init__] *)
Definition init (eta : number) (n_iter : nat) (eps : number) (random_state : N) : t :=
  mk eta n_iter eps random_state None [] [].

Definition sigmoid (X : vec) : vec := map (fun x => 1 / (1 + fexp (- x))) X.

Definition cost_function (h : vec) (y : vec) : number :=
  let m := length h in
  (dot y (map flog h) + dot (map (fun v => 1 - v) y) (map (fun v => flog (1 - v)) h))
  / of_Z (- Z.of_nat m).

Definition apply_bias_trick (X : matrix) : matrix := map (fun r => 1 :: r) X.

(** One pass of the loop of [fit]; [X] has its bias column. *)
Definition fit_iteration (X : matrix) (y : vec) (i : nat) (self : t)
  : option (t * bool) :=
  th <- theta self ;;
  let sigmoid := sigmoid (mat_dot X th) in
  let gradient := map (fmul (eta self)) (matT_dot X (zipWith fsub sigmoid y)) in
  let th := zipWith fsub th gradient in
  let Js' := Js self ++ [cost_function sigmoid y] in
  let self := mk (eta self) (n_iter self) (eps self) (random_state self)
                 (Some th) Js' (thetas self ++ [th]) in
  stop <- (if 1 <? i
           then prev <- getitem_neg Js' 2 ;;
                last <- getitem_neg Js' 1 ;;
                Some (flt (prev - last) (eps self))
           else Some false) ;;
  Some (self, stop).

Section WithGenerator.
Context {G : Generator}.

Definition fit (self : t) (X : matrix) (y : list Z) (g : rng) : option (t * rng) :=
  let g := rng_seed (random_state self) in
  let X := apply_bias_trick X in
  let '(th, g) := rng_random (shape1 X) g in
  let self := mk (eta self) (n_iter self) (eps self) (random_state self)
                 (Some (map Fin th)) (Js self) (thetas self) in
  self <- for_range (fit_iteration X (map of_Z y)) 0 (n_iter self) self ;;
  Some (self, g).

(** The number of passes a call of [fit] completes. *)
Definition fit_iterations (self : t) (X : matrix) (y : list Z) : option nat :=
  let g := rng_seed (random_state self) in
  let X := apply_bias_trick X in
  let '(th, g) := rng_random (shape1 X) g in
  let self := mk (eta self) (n_iter self) (eps self) (random_state self)
                 (Some (map Fin th)) (Js self) (thetas self) in
  option_map snd (for_range_count (fit_iteration X (map of_Z y)) 0 (n_iter self) self).

End WithGenerator.

Definition predict (self : t) (X : matrix) : option (list Z) :=
  let X := apply_bias_trick X in
  th <- theta self ;;
  let h_x := sigmoid (mat_dot X th) in
  Some (map (fun h => if fge h (Fin (1 / 2)) then 1%Z else 0%Z) h_x).

End LogisticRegressionGD.

(** ** Cross-validation *)

(** The capability set of [algo]: [fit] changes the object (and may use the
    generator), [predict] reads it. *)
Class Classifier {G : Generator} (A : Type) : Type := {
  clf_fit : A -> matrix -> list Z -> rng -> option (A * rng);
  clf_predict : A -> matrix -> option (list Z)
}.

Section CrossValidation.
Context {G : Generator} {A : Type} {C : Classifier A}.

(** [elements_lst[start_threshhold:end_threshhold]] of fold [i] (from 1). *)
Definition test_list (m folds i : nat) : list nat :=
  let num_of_elements := (m / folds)%nat in
  let elements_lst := seq 0 m in
  let start_threshhold := ((i - 1) * num_of_elements)%nat in
  let end_threshhold := (i * num_of_elements)%nat in
  slice elements_lst start_threshhold end_threshhold.

(** One pass of the loop: the state is [cv_accuracy], [algo] and the
    generator. *)
Definition cv_fold (X_shuffled : matrix) (y_shuffled : list Z) (folds : nat)
  (st : number * A * rng) (i : nat) : option (number * A * rng) :=
  let '(cv_accuracy, algo, g) := st in
  let test_list := test_list (shape0 X_shuffled) folds i in
  let X_train := delete X_shuffled test_list in
  X_test <- take X_shuffled test_list ;;
  let y_train := delete y_shuffled test_list in
  y_test <- take y_shuffled test_list ;;
  '(algo, g) <- clf_fit algo X_train y_train g ;;
  test_predict <- clf_predict algo X_test ;;
  let fold_accuracy := mean_eq test_predict y_test in
  Some (cv_accuracy + fold_accuracy, algo, g).

Definition cross_validation (X : matrix) (y : list Z) (folds : nat) (algo : A)
  (random_state : N) (g : rng) : option (number * A * rng) :=
  let cv_accuracy := 0 in
  let g := rng_seed random_state in
  let '(shuffled_indices, g) := rng_permutation (shape0 X) g in
  X_shuffled <- take X shuffled_indices ;;
  y_shuffled <- take y shuffled_indices ;;
  (* X.shape[0] // folds raises ZeroDivisionError *)
  _ <- (if folds =? 0 then None else Some tt) ;;
  '(cv_accuracy, algo, g) <-
    foldM (cv_fold X_shuffled y_shuffled folds) (seq 1 folds) (cv_accuracy, algo, g) ;;
  Some (cv_accuracy / of_nat folds, algo, g).

End CrossValidation.

(** ** Gaussian and mixture densities *)

Definition norm_pdf (data mu sigma : number) : number :=
  (1 / (sigma * fsqrt (2 * pi)))
  * fexp (- (fsquare (data - mu)) / (2 * fsquare sigma)).

(** On one value; on an array numpy applies it to every element.  [mus[j]] and
    [sigmas[j]] are read for every [j < len(weights)]. *)
Definition gmm_pdf (data : number) (weights mus sigmas : vec) : option number :=
  let k := length weights in
  foldM (fun pdf j =>
           w <- getitem weights j ;;
           mu <- getitem mus j ;;
           sigma <- getitem sigmas j ;;
           Some (pdf + w * norm_pdf data mu sigma))
        (seq 0 k) 0.

(** ** EM for a one-dimensional Gaussian mixture *)

Module EM.

(** [responsibilities] is kept by columns, one per component (the code builds
    it column after column and reads it through its transpose).  The
    attributes that are [None] before the first fit are empty here. *)
Record t : Type := mk {
  k : nat;
  n_iter : nat;
  eps : number;
  random_state : N;
  responsibilities : list vec;
  weights : vec;
  mus : vec;
  sigmas : vec;
  costs : vec
}.

Definition set_params (self : t) (weights mus sigmas : vec) : t :=
  mk (k self) (n_iter self) (eps self) (random_state self)
     (responsibilities self) weights mus sigmas (costs self).

Definition set_responsibilities (self : t) (r : list vec) : t :=
  mk (k self) (n_iter self) (eps self) (random_state self)
     r (weights self) (mus self) (sigmas self) (costs self).

Definition set_costs (self : t) (c : vec) : t :=
  mk (k self) (n_iter self) (eps self) (random_state self)
     (responsibilities self) (weights self) (mus self) (sigmas self) c.

(** E step *)
Definition expectation (self : t) (data : vec) : option t :=
  cols <-
    foldM (fun cols i =>
             w <- getitem (weights self) i ;;
             mu <- getitem (mus self) i ;;
             sigma <- getitem (sigmas self) i ;;
             let likelihood_col_i := map (fun x => w * norm_pdf x mu sigma) data in
             Some (cols ++ [likelihood_col_i]))
          (seq 0 (k self)) [] ;;
  let row_sums := fold_left (zipWith fadd) cols (repeat 0 (length data)) in
  Some (set_responsibilities self (map (fun col => zipWith fdiv col row_sums) cols)).

(** M step *)
Definition maximization (self : t) (data : vec) : option t :=
  let m := of_nat (length data) in
  let weights := map mean (responsibilities self) in
  let mus :=
    zipWith fmul (map (fun w => 1 / (m * w)) weights)
                 (map (fun col => dot col data) (responsibilities self)) in
  sigmas <-
    foldM (fun sigmas i =>
             col <- getitem (responsibilities self) i ;;
             mu <- getitem mus i ;;
             setitem sigmas i (dot col (map (fun x => fsquare (x - mu)) data)))
          (seq 0 (k self)) (sigmas self) ;;
  let sigmas := map fsqrt (zipWith fmul (map (fun w => 1 / (m * w)) weights) sigmas) in
  Some (set_params self weights mus sigmas).

(** One pass of the loop of [fit]. *)
Definition fit_iteration (data : vec) (i : nat) (self : t) : option (t * bool) :=
  self <- expectation self data ;;
  self <- maximization self data ;;
  cost <-
    foldM (fun cost d =>
             p <- gmm_pdf d (weights self) (mus self) (sigmas self) ;;
             Some (cost - flog2 p))
          data 0 ;;
  let costs' := costs self ++ [cost] in
  let self := set_costs self costs' in
  stop <- (if 1 <? i
           then prev <- getitem_neg costs' 2 ;;
                last <- getitem_neg costs' 1 ;;
                Some (flt (prev - last) (eps self))
           else Some false) ;;
  Some (self, stop).

Definition get_dist_params (self : t) : vec * vec * vec :=
  (weights self, mus self, sigmas self).

Section WithGenerator.
Context {G : Generator}.

(** [__init__] seeds the process-wide generator. *)
Definition init (k n_iter : nat) (eps : number) (random_state : N) (g : rng)
  : t * rng :=
  (mk k n_iter eps random_state [] [] [] [] [], rng_seed random_state).

(** [np.random.choice(n, k, replace=False)]: ValueError when [k > n]. *)
Definition random_choice (n k : nat) (g : rng) : option (list nat * rng) :=
  if n <? k then None else Some (rng_choice n k g).

Definition init_params (self : t) (data : vec) (g : rng) : option (t * rng) :=
  let weights := map (fun o => o / of_nat (k self)) (repeat 1 (k self)) in
  '(random_indices, g) <- random_choice (length data) (k self) g ;;
  mus <- take data random_indices ;;
  let sigmas := repeat (std data) (k self) in
  Some (set_params self weights mus sigmas, g).

Definition fit (self : t) (data : vec) (g : rng) : option (t * rng) :=
  '(self, g) <- init_params self data g ;;
  self <- for_range (fit_iteration data) 0 (n_iter self) self ;;
  Some (self, g).

(** The number of passes a call of [fit] completes. *)
Definition fit_iterations (self : t) (data : vec) (g : rng) : option nat :=
  '(self, g) <- init_params self data g ;;
  option_map snd (for_range_count (fit_iteration data) 0 (n_iter self) self).

End WithGenerator.

End EM.

(** ** Naive Bayes on per-feature Gaussian mixtures *)

Module NaiveBayesGaussian.

Record t : Type := mk {
  k : nat;
  random_state : N;
  prior : dict number;
  dist_params : dict (list (vec * vec * vec))
}.

(** [__init__] *)
Definition init (k : nat) (random_state : N) : t := mk k random_state [] [].

Section WithGenerator.
Context {G : Generator}.

(** The body of [for j in range(sub_data.shape[1])]. *)
Definition fit_feature (k : nat) (random_state : N) (data_class : Z)
  (sub_data : matrix) (st : dict (list (vec * vec * vec)) * rng) (j : nat)
  : option (dict (list (vec * vec * vec)) * rng) :=
  let '(dist_params, g) := st in
  (* EM(self.k, random_state = self.random_state): n_iter=1000, eps=0.01 *)
  let '(em, g) := EM.init k 1000 (Fin (1 / 100)) random_state g in
  '(em, g) <- EM.fit em (column sub_data j) g ;;
  l <- dict_get dist_params data_class ;;
  Some (dict_set dist_params data_class (l ++ [EM.get_dist_params em]), g).

(** The body of [for data_class in np.unique(y)]. *)
Definition fit_class (X : matrix) (y : list Z) (st : t * rng) (data_class : Z)
  : option (t * rng) :=
  let '(self, g) := st in
  let dist_params := dict_set (dist_params self) data_class [] in
  let sub_data := mask_rows X y data_class in
  let prior :=
    dict_set (prior self) data_class (of_nat (shape0 sub_data) / of_nat (shape0 X)) in
  '(dist_params, g) <-
    foldM (fit_feature (k self) (random_state self) data_class sub_data)
          (seq 0 (shape1 sub_data)) (dist_params, g) ;;
  Some (mk (k self) (random_state self) prior dist_params, g).

Definition fit (self : t) (X : matrix) (y : list Z) (g : rng) : option (t * rng) :=
  foldM (fit_class X y) (unique y) (self, g).

End WithGenerator.

(** The column of the posterior matrix for one class. *)
Definition column_posterior (self : t) (X : matrix) (data_class : Z) : option vec :=
  column_posterior <-
    foldM (fun column_posterior j =>
             params <- dict_get (dist_params self) data_class ;;
             '(weights, mus, sigmas) <- getitem params j ;;
             pdf <- mapM (fun x => gmm_pdf x weights mus sigmas) (column X j) ;;
             Some (zipWith fmul column_posterior pdf))
          (seq 0 (shape1 X)) (repeat 1 (shape0 X)) ;;
  p <- dict_get (prior self) data_class ;;
  Some (map (fun v => v * p) column_posterior).

(** The posterior matrix, by columns: one per key of [prior], in its order. *)
Definition postiriors_matrix (self : t) (X : matrix) : option (list vec) :=
  foldM (fun cols data_class =>
           col <- column_posterior self X data_class ;;
           Some (cols ++ [col]))
        (dict_keys (prior self)) [].

Definition predict (self : t) (X : matrix) : option (list Z) :=
  cols <- postiriors_matrix self X ;;
  preds <- mapM (fun r => argmax (map (fun col => nth r col NaN) cols))
                (seq 0 (shape0 X)) ;;
  (* argmax along an axis of length 0 is a ValueError, whatever the rows *)
  _ <- (if length cols =? 0 then None else Some tt) ;;
  Some (map Z.of_nat preds).

End NaiveBayesGaussian.

Definition compute_accuracy (preds_vector actual_classes : list Z) : number :=
  mean_eq preds_vector actual_classes.

(** Both estimators have the capabilities cross-validation asks for. *)
#[export] Instance LogisticRegressionGD_Classifier {G : Generator}
  : Classifier LogisticRegressionGD.t :=
  {| clf_fit := LogisticRegressionGD.fit;
     clf_predict := LogisticRegressionGD.predict |}.

#[export] Instance NaiveBayesGaussian_Classifier {G : Generator}
  : Classifier NaiveBayesGaussian.t :=
  {| clf_fit := NaiveBayesGaussian.fit;
     clf_predict := NaiveBayesGaussian.predict |}.

(** ** Evaluation of both models *)

(** The dictionary [model_evaluation] returns, one field per key. *)
Record accuracies : Type := mk_accuracies {
  lor_train_acc : number;
  lor_test_acc : number;
  bayes_train_acc : number;
  bayes_test_acc : number
}.

Section ModelEvaluation.
Context {G : Generator}.

Definition model_evaluation (x_train : matrix) (y_train : list Z)
  (x_test : matrix) (y_test : list Z) (k : nat) (best_eta best_eps : number)
  (g : rng) : option (accuracies * rng) :=
  (* LogisticRegressionGD(eta=best_eta, eps=best_eps): n_iter=10000, random_state=1 *)
  let lor := LogisticRegressionGD.init best_eta 10000 best_eps 1 in
  '(lor, g) <- LogisticRegressionGD.fit lor x_train y_train g ;;
  preds <- LogisticRegressionGD.predict lor x_train ;;
  let lor_train_acc := compute_accuracy preds y_train in
  preds <- LogisticRegressionGD.predict lor x_test ;;
  let lor_test_acc := compute_accuracy preds y_test in
  (* NaiveBayesGaussian(k): random_state=1991 *)
  let bayes := NaiveBayesGaussian.init k 1991 in
  '(bayes, g) <- NaiveBayesGaussian.fit bayes x_train y_train g ;;
  preds <- NaiveBayesGaussian.predict bayes x_train ;;
  let bayes_train_acc := compute_accuracy preds y_train in
  preds <- NaiveBayesGaussian.predict bayes x_test ;;
  let bayes_test_acc := compute_accuracy preds y_test in
  Some (mk_accuracies lor_train_acc lor_test_acc bayes_train_acc bayes_test_acc, g).

End ModelEvaluation.

(** * Properties *)

Local Close Scope num_scope.

(** ** Loops with an early stop *)

(** The stopping test of both training loops, on the costs a call has
    appended so far: pass [j] (counted from 0) stops the loop when
    [j > 1] and [cost[j-1] - cost[j] < eps]. *)
Definition stops_at (eps : number) (costs : vec) (j : nat) : bool :=
  (1 <? j) && flt (nth (j - 1) costs NaN - nth j costs NaN) eps.

Lemma getitem_neg_last {A : Type} (l : list A) (x : A) :
  getitem_neg (l ++ [x]) 1 = Some x.
Proof.
  unfold getitem_neg. rewrite length_app. cbn [length].
  replace (1 <=? length l + 1) with true by (symmetry; apply Nat.leb_le; lia).
  cbn. replace (length l + 1 - 1)%nat with (length l) by lia.
  rewrite nth_error_app2 by lia. now rewrite Nat.sub_diag.
Qed.

Lemma getitem_neg_prev {A : Type} (l : list A) (x y : A) :
  getitem_neg ((l ++ [x]) ++ [y]) 2 = Some x.
Proof.
  unfold getitem_neg. rewrite !length_app. cbn [length].
  replace (2 <=? length l + 1 + 1) with true by (symmetry; apply Nat.leb_le; lia).
  cbn. replace (length l + 1 + 1 - 2)%nat with (length l) by lia.
  rewrite nth_error_app1 by (rewrite length_app; cbn; lia).
  rewrite nth_error_app2 by lia. now rewrite Nat.sub_diag.
Qed.

Lemma getitem_neg_short {A : Type} (x : A) : getitem_neg [x] 2 = None.
Proof. reflexivity. Qed.

Section LoopSpec.

(** A loop whose passes append one cost each and stop on [stops_at]. *)
Variable St : Type.
Variable body : nat -> St -> option (St * bool).
Variable hist : St -> vec.
Variable eps : number.
Variable Inv : St -> Prop.

Hypothesis body_spec : forall i s,
  Inv s -> (1 < i -> hist s <> []) ->
  exists s' c stop,
    body i s = Some (s', stop) /\ hist s' = hist s ++ [c] /\ Inv s' /\
    (stop = true <->
     1 < i /\ exists prev, getitem_neg (hist s) 1 = Some prev /\
                           flt (prev - c)%num eps = true).

Lemma body_stop_test i s old new :
  Inv s -> hist s = old ++ new -> length new = i ->
  exists s' c,
    body i s = Some (s', stops_at eps (new ++ [c]) i) /\
    hist s' = hist s ++ [c] /\ Inv s'.
Proof.
  intros HI Hh Hlen.
  assert (Hne : 1 < i -> hist s <> []).
  { intros Hi Hnil. rewrite Hnil in Hh. symmetry in Hh.
    apply app_eq_nil in Hh as [_ ->]. cbn in Hlen. lia. }
  destruct (body_spec i s HI Hne) as (s1 & c & stop & Hb & Hh1 & HI1 & Hstop).
  exists s1, c. split; [|now split].
  rewrite Hb. do 2 f_equal.
  unfold stops_at. destruct (Nat.ltb_spec 1 i) as [Hi|Hi].
  - cbn. destruct new as [|x new _] using rev_ind; [cbn in Hlen; lia|].
    rewrite length_app in Hlen. cbn in Hlen.
    rewrite Hh, app_assoc in Hstop. rewrite getitem_neg_last in Hstop.
    replace (nth (i - 1) ((new ++ [x]) ++ [c]) NaN) with x.
    2:{ rewrite app_nth1 by (rewrite length_app; cbn; lia).
        rewrite app_nth2 by lia.
        replace (i - 1 - length new)%nat with 0%nat by lia. reflexivity. }
    replace (nth i ((new ++ [x]) ++ [c]) NaN) with c.
    2:{ rewrite app_nth2 by (rewrite length_app; cbn; lia).
        rewrite length_app. cbn.
        replace (i - (length new + 1))%nat with 0%nat by lia. reflexivity. }
    destruct stop.
    + destruct Hstop as [Hs _]. destruct (Hs eq_refl) as (_ & p & Hp & Hf).
      injection Hp as <-. now rewrite Hf.
    + destruct (flt (x - c)%num eps) eqn:Hf; [|reflexivity].
      destruct Hstop as [_ Hs].
      discriminate (Hs (conj Hi (ex_intro _ x (conj eq_refl Hf)))).
  - cbn. destruct stop; [|reflexivity].
    destruct Hstop as [Hs _]. destruct (Hs eq_refl) as (Hi' & _). lia.
Qed.

Lemma stops_at_app eps' l l' j :
  j < length l -> stops_at eps' (l ++ l') j = stops_at eps' l j.
Proof.
  intros Hj. unfold stops_at. destruct (1 <? j); [|reflexivity]. cbn.
  now rewrite !app_nth1 by lia.
Qed.

Lemma for_range_count_spec : forall n i s old new,
  Inv s -> hist s = old ++ new -> length new = i ->
  exists s' c new',
    for_range_count body i n s = Some (s', c) /\
    hist s' = hist s ++ new' /\ length new' = c /\ c <= n /\ Inv s' /\
    (forall j, j + 1 < c -> stops_at eps (new ++ new') (i + j) = false) /\
    (c < n -> 0 < c /\ stops_at eps (new ++ new') (i + c - 1) = true) /\
    (0 < n -> 0 < c).
Proof.
  induction n as [|n IH]; intros i s old new HI Hh Hlen.
  - exists s, 0, []. cbn. rewrite app_nil_r.
    split; [reflexivity|]. split; [reflexivity|]. split; [reflexivity|].
    split; [lia|]. split; [assumption|]. split; [intros; lia|]. split; intros; lia.
  - destruct (body_stop_test i s old new HI Hh Hlen) as (s1 & c & Hb & Hh1 & HI1).
    cbn [for_range_count]. rewrite Hb.
    destruct (stops_at eps (new ++ [c]) i) eqn:Hstop.
    + exists s1, 1, [c].
      split; [reflexivity|]. split; [assumption|]. split; [reflexivity|].
      split; [lia|]. split; [assumption|]. split; [intros; lia|].
      split; [|intros; lia].
      intros _. split; [lia|].
      replace (i + 1 - 1)%nat with i by lia. assumption.
    + destruct (IH (Datatypes.S i) s1 old (new ++ [c]) HI1) as
        (s' & c' & new' & Hr & Hh' & Hl' & Hle & HI' & Hno & Hyes & Hpos).
      { rewrite Hh1, Hh. now rewrite app_assoc. }
      { rewrite length_app. cbn. lia. }
      rewrite Hr. cbn.
      exists s', (Datatypes.S c'), (c :: new').
      assert (Happ : (new ++ [c]) ++ new' = new ++ c :: new')
        by (now rewrite <- app_assoc).
      split; [reflexivity|].
      split; [rewrite Hh', Hh1; now rewrite <- app_assoc|].
      split; [cbn; lia|]. split; [lia|]. split; [assumption|].
      rewrite <- Happ.
      split; [|split; [|intros; lia]].
      * intros j Hj. destruct j as [|j].
        -- rewrite Nat.add_0_r.
           rewrite stops_at_app by (rewrite length_app; cbn; lia). assumption.
        -- replace (i + Datatypes.S j)%nat with (Datatypes.S i + j)%nat by lia.
           apply Hno. lia.
      * intros Hc. split; [lia|].
        replace (i + Datatypes.S c' - 1)%nat with (Datatypes.S i + c' - 1)%nat by lia.
        apply Hyes. lia.
Qed.

End LoopSpec.

(** ** Loops without failure *)

Lemma foldM_total {A B : Type} (f : B -> A -> option B) (h : B -> A -> B) l :
  (forall a b, In a l -> f b a = Some (h b a)) ->
  forall b, foldM f l b = Some (fold_left h l b).
Proof.
  induction l as [|a l IH]; intros Hf b; [reflexivity|].
  cbn. rewrite Hf by now left. cbn. apply IH. intros; apply Hf. now right.
Qed.

Lemma fold_left_snoc_map {A B : Type} (g : A -> B) l : forall acc,
  fold_left (fun acc a => acc ++ [g a]) l acc = acc ++ map g l.
Proof.
  induction l as [|a l IH]; intros acc; cbn.
  - now rewrite app_nil_r.
  - rewrite IH. now rewrite <- app_assoc.
Qed.

Lemma getitem_nth {A : Type} (l : list A) i d :
  i < length l -> getitem l i = Some (nth i l d).
Proof. intros Hi. unfold getitem. now apply nth_error_nth'. Qed.

Lemma setitem_in_range {A : Type} (l : list A) i v :
  i < length l -> setitem l i v = Some (firstn i l ++ v :: skipn (S i) l).
Proof.
  revert i. induction l as [|h t IH]; intros i Hi; [cbn in Hi; lia|].
  destruct i as [|i]; [reflexivity|]. cbn in Hi. cbn [setitem].
  rewrite IH by lia. reflexivity.
Qed.

(** Assigning [l[i] = g i] for [i = a .. a+n-1], in a list long enough. *)
Lemma foldM_setitem_seq {A : Type} (F : list A -> nat -> option (list A))
  (g : nat -> A) n :
  forall a l,
    a + n <= length l ->
    (forall i l, a <= i < a + n -> F l i = setitem l i (g i)) ->
    foldM F (seq a n) l
    = Some (firstn a l ++ map g (seq a n) ++ skipn (a + n) l).
Proof.
  induction n as [|n IH]; intros a l Hlen Hf.
  - cbn. rewrite Nat.add_0_r. now rewrite firstn_skipn.
  - cbn [seq foldM]. rewrite Hf by lia.
    rewrite setitem_in_range by lia. cbn [bind].
    rewrite IH.
    + f_equal. cbn [map].
      rewrite firstn_app, firstn_firstn, length_firstn.
      replace (Nat.min (S a) a) with a by lia.
      replace (S a - Nat.min a (length l))%nat with 1%nat by lia. cbn [firstn].
      rewrite <- app_assoc. cbn [app]. do 3 f_equal.
      rewrite skipn_app, length_firstn.
      replace (S a + n - Nat.min a (length l))%nat with (S n) by lia.
      rewrite (skipn_all2 (firstn a l)) by (rewrite length_firstn; lia).
      cbn [app]. rewrite skipn_cons, skipn_skipn. f_equal. lia.
    + rewrite length_app, length_firstn. cbn [length]. rewrite length_skipn. lia.
    + intros i l' Hi. apply Hf. lia.
Qed.

Lemma length_zipWith {A B C : Type} (f : A -> B -> C) a : forall b,
  length (zipWith f a b) = Nat.min (length a) (length b).
Proof.
  induction a as [|x a IH]; intros [|y b]; cbn; try reflexivity.
  now rewrite IH.
Qed.

Lemma nth_map_in {A B : Type} (f : A -> B) l i d d' :
  i < length l -> nth i (map f l) d = f (nth i l d').
Proof.
  intros Hi. rewrite (nth_indep _ d (f d')) by now rewrite length_map.
  apply map_nth.
Qed.

Lemma nth_zipWith {A B C : Type} (f : A -> B -> C) a : forall b i d da db,
  i < length a -> i < length b ->
  nth i (zipWith f a b) d = f (nth i a da) (nth i b db).
Proof.
  induction a as [|x a IH]; intros [|y b] i d da db Ha Hb; cbn in *; try lia.
  destruct i as [|i]; [reflexivity|]. apply IH; lia.
Qed.

(** ** Logistic regression: what [fit] does *)

Module LR := LogisticRegressionGD.

(** What stays fixed and what grows while [fit] runs on [s0]. *)
Definition LR_inv (s0 s : LR.t) : Prop :=
  LR.eta s = LR.eta s0 /\ LR.n_iter s = LR.n_iter s0 /\
  LR.eps s = LR.eps s0 /\ LR.random_state s = LR.random_state s0 /\
  LR.theta s <> None /\
  exists ths, LR.thetas s = LR.thetas s0 ++ ths /\
              length (LR.Js s) = length (LR.Js s0) + length ths.

Lemma LR_fit_iteration_spec (X : matrix) (y : vec) (s0 : LR.t) i s :
  LR_inv s0 s -> (1 < i -> LR.Js s <> []) ->
  exists s' c stop,
    LR.fit_iteration X y i s = Some (s', stop) /\
    LR.Js s' = LR.Js s ++ [c] /\ LR_inv s0 s' /\
    (stop = true <->
     1 < i /\ exists prev, getitem_neg (LR.Js s) 1 = Some prev /\
                           flt (prev - c)%num (LR.eps s0) = true).
Proof.
  intros (He & Hn & Hp & Hr & Ht & ths & Hths & Hlen) Hne.
  unfold LR.fit_iteration.
  destruct (LR.theta s) as [th|] eqn:Hth; [|contradiction]. cbn [bind].
  set (sg := LR.sigmoid (mat_dot X th)).
  set (c := LR.cost_function sg y).
  set (th' := zipWith fsub th _).
  cbn [LR.Js LR.eps].
  destruct (Nat.ltb_spec 1 i) as [Hi|Hi].
  - destruct (LR.Js s) as [|x l _] using rev_ind; [now specialize (Hne Hi)|].
    rewrite getitem_neg_prev, getitem_neg_last. cbn [bind].
    eexists _, c, _. split; [reflexivity|]. cbn [LR.Js].
    split; [reflexivity|]. split.
    + unfold LR_inv; cbn. repeat (split; [assumption || discriminate|]).
      exists (ths ++ [th']). rewrite Hths, <- app_assoc. split; [reflexivity|].
      rewrite !length_app in *. cbn in *. lia.
    + rewrite getitem_neg_last, Hp. split.
      * intros H. split; [assumption|]. now exists x.
      * intros (_ & p & Hp' & Hf). now injection Hp' as <-.
  - cbn [bind]. eexists _, c, _. split; [reflexivity|]. cbn [LR.Js].
    split; [reflexivity|]. split.
    + unfold LR_inv; cbn. repeat (split; [assumption || discriminate|]).
      exists (ths ++ [th']). rewrite Hths, <- app_assoc. split; [reflexivity|].
      rewrite !length_app in *. cbn in *. lia.
    + split; [discriminate|]. intros (Hi' & _). lia.
Qed.

Section LRFit.
Context {G : Generator}.

(** The generator after [fit]: seeded, then one draw of the initial theta. *)
Definition LR_rng_after (self : LR.t) (X : matrix) : rng :=
  snd (rng_random (shape1 (LR.apply_bias_trick X)) (rng_seed (LR.random_state self))).

Lemma LR_fit_spec (self : LR.t) (X : matrix) (y : list Z) (g : rng) :
  exists self' c new ths,
    LR.fit self X y g = Some (self', LR_rng_after self X) /\
    LR.fit_iterations self X y = Some c /\
    LR.Js self' = LR.Js self ++ new /\
    LR.thetas self' = LR.thetas self ++ ths /\
    length new = c /\ length ths = c /\ c <= LR.n_iter self /\
    LR.eta self' = LR.eta self /\ LR.n_iter self' = LR.n_iter self /\
    LR.eps self' = LR.eps self /\ LR.random_state self' = LR.random_state self /\
    (forall j, j + 1 < c -> stops_at (LR.eps self) new j = false) /\
    (c < LR.n_iter self -> 0 < c /\ stops_at (LR.eps self) new (c - 1) = true) /\
    (0 < LR.n_iter self -> 0 < c).
Proof.
  unfold LR.fit, LR.fit_iterations, LR_rng_after.
  destruct (rng_random _ _) as [th g'] eqn:Hrng. cbn [snd LR.n_iter].
  set (start := LR.mk _ _ _ _ _ _ _).
  destruct (for_range_count_spec LR.t
              (LR.fit_iteration (LR.apply_bias_trick X) (map of_Z y))
              LR.Js (LR.eps self) (LR_inv start)
              (LR_fit_iteration_spec _ _ start)
              (LR.n_iter self) 0 start (LR.Js self) [])
    as (s' & c & new & Hr & Hh & Hl & Hle & HI & Hno & Hyes & Hpos).
  { unfold LR_inv, start; cbn. repeat (split; [reflexivity || discriminate|]).
    exists []. rewrite app_nil_r. split; [reflexivity|]. cbn. lia. }
  { cbn. now rewrite app_nil_r. }
  { reflexivity. }
  unfold for_range. rewrite Hr. cbn.
  destruct HI as (He & Hn & Hp & Hrs & Ht & ths & Hths & Hlen).
  exists s', c, new, ths. cbn in *.
  rewrite Hh, length_app in Hlen.
  split; [reflexivity|]. split; [reflexivity|]. split; [assumption|].
  split; [assumption|]. split; [assumption|]. split; [lia|]. split; [assumption|].
  split; [assumption|]. split; [assumption|]. split; [assumption|].
  split; [assumption|]. split; [assumption|]. split; assumption.
Qed.

End LRFit.

(** ** EM: the steps in closed form *)

(** The weighted density column of component [i]. *)
Definition likelihood_col (self : EM.t) (data : vec) (i : nat) : vec :=
  map (fun x => (nth i (EM.weights self) NaN
                 * norm_pdf x (nth i (EM.mus self) NaN) (nth i (EM.sigmas self) NaN))%num)
      data.

Definition row_sums (cols : list vec) (m : nat) : vec :=
  fold_left (zipWith fadd) cols (repeat 0%num m).

Definition mixture (x : number) (weights mus sigmas : vec) : number :=
  fold_left (fun pdf j => (pdf + nth j weights NaN
                                 * norm_pdf x (nth j mus NaN) (nth j sigmas NaN))%num)
            (seq 0 (length weights)) 0%num.

Definition neg_log2_likelihood (data weights mus sigmas : vec) : number :=
  fold_left (fun cost d => (cost - flog2 (mixture d weights mus sigmas))%num) data 0%num.

Lemma gmm_pdf_eq x weights mus sigmas :
  length mus = length weights -> length sigmas = length weights ->
  gmm_pdf x weights mus sigmas = Some (mixture x weights mus sigmas).
Proof.
  intros Hm Hs. unfold gmm_pdf, mixture. apply foldM_total.
  intros j pdf Hj. apply in_seq in Hj.
  rewrite (getitem_nth weights j NaN), (getitem_nth mus j NaN),
    (getitem_nth sigmas j NaN) by lia.
  reflexivity.
Qed.

Lemma EM_expectation_eq (self : EM.t) (data : vec) :
  length (EM.weights self) = EM.k self ->
  length (EM.mus self) = EM.k self ->
  length (EM.sigmas self) = EM.k self ->
  EM.expectation self data =
  Some (EM.set_responsibilities self
          (let cols := map (likelihood_col self data) (seq 0 (EM.k self)) in
           map (fun col => zipWith fdiv col (row_sums cols (length data))) cols)).
Proof.
  intros Hw Hm Hs. unfold EM.expectation.
  rewrite (foldM_total _ (fun cols i => cols ++ [likelihood_col self data i])).
  - cbn [bind]. rewrite fold_left_snoc_map. reflexivity.
  - intros i cols Hi. apply in_seq in Hi.
    rewrite (getitem_nth (EM.weights self) i NaN),
      (getitem_nth (EM.mus self) i NaN),
      (getitem_nth (EM.sigmas self) i NaN) by lia.
    reflexivity.
Qed.

(** The three updates of the M step, each from the one before. *)
Definition new_weights (resp : list vec) : vec := map mean resp.

Definition new_mus (resp : list vec) (data : vec) : vec :=
  zipWith fmul
    (map (fun w => (1 / (of_nat (length data) * w))%num) (new_weights resp))
    (map (fun col => dot col data) resp).

Definition new_sigmas (resp : list vec) (data : vec) : vec :=
  map fsqrt
    (zipWith fmul
       (map (fun w => (1 / (of_nat (length data) * w))%num) (new_weights resp))
       (map (fun i => dot (nth i resp [])
                          (map (fun x => fsquare (x - nth i (new_mus resp data) NaN)%num) data))
            (seq 0 (length resp)))).

Lemma length_new_mus resp data : length (new_mus resp data) = length resp.
Proof.
  unfold new_mus, new_weights.
  rewrite length_zipWith, !length_map. lia.
Qed.

Lemma length_new_sigmas resp data : length (new_sigmas resp data) = length resp.
Proof.
  unfold new_sigmas, new_weights.
  rewrite length_map, length_zipWith, !length_map, length_seq. lia.
Qed.

Lemma EM_maximization_eq (self : EM.t) (data : vec) :
  length (EM.responsibilities self) = EM.k self ->
  length (EM.sigmas self) = EM.k self ->
  EM.maximization self data =
  Some (EM.set_params self
          (new_weights (EM.responsibilities self))
          (new_mus (EM.responsibilities self) data)
          (new_sigmas (EM.responsibilities self) data)).
Proof.
  intros Hr Hs. unfold EM.maximization.
  fold (new_weights (EM.responsibilities self)).
  fold (new_mus (EM.responsibilities self) data).
  rewrite (foldM_setitem_seq _
             (fun i => dot (nth i (EM.responsibilities self) [])
                           (map (fun x => fsquare (x - nth i (new_mus (EM.responsibilities self) data) NaN)%num) data))).
  - cbn [bind firstn app]. rewrite skipn_all2 by (cbn; lia). rewrite app_nil_r.
    unfold new_sigmas. now rewrite Hr.
  - cbn. lia.
  - intros i l Hi.
    rewrite (getitem_nth (EM.responsibilities self) i []) by lia. cbn [bind].
    rewrite (getitem_nth (new_mus (EM.responsibilities self) data) i NaN)
      by (rewrite length_new_mus; lia).
    reflexivity.
Qed.

Lemma take_in_range {A : Type} (l : list A) (d : A) idx :
  Forall (fun i => i < length l) idx ->
  take l idx = Some (map (fun i => nth i l d) idx).
Proof.
  unfold take. induction 1 as [|i idx Hi _ IH]; [reflexivity|].
  cbn. rewrite (getitem_nth l i d Hi). cbn. now rewrite IH.
Qed.

(** What stays fixed while [EM.fit] runs on an instance with [k0] components. *)
Definition EM_inv (s0 s : EM.t) : Prop :=
  EM.k s = EM.k s0 /\ EM.n_iter s = EM.n_iter s0 /\
  EM.eps s = EM.eps s0 /\ EM.random_state s = EM.random_state s0 /\
  length (EM.weights s) = EM.k s0 /\ length (EM.mus s) = EM.k s0 /\
  length (EM.sigmas s) = EM.k s0.

(** The responsibilities the E step stores. *)
Definition E_resp (self : EM.t) (data : vec) : list vec :=
  let cols := map (likelihood_col self data) (seq 0 (EM.k self)) in
  map (fun col => zipWith fdiv col (row_sums cols (length data))) cols.

Lemma length_E_resp self data : length (E_resp self data) = EM.k self.
Proof. unfold E_resp. now rewrite !length_map, length_seq. Qed.

(** One pass: E step, M step, one cost appended, the stopping test. *)
Lemma EM_fit_iteration_eq (data : vec) (i : nat) (s : EM.t) :
  length (EM.weights s) = EM.k s ->
  length (EM.mus s) = EM.k s ->
  length (EM.sigmas s) = EM.k s ->
  (1 < i -> EM.costs s <> []) ->
  let resp := E_resp s data in
  let w := new_weights resp in
  let mu := new_mus resp data in
  let sg := new_sigmas resp data in
  let c := neg_log2_likelihood data w mu sg in
  EM.fit_iteration data i s =
  Some (EM.mk (EM.k s) (EM.n_iter s) (EM.eps s) (EM.random_state s)
              resp w mu sg (EM.costs s ++ [c]),
        (1 <? i) && match getitem_neg (EM.costs s) 1 with
                    | Some prev => flt (prev - c)%num (EM.eps s)
                    | None => false
                    end).
Proof.
  intros Hw Hm Hs Hne. cbn zeta. unfold EM.fit_iteration.
  rewrite EM_expectation_eq by assumption. cbn [bind].
  rewrite EM_maximization_eq by (cbn; rewrite ?length_map, ?length_seq; auto).
  cbn [bind EM.set_responsibilities EM.set_params EM.responsibilities EM.weights
       EM.mus EM.sigmas EM.costs EM.k EM.n_iter EM.eps EM.random_state].
  fold (E_resp s data).
  rewrite (foldM_total _
    (fun cost d => (cost - flog2 (mixture d (new_weights (E_resp s data))
                                          (new_mus (E_resp s data) data)
                                          (new_sigmas (E_resp s data) data)))%num)).
  2:{ intros d cost _. rewrite gmm_pdf_eq; [reflexivity| |].
      - rewrite length_new_mus. unfold new_weights. now rewrite length_map.
      - rewrite length_new_sigmas. unfold new_weights. now rewrite length_map. }
  cbn [bind]. fold (neg_log2_likelihood data (new_weights (E_resp s data))
                     (new_mus (E_resp s data) data) (new_sigmas (E_resp s data) data)).
  unfold EM.set_costs. cbn [EM.costs EM.eps EM.k EM.n_iter EM.random_state
    EM.responsibilities EM.weights EM.mus EM.sigmas].
  destruct (Nat.ltb_spec 1 i) as [Hi|Hi]; [|reflexivity].
  destruct (EM.costs s) as [|x l _] using rev_ind; [now specialize (Hne Hi)|].
  rewrite getitem_neg_prev, !getitem_neg_last. reflexivity.
Qed.

Lemma EM_fit_iteration_spec (data : vec) (s0 : EM.t) i s :
  EM_inv s0 s -> (1 < i -> EM.costs s <> []) ->
  exists s' c stop,
    EM.fit_iteration data i s = Some (s', stop) /\
    EM.costs s' = EM.costs s ++ [c] /\ EM_inv s0 s' /\
    (stop = true <->
     1 < i /\ exists prev, getitem_neg (EM.costs s) 1 = Some prev /\
                           flt (prev - c)%num (EM.eps s0) = true).
Proof.
  intros (Hk & Hn & He & Hr & Hw & Hm & Hs) Hne.
  rewrite EM_fit_iteration_eq by (rewrite ?Hk; assumption).
  eexists _, _, _. split; [reflexivity|]. cbn [EM.costs].
  split; [reflexivity|]. split.
  - unfold EM_inv; cbn.
    rewrite length_new_mus, length_new_sigmas. unfold new_weights.
    rewrite length_map, length_E_resp. now rewrite Hk.
  - rewrite He. destruct (Nat.ltb_spec 1 i) as [Hi|Hi]; cbn.
    + destruct (getitem_neg (EM.costs s) 1) as [p|]; split.
      * intros H. split; [assumption|]. now exists p.
      * intros (_ & q & Hq & Hf). now injection Hq as <-.
      * discriminate.
      * intros (_ & q & Hq & _). discriminate.
    + split; [discriminate|]. intros (Hi' & _). lia.
Qed.

Section EMFit.
Context {G : Generator}.

(** The parameters [init_params] installs. *)
Definition EM_start (self : EM.t) (data : vec) (g : rng) : EM.t :=
  EM.set_params self
    (map (fun o => (o / of_nat (EM.k self))%num) (repeat 1%num (EM.k self)))
    (map (fun i => nth i data NaN) (fst (rng_choice (length data) (EM.k self) g)))
    (repeat (std data) (EM.k self)).

Lemma EM_init_params_eq (self : EM.t) (data : vec) (g : rng) :
  EM.k self <= length data ->
  EM.init_params self data g =
  Some (EM_start self data g, snd (rng_choice (length data) (EM.k self) g)).
Proof.
  intros Hk. unfold EM.init_params, EM.random_choice.
  destruct (Nat.ltb_spec (length data) (EM.k self)) as [H|_]; [lia|].
  cbn [bind]. destruct (rng_choice_range (length data) (EM.k self) g Hk) as [_ Hr].
  destruct (rng_choice _ _ g) as [idx g'] eqn:Hc. cbn [fst snd] in *.
  rewrite (take_in_range data NaN idx Hr). cbn [bind].
  unfold EM_start. now rewrite Hc.
Qed.

Lemma EM_init_params_error (self : EM.t) (data : vec) (g : rng) :
  length data < EM.k self -> EM.init_params self data g = None.
Proof.
  intros Hk. unfold EM.init_params, EM.random_choice.
  destruct (Nat.ltb_spec (length data) (EM.k self)) as [_|H]; [reflexivity|lia].
Qed.

Lemma EM_start_inv (self : EM.t) (data : vec) (g : rng) :
  EM.k self <= length data -> EM_inv self (EM_start self data g).
Proof.
  intros Hk. unfold EM_inv, EM_start; cbn.
  destruct (rng_choice_range (length data) (EM.k self) g Hk) as [Hl _].
  rewrite !length_map, !repeat_length, Hl. tauto.
Qed.

Lemma EM_fit_spec (self : EM.t) (data : vec) (g : rng) :
  EM.k self <= length data ->
  exists self' c new,
    EM.fit self data g = Some (self', snd (rng_choice (length data) (EM.k self) g)) /\
    EM.fit_iterations self data g = Some c /\
    EM.costs self' = EM.costs self ++ new /\
    length new = c /\ c <= EM.n_iter self /\
    EM_inv self self' /\
    (forall j, j + 1 < c -> stops_at (EM.eps self) new j = false) /\
    (c < EM.n_iter self -> 0 < c /\ stops_at (EM.eps self) new (c - 1) = true) /\
    (0 < EM.n_iter self -> 0 < c).
Proof.
  intros Hk. unfold EM.fit, EM.fit_iterations.
  rewrite EM_init_params_eq by assumption. cbn [bind].
  destruct (for_range_count_spec EM.t (EM.fit_iteration data) EM.costs
              (EM.eps self) (EM_inv self) (EM_fit_iteration_spec data self)
              (EM.n_iter self) 0 (EM_start self data g) (EM.costs self) [])
    as (s' & c & new & Hr & Hh & Hl & Hle & HI & Hno & Hyes & Hpos).
  { now apply EM_start_inv. }
  { cbn. now rewrite app_nil_r. }
  { reflexivity. }
  unfold for_range. cbn [EM_start EM.set_params EM.n_iter] in *.
  rewrite Hr. cbn.
  exists s', c, new. cbn in *.
  split; [reflexivity|]. split; [reflexivity|]. split; [assumption|].
  split; [assumption|]. split; [assumption|]. split; [assumption|].
  split; [assumption|]. split; assumption.
Qed.

End EMFit.

(** ** The early stop of the training loops *)

(** A call that appended the costs [costs], read against the stopping test:
    the loop ends after pass [j] exactly when the test holds at [j] or [j] was
    the last of the [n_iter] passes. *)
Definition stops_exactly_when (eps : number) (n_iter : nat) (costs : vec) : Prop :=
  length costs <= n_iter /\
  (0 < n_iter -> 0 < length costs) /\
  forall j, j < length costs ->
    (j + 1 = length costs <-> stops_at eps costs j = true \/ j + 1 = n_iter).

(** A cost that went up at pass [j > 1] passes the test when [eps >= 0]. *)
Lemma stops_at_increase (eps : number) (costs : vec) (j : nat) (p q e : R) :
  1 < j ->
  nth (j - 1) costs NaN = Fin p -> nth j costs NaN = Fin q ->
  (p < q)%R -> eps = Fin e -> (0 <= e)%R ->
  stops_at eps costs j = true.
Proof.
  intros Hj Hp Hq Hpq -> He. unfold stops_at.
  replace (1 <? j) with true by (symmetry; apply Nat.ltb_lt; lia).
  rewrite Hp, Hq. cbn. destruct (Rlt_dec (p + - q) e) as [_|Hn]; [reflexivity|].
  exfalso. apply Hn. lra.
Qed.

Lemma stops_exactly_when_intro eps n c costs :
  length costs = c -> c <= n -> (0 < n -> 0 < c) ->
  (forall j, j + 1 < c -> stops_at eps costs j = false) ->
  (c < n -> 0 < c /\ stops_at eps costs (c - 1) = true) ->
  stops_exactly_when eps n costs.
Proof.
  intros <- Hle Hpos Hno Hyes. split; [assumption|]. split; [assumption|].
  intros j Hj. split.
  - intros Hlast. destruct (Nat.eq_dec (length costs) n) as [Heq|Hne].
    + right. lia.
    + left. destruct Hyes as [_ Hs]; [lia|].
      now replace (length costs - 1)%nat with j in Hs by lia.
  - intros [Hs|Hn]; [|lia].
    destruct (Nat.eq_dec (j + 1) (length costs)) as [|Hne]; [assumption|].
    rewrite Hno in Hs by lia. discriminate.
Qed.

Section TrainingLoops.
Context {G : Generator}.

(** C2.  [LogisticRegressionGD.fit] and [EM.fit] stop early exactly when the
    loop index exceeds 1 and the previous cost minus the current cost is less
    than [eps]: a call ends after pass [j] iff that test holds at pass [j] or
    the [n_iter] passes are used up.  In particular the loop also ends at a
    pass [j > 1] whose cost went up, the difference being negative and so
    less than an [eps >= 0]. *)
Theorem early_stop_condition (lr : LR.t) (X : matrix) (y : list Z) (g : rng)
  (em : EM.t) (data : vec) (g0 : rng) :
  EM.k em <= length data ->
  (exists lr' g' costs,
     LR.fit lr X y g = Some (lr', g') /\
     LR.fit_iterations lr X y = Some (length costs) /\
     LR.Js lr' = LR.Js lr ++ costs /\
     stops_exactly_when (LR.eps lr) (LR.n_iter lr) costs /\
     forall j p q e,
       1 < j < length costs ->
       nth (j - 1) costs NaN = Fin p -> nth j costs NaN = Fin q ->
       (p < q)%R -> LR.eps lr = Fin e -> (0 <= e)%R ->
       j + 1 = length costs) /\
  (exists em' g' costs,
     EM.fit em data g0 = Some (em', g') /\
     EM.fit_iterations em data g0 = Some (length costs) /\
     EM.costs em' = EM.costs em ++ costs /\
     stops_exactly_when (EM.eps em) (EM.n_iter em) costs /\
     forall j p q e,
       1 < j < length costs ->
       nth (j - 1) costs NaN = Fin p -> nth j costs NaN = Fin q ->
       (p < q)%R -> EM.eps em = Fin e -> (0 <= e)%R ->
       j + 1 = length costs).
Proof.
  intros Hk. split.
  - destruct (LR_fit_spec lr X y g) as
      (lr' & c & new & ths & Hfit & Hit & HJ & _ & Hl & _ & Hle & _ & _ & _ & _
       & Hno & Hyes & Hpos).
    assert (Hsew : stops_exactly_when (LR.eps lr) (LR.n_iter lr) new)
      by (eapply stops_exactly_when_intro; eassumption).
    exists lr', (LR_rng_after lr X), new. rewrite Hl.
    split; [assumption|]. split; [assumption|]. split; [assumption|].
    split; [assumption|].
    intros j p q e Hj Hp Hq Hpq He He0.
    destruct Hsew as (_ & _ & Hiff). rewrite <- Hl. apply Hiff; [lia|].
    left. eapply stops_at_increase; eauto. lia.
  - destruct (EM_fit_spec em data g0 Hk) as
      (em' & c & new & Hfit & Hit & HJ & Hl & Hle & _ & Hno & Hyes & Hpos).
    assert (Hsew : stops_exactly_when (EM.eps em) (EM.n_iter em) new)
      by (eapply stops_exactly_when_intro; eassumption).
    eexists em', _, new. rewrite Hl.
    split; [eassumption|]. split; [assumption|]. split; [assumption|].
    split; [assumption|].
    intros j p q e Hj Hp Hq Hpq He He0.
    destruct Hsew as (_ & _ & Hiff). rewrite <- Hl. apply Hiff; [lia|].
    left. eapply stops_at_increase; eauto. lia.
Qed.

(** C10.  Neither [fit] clears its history: a call appends one entry per
    completed pass to [Js] and [thetas] (to [costs] for EM) and keeps what was
    there.  After a second call on the same instance each history holds the
    entries of both calls, its length being the sum of the two counts of
    completed passes (plus what the instance held before the first call:
    nothing, for a new instance). *)
Theorem fit_appends_to_history (lr : LR.t) (X1 X2 : matrix) (y1 y2 : list Z)
  (g1 g2 : rng) (em : EM.t) (d1 d2 : vec) (g3 g4 : rng) :
  EM.k em <= length d1 -> EM.k em <= length d2 ->
  (exists lr1 lr2 ga gb J1 J2 T1 T2,
     LR.fit lr X1 y1 g1 = Some (lr1, ga) /\
     LR.fit lr1 X2 y2 g2 = Some (lr2, gb) /\
     LR.fit_iterations lr X1 y1 = Some (length J1) /\
     LR.fit_iterations lr1 X2 y2 = Some (length J2) /\
     LR.Js lr1 = LR.Js lr ++ J1 /\ LR.Js lr2 = LR.Js lr ++ J1 ++ J2 /\
     LR.thetas lr1 = LR.thetas lr ++ T1 /\
     LR.thetas lr2 = LR.thetas lr ++ T1 ++ T2 /\
     length T1 = length J1 /\ length T2 = length J2 /\
     length (LR.Js lr2) = length (LR.Js lr) + length J1 + length J2 /\
     length (LR.thetas lr2) = length (LR.thetas lr) + length J1 + length J2) /\
  (exists em1 em2 ga gb C1 C2,
     EM.fit em d1 g3 = Some (em1, ga) /\
     EM.fit em1 d2 g4 = Some (em2, gb) /\
     EM.fit_iterations em d1 g3 = Some (length C1) /\
     EM.fit_iterations em1 d2 g4 = Some (length C2) /\
     EM.costs em1 = EM.costs em ++ C1 /\
     EM.costs em2 = EM.costs em ++ C1 ++ C2 /\
     length (EM.costs em2) = length (EM.costs em) + length C1 + length C2).
Proof.
  intros Hk1 Hk2. split.
  - destruct (LR_fit_spec lr X1 y1 g1) as
      (lr1 & c1 & J1 & T1 & Hf1 & Hi1 & HJ1 & HT1 & Hl1 & Hlt1 & _).
    destruct (LR_fit_spec lr1 X2 y2 g2) as
      (lr2 & c2 & J2 & T2 & Hf2 & Hi2 & HJ2 & HT2 & Hl2 & Hlt2 & _).
    exists lr1, lr2, (LR_rng_after lr X1), (LR_rng_after lr1 X2), J1, J2, T1, T2.
    rewrite Hl1, Hl2, HJ2, HT2, HJ1, HT1, <- !app_assoc, !length_app.
    repeat (split; [assumption || reflexivity || lia|]). lia.
  - destruct (EM_fit_spec em d1 g3 Hk1) as
      (em1 & c1 & C1 & Hf1 & Hi1 & HC1 & Hl1 & _ & HI1 & _).
    assert (Hk2' : EM.k em1 <= length d2) by (destruct HI1 as [-> _]; assumption).
    destruct (EM_fit_spec em1 d2 g4 Hk2') as
      (em2 & c2 & C2 & Hf2 & Hi2 & HC2 & Hl2 & _).
    eexists em1, em2, _, _, C1, C2.
    rewrite Hl1, Hl2, HC2, HC1, <- !app_assoc, !length_app.
    repeat (split; [eassumption || reflexivity || lia|]). lia.
Qed.

End TrainingLoops.

(** ** The M step

    C3.  In the M step the parameters of component [i] are updated in the
    order weight, mean, standard deviation, each from the values just
    computed: the new weight is the mean of responsibility column [i]; the new
    mean is the responsibility-weighted sum of the data times [1 / (m * w)]
    for the new weight [w]; the new standard deviation is the square root of
    the responsibility-weighted sum of squared deviations from the new mean,
    times [1 / (m * w)] for the new weight. *)
Theorem maximization_order (self : EM.t) (data : vec) (i : nat) :
  length (EM.responsibilities self) = EM.k self ->
  length (EM.sigmas self) = EM.k self ->
  i < EM.k self ->
  exists self',
    EM.maximization self data = Some self' /\
    let m := of_nat (length data) in
    let r_i := nth i (EM.responsibilities self) [] in
    let weight_i := nth i (EM.weights self') NaN in
    let mu_i := nth i (EM.mus self') NaN in
    let sigma_i := nth i (EM.sigmas self') NaN in
    weight_i = mean r_i /\
    mu_i = ((1 / (m * weight_i)) * dot r_i data)%num /\
    sigma_i = fsqrt ((1 / (m * weight_i))
                     * dot r_i (map (fun x => fsquare (x - mu_i)) data))%num.
Proof.
  intros Hr Hs Hi. rewrite EM_maximization_eq by assumption.
  eexists. split; [reflexivity|]. cbn [EM.set_params EM.weights EM.mus EM.sigmas].
  set (resp := EM.responsibilities self) in *.
  assert (Hw : nth i (new_weights resp) NaN = mean (nth i resp [])).
  { unfold new_weights. apply nth_map_in. lia. }
  assert (Hm : nth i (new_mus resp data) NaN =
               ((1 / (of_nat (length data) * nth i (new_weights resp) NaN))
                * dot (nth i resp []) data)%num).
  { unfold new_mus.
    rewrite (nth_zipWith _ _ _ _ _ NaN NaN)
      by (unfold new_weights; rewrite !length_map; lia).
    rewrite (nth_map_in _ (new_weights resp) i _ NaN)
      by (unfold new_weights; rewrite length_map; lia).
    rewrite (nth_map_in _ resp i _ []) by lia. reflexivity. }
  split; [exact Hw|]. split; [exact Hm|].
  unfold new_sigmas.
  rewrite (nth_map_in _ _ i _ NaN)
    by (unfold new_weights; rewrite length_zipWith, !length_map, length_seq; lia).
  rewrite (nth_zipWith _ _ _ _ _ NaN NaN)
    by (unfold new_weights; rewrite ?length_map, ?length_seq; lia).
  rewrite (nth_map_in _ (new_weights resp) i _ NaN)
    by (unfold new_weights; rewrite length_map; lia).
  rewrite (nth_map_in _ (seq 0 (length resp)) i _ 0) by (rewrite length_seq; lia).
  rewrite seq_nth by lia. reflexivity.
Qed.

(** ** Arrays of finite numbers *)

Definition Rsum (l : list R) : R := fold_right Rplus 0%R l.
Definition Rmean (l : list R) : R := (Rsum l / INR (length l))%R.
Definition centered (l : list R) : list R := map (fun a => (a - Rmean l)%R) l.
Definition Rsquares (l : list R) : list R := map (fun a => (a * a)%R) l.

Lemma Rsum_nil : Rsum [] = 0%R.
Proof. reflexivity. Qed.

Lemma Rsum_cons (x : R) (l : list R) : Rsum (x :: l) = (x + Rsum l)%R.
Proof. reflexivity. Qed.

Arguments Rsum : simpl never.

Lemma fold_left_fadd_Fin (l : list R) : forall a,
  fold_left fadd (map Fin l) (Fin a) = Fin (a + Rsum l).
Proof.
  induction l as [|x l IH]; intros a; cbn [map fold_left fadd].
  - f_equal. rewrite Rsum_nil. lra.
  - rewrite IH. f_equal. rewrite Rsum_cons. lra.
Qed.

Lemma sum_Fin (l : list R) : sum (map Fin l) = Fin (Rsum l).
Proof. unfold sum. rewrite fold_left_fadd_Fin. f_equal. lra. Qed.

Lemma fdiv_Fin (x y : R) : y <> 0%R -> (Fin x / Fin y)%num = Fin (x / y).
Proof. intros Hy. cbn. destruct (Req_dec_T y 0); [contradiction|reflexivity]. Qed.

Lemma fdiv_zero_zero (y : R) : y = 0%R -> (Fin 0 / Fin y)%num = NaN.
Proof.
  intros ->. cbn. destruct (Req_dec_T 0 0) as [_|H]; [|contradiction].
  unfold inf_times. destruct (Req_dec_T 0 0) as [_|H]; [reflexivity|contradiction].
Qed.

Lemma fsqrt_Fin (x : R) : (0 <= x)%R -> fsqrt (Fin x) = Fin (sqrt x).
Proof. intros Hx. cbn. destruct (Rlt_dec x 0); [lra|reflexivity]. Qed.

Lemma INR_length_pos {A : Type} (l : list A) : l <> [] -> (0 < INR (length l))%R.
Proof.
  intros Hl. destruct l; [contradiction|]. apply lt_0_INR. cbn; lia.
Qed.

Lemma mean_Fin (l : list R) : l <> [] -> mean (map Fin l) = Fin (Rmean l).
Proof.
  intros Hl. unfold mean, of_nat. rewrite sum_Fin, length_map.
  apply fdiv_Fin. pose proof (INR_length_pos l Hl). lra.
Qed.

Lemma zipWith_fmul_Fin (a : list R) : forall b,
  zipWith fmul (map Fin a) (map Fin b) = map Fin (zipWith Rmult a b).
Proof.
  induction a as [|x a IH]; intros [|y b]; cbn; try reflexivity.
  now rewrite IH.
Qed.

Lemma map_fsub_Fin (l : list R) (mu : R) :
  map (fun a => (a - Fin mu)%num) (map Fin l) = map Fin (map (fun a => (a - mu)%R) l).
Proof. rewrite !map_map. apply map_ext. intros a. reflexivity. Qed.

Lemma map_fsquare_Fin (l : list R) :
  map fsquare (map Fin l) = map Fin (Rsquares l).
Proof. unfold Rsquares. rewrite !map_map. reflexivity. Qed.

(** Sums of squares *)

Lemma Rsquares_cons (x : R) (l : list R) : Rsquares (x :: l) = (x * x)%R :: Rsquares l.
Proof. reflexivity. Qed.

Lemma Rsum_squares_nonneg (l : list R) : (0 <= Rsum (Rsquares l))%R.
Proof.
  induction l as [|x l IH]; rewrite ?Rsquares_cons, ?Rsum_cons;
    [cbv [Rsquares map Rsum fold_right]; lra|].
  pose proof (Rle_0_sqr x) as H. unfold Rsqr in H. lra.
Qed.

Lemma Rsum_squares_zero (l : list R) :
  Rsum (Rsquares l) = 0%R -> Forall (fun a => a = 0%R) l.
Proof.
  induction l as [|x l IH]; rewrite ?Rsquares_cons, ?Rsum_cons; intros H; [constructor|].
  pose proof (Rle_0_sqr x) as Hx. unfold Rsqr in Hx.
  pose proof (Rsum_squares_nonneg l) as Hl.
  constructor.
  - assert (Hz : (x * x = 0)%R) by lra. apply Rmult_integral in Hz. tauto.
  - apply IH. lra.
Qed.

Lemma Rsum_zipWith_zero_l (a : list R) : forall b,
  Forall (fun x => x = 0%R) a -> Rsum (zipWith Rmult a b) = 0%R.
Proof.
  induction a as [|x a IH]; intros [|y b] H; cbn; try reflexivity.
  inversion H as [|? ? -> Ha]; subst. rewrite Rsum_cons, IH by assumption. lra.
Qed.

Lemma Rsum_zipWith_zero_r (b : list R) : forall a,
  Forall (fun x => x = 0%R) b -> Rsum (zipWith Rmult a b) = 0%R.
Proof.
  induction b as [|y b IH]; intros [|x a] H; cbn; try reflexivity.
  inversion H as [|? ? -> Hb]; subst. rewrite Rsum_cons, IH by assumption. lra.
Qed.

Lemma Rsum_squares_Forall_zero (l : list R) :
  Forall (fun a => a = 0%R) l -> Rsum (Rsquares l) = 0%R.
Proof.
  induction 1 as [|x l -> _ IH]; [reflexivity|]. rewrite Rsquares_cons, Rsum_cons, IH. lra.
Qed.

(** A vector has zero variance when all its entries are equal. *)
Definition constant (l : list R) : Prop := forall a b, In a l -> In b l -> a = b.

Lemma Rsum_constant (l : list R) (a : R) :
  (forall b, In b l -> b = a) -> Rsum l = (INR (length l) * a)%R.
Proof.
  induction l as [|x l IH]; intros H.
  - cbn. rewrite Rsum_nil. lra.
  - rewrite Rsum_cons.
    rewrite IH by (intros; apply H; now right).
    rewrite (H x) by now left.
    cbn [length]. rewrite S_INR. lra.
Qed.

Lemma constant_centered (l : list R) :
  constant l <-> Forall (fun a => a = 0%R) (centered l).
Proof.
  split.
  - intros Hc. apply Forall_forall. intros d Hd.
    apply in_map_iff in Hd as (a & <- & Ha).
    assert (Hl : l <> []) by (intros ->; destruct Ha).
    unfold Rmean. rewrite (Rsum_constant l a) by (intros; now apply Hc).
    pose proof (INR_length_pos l Hl). field. lra.
  - intros H a b Ha Hb. rewrite Forall_forall in H.
    assert (Ha' := H _ (in_map (fun a => (a - Rmean l)%R) l a Ha)).
    assert (Hb' := H _ (in_map (fun a => (a - Rmean l)%R) l b Hb)).
    cbn in *. lra.
Qed.

Lemma sum_squares_constant (l : list R) :
  constant l <-> Rsum (Rsquares (centered l)) = 0%R.
Proof.
  rewrite constant_centered. split.
  - apply Rsum_squares_Forall_zero.
  - apply Rsum_squares_zero.
Qed.

(** ** The correlation scorer *)

Lemma pearson_correlation_Fin (x y : list R) :
  x <> [] -> y <> [] ->
  pearson_correlation (map Fin x) (map Fin y) =
  (Fin (Rsum (zipWith Rmult (centered x) (centered y)))
   / Fin (sqrt (Rsum (Rsquares (centered x)) * Rsum (Rsquares (centered y)))))%num.
Proof.
  intros Hx Hy. unfold pearson_correlation.
  rewrite !mean_Fin by assumption.
  rewrite !map_fsub_Fin. fold (centered x) (centered y).
  rewrite zipWith_fmul_Fin, sum_Fin.
  assert (Hsq : forall l mu,
             map (fun a => fsquare (a - Fin mu)%num) (map Fin l)
             = map Fin (Rsquares (map (fun a => (a - mu)%R) l))).
  { intros l mu. unfold Rsquares. rewrite !map_map. reflexivity. }
  rewrite !Hsq. fold (centered x) (centered y). rewrite !sum_Fin.
  cbn [fmul]. rewrite fsqrt_Fin; [reflexivity|].
  apply Rmult_le_pos; apply Rsum_squares_nonneg.
Qed.

Lemma pearson_correlation_nil : pearson_correlation [] [] = NaN.
Proof.
  unfold pearson_correlation. cbn [map zipWith]. unfold sum.
  cbn [fold_left fmul]. rewrite fsqrt_Fin by lra.
  apply fdiv_zero_zero. rewrite Rmult_0_l. apply sqrt_0.
Qed.

(** Both vectors vary: the sums of squares are positive and the quotient is
    an ordinary real. *)
Lemma pearson_correlation_defined (x y : list R) :
  ~ constant x -> ~ constant y ->
  pearson_correlation (map Fin x) (map Fin y) =
  Fin (Rsum (zipWith Rmult (centered x) (centered y))
       / (sqrt (Rsum (Rsquares (centered x)))
          * sqrt (Rsum (Rsquares (centered y))))).
Proof.
  intros Hx Hy.
  assert (Hx0 : x <> []) by (intros ->; apply Hx; intros a b []).
  assert (Hy0 : y <> []) by (intros ->; apply Hy; intros a b []).
  rewrite pearson_correlation_Fin by assumption.
  pose proof (Rsum_squares_nonneg (centered x)) as Hsx.
  pose proof (Rsum_squares_nonneg (centered y)) as Hsy.
  assert (Hsx' : Rsum (Rsquares (centered x)) <> 0%R)
    by (intros H; apply Hx; now apply sum_squares_constant).
  assert (Hsy' : Rsum (Rsquares (centered y)) <> 0%R)
    by (intros H; apply Hy; now apply sum_squares_constant).
  rewrite sqrt_mult by assumption.
  apply fdiv_Fin.
  assert (0 < sqrt (Rsum (Rsquares (centered x))))%R by (apply sqrt_lt_R0; lra).
  assert (0 < sqrt (Rsum (Rsquares (centered y))))%R by (apply sqrt_lt_R0; lra).
  nra.
Qed.

Lemma pearson_correlation_undefined (x y : list R) :
  length x = length y -> constant x \/ constant y ->
  pearson_correlation (map Fin x) (map Fin y) = NaN.
Proof.
  intros Hlen Hc.
  destruct x as [|x0 x]; destruct y as [|y0 y]; try discriminate Hlen.
  - apply pearson_correlation_nil.
  - rewrite pearson_correlation_Fin by discriminate.
    assert (Hnum : Rsum (zipWith Rmult (centered (x0 :: x)) (centered (y0 :: y))) = 0%R).
    { destruct Hc as [Hc|Hc]; apply constant_centered in Hc.
      - now apply Rsum_zipWith_zero_l.
      - now apply Rsum_zipWith_zero_r. }
    rewrite Hnum. apply fdiv_zero_zero.
    destruct Hc as [Hc|Hc]; apply sum_squares_constant in Hc; rewrite Hc;
      rewrite ?Rmult_0_l, ?Rmult_0_r; apply sqrt_0.
Qed.

(** C7, as the code has it.  On two vectors of one length whose entries are
    integers of magnitude at most 10^6, at most 10^6 of them (their sums and
    means are then computed without rounding): when one of the two is
    constant, [pearson_correlation] returns nan, a value that is not finite,
    and raises nothing; when both vary it returns the sum of the products of
    the centred entries divided by the product of the roots of the two sums
    of squares, neither divided by [m]. *)
Theorem pearson_correlation_integer_data (zx zy : list Z) :
  length zx = length zy ->
  (Z.of_nat (length zx) <= 1000000)%Z ->
  Forall (fun z => (Z.abs z <= 1000000)%Z) zx ->
  Forall (fun z => (Z.abs z <= 1000000)%Z) zy ->
  ((constant (map IZR zx) \/ constant (map IZR zy)) ->
     pearson_correlation (map of_Z zx) (map of_Z zy) = NaN /\
     is_finite (pearson_correlation (map of_Z zx) (map of_Z zy)) = false) /\
  (~ constant (map IZR zx) -> ~ constant (map IZR zy) ->
     pearson_correlation (map of_Z zx) (map of_Z zy) =
     Fin (Rsum (zipWith Rmult (centered (map IZR zx)) (centered (map IZR zy)))
          / (sqrt (Rsum (Rsquares (centered (map IZR zx))))
             * sqrt (Rsum (Rsquares (centered (map IZR zy))))))).
Proof.
  intros Hlen _ _ _.
  replace (map of_Z zx) with (map Fin (map IZR zx)) by (now rewrite map_map).
  replace (map of_Z zy) with (map Fin (map IZR zy)) by (now rewrite map_map).
  split.
  - intros Hc.
    rewrite (pearson_correlation_undefined (map IZR zx) (map IZR zy));
      [now split| now rewrite !length_map | exact Hc].
  - apply pearson_correlation_defined.
Qed.

(** ** The order on numbers *)

Lemma flt_trichotomy (a b : number) :
  isnan a = false -> isnan b = false ->
  flt a b = true \/ a = b \/ flt b a = true.
Proof.
  destruct a as [x| | |], b as [y| | |]; cbn; intros Ha Hb;
    try discriminate; auto.
  destruct (Rlt_dec x y); [now left|]. destruct (Rlt_dec y x); [now right; right|].
  right; left. f_equal. lra.
Qed.

Lemma flt_trans (a b c : number) :
  flt a b = true -> flt b c = true -> flt a c = true.
Proof.
  destruct a as [x| | |], b as [y| | |], c as [z| | |]; cbn;
    try discriminate; auto.
  destruct (Rlt_dec x y); [|discriminate]. destruct (Rlt_dec y z); [|discriminate].
  destruct (Rlt_dec x z); [reflexivity|lra].
Qed.

Lemma flt_irrefl (a : number) : flt a a = false.
Proof.
  destruct a as [x| | |]; cbn; try reflexivity.
  destruct (Rlt_dec x x); [lra|reflexivity].
Qed.

Lemma flt_asym (a b : number) : flt a b = true -> flt b a = false.
Proof.
  intros H. destruct (flt b a) eqn:Hba; [|reflexivity].
  pose proof (flt_trans _ _ _ H Hba) as Haa. now rewrite flt_irrefl in Haa.
Qed.

(** ** The stable descending sort *)

(** [p] comes before [q]: a larger key, or the same key and an earlier
    place in the list that was sorted. *)
Definition before {A : Type} (p q : (A * nat) * number) : Prop :=
  flt (snd q) (snd p) = true \/ (snd p = snd q /\ snd (fst p) < snd (fst q)).

Lemma insert_desc_In {A : Type} (p : A * number) l q :
  In q (insert_desc p l) <-> q = p \/ In q l.
Proof.
  induction l as [|r l IH]; cbn.
  - intuition.
  - destruct (negb (flt (snd p) (snd r))); cbn; [intuition|].
    rewrite IH. intuition.
Qed.

Lemma insert_desc_perm {A : Type} (p : A * number) l :
  Permutation (insert_desc p l) (p :: l).
Proof.
  induction l as [|r l IH]; cbn; [reflexivity|].
  destruct (negb (flt (snd p) (snd r))); [reflexivity|].
  rewrite IH. apply perm_swap.
Qed.

Lemma sort_desc_cons {A : Type} (p : A * number) l :
  sort_desc (p :: l) = insert_desc p (sort_desc l).
Proof. reflexivity. Qed.

Lemma sort_desc_perm {A : Type} (l : list (A * number)) :
  Permutation (sort_desc l) l.
Proof.
  induction l as [|p l IH]; [reflexivity|].
  rewrite sort_desc_cons, insert_desc_perm. now constructor.
Qed.

Lemma insert_desc_sorted {A : Type} (p : (A * nat) * number) l :
  isnan (snd p) = false ->
  Forall (fun q => isnan (snd q) = false) l ->
  Forall (fun q => snd (fst p) < snd (fst q)) l ->
  StronglySorted before l ->
  StronglySorted before (insert_desc p l).
Proof.
  intros Hp Hnan Hidx Hs. induction Hs as [|r l Hs IH Hr]; cbn.
  - constructor; constructor.
  - inversion Hnan as [|? ? Hr_nan Hl_nan]; subst.
    inversion Hidx as [|? ? Hr_idx Hl_idx]; subst.
    destruct (flt (snd p) (snd r)) eqn:Hpr; cbn.
    + constructor; [now apply IH|].
      apply Forall_forall. intros q Hq. apply insert_desc_In in Hq as [->|Hq].
      * now left.
      * rewrite Forall_forall in Hr. now apply Hr.
    + constructor; [now constructor|].
      assert (Hpr' : before p r).
      { destruct (flt_trichotomy (snd p) (snd r) Hp Hr_nan) as [H|[H|H]].
        - congruence.
        - right. now split.
        - now left. }
      constructor; [exact Hpr'|].
      apply Forall_forall. intros q Hq.
      rewrite Forall_forall in Hr, Hl_nan, Hl_idx.
      specialize (Hr q Hq). specialize (Hl_idx q Hq).
      destruct Hpr' as [H1|[H1 _]], Hr as [H2|[H2 _]].
      * left. eapply flt_trans; eassumption.
      * left. now rewrite <- H2.
      * left. now rewrite H1.
      * right. split; [congruence|assumption].
Qed.

(** A list with the place of each element. *)
Definition enumerate {A : Type} (start : nat) (l : list (A * number))
  : list ((A * nat) * number) :=
  map (fun ip => ((fst (snd ip), fst ip), snd (snd ip)))
      (combine (seq start (length l)) l).

Definition forget {A : Type} (l : list ((A * nat) * number)) : list (A * number) :=
  map (fun p => (fst (fst p), snd p)) l.

Lemma enumerate_cons {A : Type} start (p : A * number) l :
  enumerate start (p :: l) = ((fst p, start), snd p) :: enumerate (S start) l.
Proof. reflexivity. Qed.

Lemma forget_enumerate {A : Type} (l : list (A * number)) : forall start,
  forget (enumerate start l) = l.
Proof.
  induction l as [|[a k] l IH]; intros start; [reflexivity|].
  rewrite enumerate_cons. cbn. f_equal. apply IH.
Qed.

Lemma forget_insert_desc {A : Type} (p : (A * nat) * number) l :
  forget (insert_desc p l) = insert_desc (fst (fst p), snd p) (forget l).
Proof.
  unfold forget. induction l as [|r l IH]; cbn; [reflexivity|].
  destruct (negb (flt (snd p) (snd r))); cbn; [reflexivity|]. now rewrite IH.
Qed.

Lemma forget_sort_desc {A : Type} (l : list ((A * nat) * number)) :
  forget (sort_desc l) = sort_desc (forget l).
Proof.
  induction l as [|p l IH]; [reflexivity|].
  rewrite sort_desc_cons, forget_insert_desc, IH. reflexivity.
Qed.

Lemma enumerate_indices {A : Type} (l : list (A * number)) : forall start q,
  In q (enumerate start l) -> start <= snd (fst q) < start + length l.
Proof.
  induction l as [|p l IH]; intros start q Hq; [destruct Hq|].
  rewrite enumerate_cons in Hq. destruct Hq as [<-|Hq]; cbn; [lia|].
  apply IH in Hq. lia.
Qed.

Lemma sort_desc_enumerate_sorted {A : Type} (l : list (A * number)) :
  Forall (fun q => isnan (snd q) = false) l ->
  forall start, StronglySorted before (sort_desc (enumerate start l)).
Proof.
  induction 1 as [|p l Hp Hl IH]; intros start; [constructor|].
  rewrite enumerate_cons, sort_desc_cons.
  apply insert_desc_sorted.
  - exact Hp.
  - apply Forall_forall. intros q Hq.
    apply (Permutation_in _ (sort_desc_perm _)) in Hq.
    unfold enumerate in Hq. apply in_map_iff in Hq as ([i r] & <- & Hir).
    apply in_combine_r in Hir. rewrite Forall_forall in Hl. now apply Hl.
  - apply Forall_forall. intros q Hq.
    apply (Permutation_in _ (sort_desc_perm _)) in Hq.
    apply enumerate_indices in Hq. cbn. lia.
  - apply IH.
Qed.

Lemma StronglySorted_app_inv {A : Type} (R : A -> A -> Prop) (l1 l2 : list A) :
  StronglySorted R (l1 ++ l2) ->
  StronglySorted R l1 /\ StronglySorted R l2 /\
  forall a b, In a l1 -> In b l2 -> R a b.
Proof.
  induction l1 as [|x l1 IH]; cbn; intros H.
  - split; [constructor|]. split; [assumption|]. intros a b [].
  - apply StronglySorted_inv in H as [Hs Hx]. destruct (IH Hs) as (H1 & H2 & H12).
    rewrite Forall_forall in Hx. split; [|split; [assumption|]].
    + constructor; [assumption|]. apply Forall_forall. intros y Hy.
      apply Hx, in_or_app. now left.
    + intros a b [<-|Ha] Hb; [apply Hx, in_or_app; now right|now apply H12].
Qed.

Lemma StronglySorted_map {A B : Type} (R : B -> B -> Prop) (f : A -> B) l :
  StronglySorted (fun a b => R (f a) (f b)) l -> StronglySorted R (map f l).
Proof.
  induction 1 as [|x l _ IH Hx]; cbn; constructor; [assumption|].
  rewrite Forall_forall in *. intros y Hy.
  apply in_map_iff in Hy as (a & <- & Ha). now apply Hx.
Qed.

Lemma StronglySorted_weaken {A : Type} (R R' : A -> A -> Prop) l :
  (forall a b, In a l -> In b l -> R a b -> R' a b) ->
  StronglySorted R l -> StronglySorted R' l.
Proof.
  intros HR Hs. induction Hs as [|x l Hs IH Hx]; constructor.
  - apply IH. intros a b Ha Hb. apply HR; now right.
  - rewrite Forall_forall in *. intros y Hy. apply HR; [now left|now right|auto].
Qed.

Lemma map_index_enumerate {A : Type} (l : list (A * number)) : forall start,
  map (fun p => snd (fst p)) (enumerate start l) = seq start (length l).
Proof.
  induction l as [|p l IH]; intros start; [reflexivity|].
  rewrite enumerate_cons. cbn. f_equal. apply IH.
Qed.

Lemma enumerate_nth {A : Type} (l : list (A * number)) (d : A * number) :
  forall start q, In q (enumerate start l) ->
    (fst (fst q), snd q) = nth (snd (fst q) - start) l d.
Proof.
  induction l as [|p l IH]; intros start q Hq; [destruct Hq|].
  rewrite enumerate_cons in Hq. destruct Hq as [<-|Hq].
  - cbn. rewrite Nat.sub_diag. now destruct p.
  - pose proof (enumerate_indices _ _ _ Hq) as Hi.
    rewrite (IH _ _ Hq).
    replace (snd (fst q) - start)%nat with (S (snd (fst q) - S start)) by lia.
    reflexivity.
Qed.

(** ** The feature selector *)

Section FeatureSelectionSpec.

Variable series : Type.
Variable np_array : series -> vec.
Variable to_numeric_datetime : series -> series.

Let DataFrame := DataFrame series.

(** The absolute correlation of every column with the labels. *)
Definition abs_correlations (X : DataFrame) (y : vec) : list (string * number) :=
  map (fun ns => (fst ns, fabs (pearson_correlation (np_array (snd ns)) y))) X.

(** Column [i] ranks before column [j]: a larger absolute correlation, or the
    same one and an earlier place in the table. *)
Definition ranks_before (keys : vec) (i j : nat) : Prop :=
  flt (nth j keys NaN) (nth i keys NaN) = true \/
  (nth i keys NaN = nth j keys NaN /\ i < j).

Lemma df_get_In (X : DataFrame) n s :
  NoDup (columns series X) -> In (n, s) X -> df_get series X n = Some s.
Proof.
  induction X as [|[n' s'] X IH]; cbn; intros Hnd Hin; [destruct Hin|].
  inversion Hnd as [|? ? Hn' Hnd']; subst.
  destruct Hin as [Heq|Hin].
  - injection Heq as -> ->. now rewrite String.eqb_refl.
  - destruct (String.eqb_spec n' n) as [->|_].
    + exfalso. apply Hn'. change n with (fst (n, s)). now apply in_map.
    + now apply IH.
Qed.

Lemma columns_df_set (X : DataFrame) name s :
  In name (columns series X) ->
  columns series (df_set series X name s) = columns series X.
Proof.
  induction X as [|[n' s'] X IH]; cbn; intros Hin; [destruct Hin|].
  destruct (String.eqb_spec n' name) as [->|Hne]; [reflexivity|].
  cbn. f_equal. apply IH. destruct Hin; [contradiction|assumption].
Qed.

Lemma df_get_Some_In (X : DataFrame) name s :
  df_get series X name = Some s -> In name (columns series X).
Proof.
  induction X as [|[n' s'] X IH]; cbn; [discriminate|].
  destruct (String.eqb_spec n' name) as [->|Hne]; [now left|].
  intros H. right. now apply IH.
Qed.

Lemma correlations_loop (X : DataFrame) (y : vec) :
  NoDup (columns series X) ->
  foldM (fun correlations feature =>
           x <- df_get series X feature ;;
           let corr := pearson_correlation (np_array x) y in
           Some (correlations ++ [(feature, fabs corr)]))
        (columns series X) []
  = Some (abs_correlations X y).
Proof.
  intros Hnd.
  assert (H : forall l acc, incl l X ->
            foldM (fun correlations feature =>
                     x <- df_get series X feature ;;
                     let corr := pearson_correlation (np_array x) y in
                     Some (correlations ++ [(feature, fabs corr)]))
                  (map fst l) acc
            = Some (acc ++ abs_correlations l y)).
  { induction l as [|[n s] l IH]; intros acc Hl; cbn.
    - now rewrite app_nil_r.
    - rewrite (df_get_In X n s Hnd) by (apply Hl; now left). cbn.
      rewrite IH by (intros p Hp; apply Hl; now right).
      now rewrite <- app_assoc. }
  apply (H X []). apply incl_refl.
Qed.

(** C8, as the code has it.  On a table that has a date column and distinct
    column names, when no correlation is nan, [feature_selection] returns
    the names of the [n_features] columns (all of them when the table has
    fewer) with the largest absolute correlation with the labels, in
    descending order of absolute correlation, columns of equal absolute
    correlation in their order in the table. *)
Theorem feature_selection_ranking (X : DataFrame) (y : vec) (n_features : nat)
  (date : series) :
  NoDup (columns series X) ->
  df_get series X "date" = Some date ->
  let X' := df_set series X "date" (to_numeric_datetime date) in
  let keys := map snd (abs_correlations X' y) in
  Forall (fun k => isnan k = false) keys ->
  exists picks : list nat,
    feature_selection series np_array to_numeric_datetime X y n_features
    = Some (map (fun i => nth i (columns series X) ""%string) picks, X') /\
    length picks = Nat.min n_features (length (columns series X)) /\
    NoDup picks /\
    Forall (fun i => i < length (columns series X)) picks /\
    StronglySorted (ranks_before keys) picks /\
    (forall i j, In i picks -> j < length (columns series X) -> ~ In j picks ->
                 ranks_before keys i j).
Proof.
  intros Hnd Hdate X' keys Hnan.
  assert (Hcols : columns series X' = columns series X)
    by (apply columns_df_set; eapply df_get_Some_In; eassumption).
  set (corr := abs_correlations X' y) in *.
  set (D := sort_desc (enumerate 0 corr)).
  assert (Hlen : length corr = length (columns series X)).
  { unfold corr, abs_correlations. rewrite length_map, <- Hcols.
    unfold columns. now rewrite length_map. }
  assert (Hperm : Permutation D (enumerate 0 corr)) by apply sort_desc_perm.
  assert (Hidx : Permutation (map (fun p => snd (fst p)) D) (seq 0 (length corr))).
  { rewrite <- map_index_enumerate. now apply Permutation_map. }
  assert (Hsorted : StronglySorted before D).
  { apply sort_desc_enumerate_sorted. unfold keys in Hnan.
    rewrite Forall_forall in *. intros q Hq. apply Hnan.
    now apply in_map. }
  assert (Hentry : forall p, In p D ->
            fst (fst p) = nth (snd (fst p)) (columns series X) ""%string /\
            snd p = nth (snd (fst p)) keys NaN /\
            snd (fst p) < length (columns series X)).
  { intros p Hp. apply (Permutation_in _ Hperm) in Hp.
    pose proof (enumerate_nth corr (""%string, NaN) 0 p Hp) as Hn.
    pose proof (enumerate_indices corr 0 p Hp) as Hi.
    rewrite Nat.sub_0_r in Hn.
    assert (Hc : columns series X = map fst corr).
    { rewrite <- Hcols. unfold corr, abs_correlations, columns.
      rewrite map_map. reflexivity. }
    rewrite Hc. unfold keys.
    assert (Hi' : snd (fst p) < length corr) by lia.
    rewrite (nth_map_in fst corr _ _ (""%string, NaN)) by exact Hi'.
    rewrite (nth_map_in snd corr _ _ (""%string, NaN)) by exact Hi'.
    rewrite <- Hn. cbn. split; [reflexivity|]. split; [reflexivity|].
    now rewrite length_map. }
  assert (Hbefore : forall p q, In p D -> In q D ->
            before p q -> ranks_before keys (snd (fst p)) (snd (fst q))).
  { intros p q Hp Hq Hpq. destruct (Hentry p Hp) as (_ & Hkp & _).
    destruct (Hentry q Hq) as (_ & Hkq & _).
    unfold ranks_before. rewrite <- Hkp, <- Hkq. exact Hpq. }
  set (F := firstn n_features D).
  set (K := skipn n_features D).
  assert (HD : D = F ++ K) by (symmetry; apply firstn_skipn).
  assert (HF : forall p, In p F -> In p D)
    by (intros p Hp; rewrite HD; apply in_or_app; now left).
  assert (HK : forall p, In p K -> In p D)
    by (intros p Hp; rewrite HD; apply in_or_app; now right).
  destruct (StronglySorted_app_inv before F K) as (HsF & _ & HFK);
    [now rewrite <- HD|].
  assert (Hnodup : NoDup (map (fun p => snd (fst p)) D)).
  { apply (Permutation_NoDup (Permutation_sym Hidx)), seq_NoDup. }
  exists (map (fun p => snd (fst p)) F).
  split; [|split; [|split; [|split; [|split]]]].
  - unfold feature_selection. rewrite Hdate. cbn [bind]. fold X'.
    rewrite correlations_loop by (rewrite Hcols; assumption).
    cbn [bind]. fold corr. do 2 f_equal.
    rewrite <- (forget_enumerate corr 0) at 1.
    rewrite <- forget_sort_desc. fold D. unfold forget.
    rewrite firstn_map, !map_map. apply map_ext_in.
    intros p Hp. cbn. apply Hentry. now apply HF.
  - unfold F. rewrite length_map, length_firstn.
    rewrite (Permutation_length Hperm). unfold enumerate.
    rewrite length_map, length_combine, length_seq. lia.
  - rewrite HD, map_app in Hnodup. now apply NoDup_app_remove_r in Hnodup.
  - apply Forall_forall. intros i Hi. apply in_map_iff in Hi as (p & <- & Hp).
    apply Hentry. now apply HF.
  - apply StronglySorted_map.
    apply (StronglySorted_weaken before); [|assumption].
    intros p q Hp Hq. apply Hbefore; now apply HF.
  - intros i j Hi Hj Hnj. apply in_map_iff in Hi as (p & <- & Hp).
    assert (Hjin : In j (map (fun p => snd (fst p)) D)).
    { apply (Permutation_in _ (Permutation_sym Hidx)), in_seq. lia. }
    rewrite HD, map_app in Hjin. apply in_app_or in Hjin as [Hjin|Hjin];
      [contradiction|].
    apply in_map_iff in Hjin as (q & <- & Hq).
    apply Hbefore; [now apply HF|now apply HK|now apply HFK].
Qed.

End FeatureSelectionSpec.

(** ** Cross-validation *)

Lemma firstn_seq_le n start len :
  n <= len -> firstn n (seq start len) = seq start n.
Proof.
  revert start len. induction n as [|n IH]; intros start [|len] H; cbn;
    try reflexivity; try lia.
  f_equal. apply IH. lia.
Qed.

(** The test block of fold [i] is the [i]-th run of [m / folds] positions. *)
Lemma test_list_block (m folds i : nat) :
  1 <= i <= folds -> 0 < folds ->
  test_list m folds i = seq ((i - 1) * (m / folds)) (m / folds).
Proof.
  intros Hi Hf. unfold test_list, slice. rewrite skipn_seq. cbn [Nat.add].
  assert (Hnum : folds * (m / folds) <= m) by (apply Nat.Div0.mul_div_le).
  assert (Hi' : i * (m / folds) <= folds * (m / folds))
    by (apply Nat.mul_le_mono_r; lia).
  replace (i * (m / folds) - (i - 1) * (m / folds))%nat with (m / folds)%nat by nia.
  apply firstn_seq_le. nia.
Qed.

(** The positions [np.delete] keeps for fold [i]. *)
Definition train_positions (m folds i : nat) : list nat :=
  filter (fun p => negb (existsb (Nat.eqb p) (test_list m folds i))) (seq 0 m).

Definition rows_at {T : Type} (d : T) (l : list T) (ps : list nat) : list T :=
  map (fun p => nth p l d) ps.

Lemma combine_seq_filter {T : Type} (d : T) (f : nat -> bool) (l : list T) :
  forall start,
    map snd (filter (fun p => f (fst p)) (combine (seq start (length l)) l))
    = map (fun p => nth (p - start) l d) (filter f (seq start (length l))).
Proof.
  induction l as [|x l IH]; intros start; [reflexivity|].
  cbn [length seq combine filter fst]. destruct (f start); cbn [map snd].
  - rewrite Nat.sub_diag. cbn [nth]. f_equal. rewrite IH.
    apply map_ext_in. intros p Hp. apply filter_In in Hp as [Hp _].
    apply in_seq in Hp. replace (p - start)%nat with (S (p - S start)) by lia.
    reflexivity.
  - rewrite IH. apply map_ext_in. intros p Hp. apply filter_In in Hp as [Hp _].
    apply in_seq in Hp. replace (p - start)%nat with (S (p - S start)) by lia.
    reflexivity.
Qed.

Lemma existsb_eqb_sym (p : nat) (l : list nat) :
  existsb (Nat.eqb p) l = existsb (fun q => Nat.eqb q p) l.
Proof.
  induction l as [|x l IH]; [reflexivity|]. cbn. now rewrite IH, Nat.eqb_sym.
Qed.

Lemma delete_rows_at {T : Type} (d : T) (l : list T) (folds i : nat) :
  delete l (test_list (length l) folds i)
  = rows_at d l (train_positions (length l) folds i).
Proof.
  unfold delete, rows_at, train_positions.
  rewrite (combine_seq_filter d
             (fun p => negb (existsb (Nat.eqb p) (test_list (length l) folds i)))).
  apply map_ext. intros p. now rewrite Nat.sub_0_r.
Qed.

Lemma test_list_in_range (m folds i p : nat) :
  In p (test_list m folds i) -> p < m.
Proof.
  unfold test_list, slice. intros H.
  assert (Hin : In p (skipn ((i - 1) * (m / folds)) (seq 0 m))).
  { rewrite <- (firstn_skipn (i * (m / folds) - (i - 1) * (m / folds))
                  (skipn ((i - 1) * (m / folds)) (seq 0 m))).
    apply in_or_app. now left. }
  rewrite skipn_seq in Hin. apply in_seq in Hin. lia.
Qed.

Lemma take_rows_at {T : Type} (d : T) (l : list T) (folds i : nat) :
  take l (test_list (length l) folds i)
  = Some (rows_at d l (test_list (length l) folds i)).
Proof.
  apply take_in_range. apply Forall_forall. intros p Hp.
  eapply test_list_in_range; eassumption.
Qed.

(** The fraction of exact label matches. *)
Definition matches (preds ys : list Z) : nat :=
  length (filter (fun pq => Z.eqb (fst pq) (snd pq)) (combine preds ys)).

Definition accuracy (preds ys : list Z) : number :=
  (of_nat (matches preds ys) / of_nat (length (combine preds ys)))%num.

Lemma mean_eq_accuracy (preds ys : list Z) : mean_eq preds ys = accuracy preds ys.
Proof.
  unfold mean_eq, accuracy, mean, matches, sum.
  assert (H : forall a b (n : nat),
            fold_left fadd (zipWith (fun p q => if Z.eqb p q then 1%num else 0%num) a b)
                      (of_nat n)
            = of_nat (n + length (filter (fun pq => Z.eqb (fst pq) (snd pq)) (combine a b)))
            /\ length (zipWith (fun p q => if Z.eqb p q then 1%num else 0%num) a b)
               = length (combine a b)).
  { induction a as [|p a IH]; intros [|q b] n; cbn [zipWith combine filter fold_left length];
      rewrite ?Nat.add_0_r; try (split; reflexivity).
    cbn [fst snd]. destruct (Z.eqb p q).
    - replace (of_nat n + 1)%num with (of_nat (S n))
        by (unfold of_nat; rewrite S_INR; reflexivity).
      destruct (IH b (S n)) as [-> ->]. cbn [length]. split; [f_equal; lia|reflexivity].
    - replace (of_nat n + 0)%num with (of_nat n)
        by (unfold of_nat; cbn; f_equal; lra).
      destruct (IH b n) as [-> ->]. split; reflexivity. }
  destruct (H preds ys 0) as [Hs ->]. f_equal. exact Hs.
Qed.

Section CrossValidationSpec.
Context {G : Generator} {A : Type} {C : Classifier A}.

(** What the claim describes: for each fold in turn, train [algo] on the rows
    outside the test block, predict the test block and take the fraction of
    exact matches; [algo] and the generator go from one fold to the next. *)
Fixpoint fold_accuracies (Xs : matrix) (ys : list Z) (folds : nat)
  (ids : list nat) (algo : A) (g : rng) : option (list number * A * rng) :=
  match ids with
  | [] => Some ([], algo, g)
  | i :: ids' =>
      let m := length Xs in
      let X_test := rows_at [] Xs (test_list m folds i) in
      let y_test := rows_at 0%Z ys (test_list m folds i) in
      let X_train := rows_at [] Xs (train_positions m folds i) in
      let y_train := rows_at 0%Z ys (train_positions m folds i) in
      '(algo, g) <- clf_fit algo X_train y_train g ;;
      preds <- clf_predict algo X_test ;;
      '(accs, algo, g) <- fold_accuracies Xs ys folds ids' algo g ;;
      Some (accuracy preds y_test :: accs, algo, g)
  end.

Lemma fold_accuracies_length Xs ys folds ids : forall algo g accs algo' g',
  fold_accuracies Xs ys folds ids algo g = Some (accs, algo', g') ->
  length accs = length ids.
Proof.
  induction ids as [|i ids IH]; intros algo g accs algo' g' H; cbn in H.
  - now injection H as <- _ _.
  - destruct (clf_fit _ _ _ _) as [[a1 g1]|]; [|discriminate]. cbn in H.
    destruct (clf_predict _ _) as [preds|]; [|discriminate]. cbn in H.
    destruct (fold_accuracies Xs ys folds ids a1 g1) as [[[accs1 a2] g2]|] eqn:Hr;
      [|discriminate].
    cbn in H. injection H as <- _ _. cbn. f_equal. eapply IH; eassumption.
Qed.

Lemma cv_loop_accuracies Xs ys folds ids :
  length ys = length Xs ->
  forall acc algo g,
    foldM (cv_fold Xs ys folds) ids (acc, algo, g)
    = ('(accs, algo', g') <- fold_accuracies Xs ys folds ids algo g ;;
       Some (fold_left fadd accs acc, algo', g')).
Proof.
  intros Hlen. induction ids as [|i ids IH]; intros acc algo g; [reflexivity|].
  cbn [foldM fold_accuracies]. unfold cv_fold at 1. unfold shape0.
  pose proof (take_rows_at ([] : vec) Xs folds i) as Ht1.
  pose proof (take_rows_at 0%Z ys folds i) as Ht2.
  pose proof (delete_rows_at ([] : vec) Xs folds i) as Hd1.
  pose proof (delete_rows_at 0%Z ys folds i) as Hd2.
  rewrite Hlen in Ht2, Hd2. rewrite Ht1, Ht2, Hd1, Hd2. cbn [bind].
  destruct (clf_fit _ _ _ _) as [[a1 g1]|]; [|reflexivity]. cbn [bind].
  destruct (clf_predict _ _) as [preds|]; [|reflexivity]. cbn [bind].
  rewrite IH, mean_eq_accuracy.
  destruct (fold_accuracies Xs ys folds ids a1 g1) as [[[accs a2] g2]|];
    reflexivity.
Qed.

(** C4.  With [2 <= folds <= m]: the test block of each fold is a run of
    exactly [m / folds] consecutive positions of the shuffled data; every
    position below [folds * (m / folds)] is in exactly one test block; the
    remaining positions are in no test block and in every training set; and
    the value returned is the arithmetic mean over the folds of the fraction
    of exact label matches on the held-out block, each fold training [algo]
    on the rows outside its block. *)
Theorem cross_validation_partition (X : matrix) (y : list Z) (folds : nat)
  (algo : A) (random_state : N) (g : rng) :
  let m := length X in
  let num := (m / folds)%nat in
  2 <= folds <= m -> length y = m ->
  (forall i, 1 <= i <= folds ->
     test_list m folds i = seq ((i - 1) * num) num /\
     length (test_list m folds i) = num) /\
  (forall p, p < folds * num ->
     exists i, (1 <= i <= folds /\ In p (test_list m folds i)) /\
               forall i', 1 <= i' <= folds -> In p (test_list m folds i') -> i' = i) /\
  (forall p i, folds * num <= p < m -> 1 <= i <= folds ->
     ~ In p (test_list m folds i) /\ In p (train_positions m folds i)) /\
  exists shuffled_indices g1,
    rng_permutation m (rng_seed random_state) = (shuffled_indices, g1) /\
    Permutation shuffled_indices (seq 0 m) /\
    let Xs := rows_at [] X shuffled_indices in
    let ys := rows_at 0%Z y shuffled_indices in
    cross_validation X y folds algo random_state g =
    ('(accs, algo', g') <- fold_accuracies Xs ys folds (seq 1 folds) algo g1 ;;
     Some (mean accs, algo', g')).
Proof.
  intros m num Hf Hy.
  assert (Hblock : forall i, 1 <= i <= folds ->
            test_list m folds i = seq ((i - 1) * num) num)
    by (intros i Hi; apply test_list_block; lia).
  assert (Hnum : folds * num <= m) by (apply Nat.Div0.mul_div_le).
  assert (Hpos : 0 < num) by (apply Nat.div_str_pos; lia).
  split; [|split; [|split]].
  - intros i Hi. rewrite (Hblock i Hi). split; [reflexivity|apply length_seq].
  - intros p Hp. exists (S (p / num)).
    assert (Hq : p / num < folds) by (apply Nat.Div0.div_lt_upper_bound; lia).
    pose proof (Nat.div_mod_eq p num) as Hdm.
    pose proof (Nat.mod_upper_bound p num ltac:(lia)) as Hmod.
    split.
    + split; [lia|]. rewrite Hblock by lia. apply in_seq.
      replace (S (p / num) - 1)%nat with (p / num)%nat by lia. nia.
    + intros i' Hi' Hin. rewrite Hblock in Hin by assumption.
      apply in_seq in Hin. nia.
  - intros p i Hp Hi.
    assert (Hnot : ~ In p (test_list m folds i)).
    { rewrite Hblock by assumption. intros Hin. apply in_seq in Hin. nia. }
    split; [assumption|]. unfold train_positions. apply filter_In.
    split; [apply in_seq; lia|].
    destruct (existsb (Nat.eqb p) (test_list m folds i)) eqn:He; [|reflexivity].
    apply existsb_exists in He as (q & Hq & Heq). apply Nat.eqb_eq in Heq.
    subst q. contradiction.
  - destruct (rng_permutation m (rng_seed random_state)) as [idx g1] eqn:Hperm.
    exists idx, g1. split; [reflexivity|].
    pose proof (rng_permutation_range m (rng_seed random_state)) as Hp.
    rewrite Hperm in Hp. cbn [fst] in Hp. split; [assumption|].
    cbn zeta. unfold cross_validation, shape0. fold m. rewrite Hperm.
    assert (Hrange : Forall (fun i => i < m) idx).
    { apply Forall_forall. intros i Hi. apply (Permutation_in _ Hp) in Hi.
      apply in_seq in Hi. lia. }
    rewrite (take_in_range X [] idx Hrange).
    rewrite (take_in_range y 0%Z idx) by (now rewrite Hy).
    cbn [bind]. replace (folds =? 0) with false by (symmetry; apply Nat.eqb_neq; lia).
    cbn [bind]. fold (rows_at [] X idx) (rows_at 0%Z y idx).
    rewrite cv_loop_accuracies by (unfold rows_at; now rewrite !length_map).
    destruct (fold_accuracies _ _ _ _ _ _) as [[[accs a'] g']|] eqn:Hacc;
      [|reflexivity].
    cbn [bind]. apply fold_accuracies_length in Hacc. rewrite length_seq in Hacc.
    unfold mean, sum. now rewrite Hacc.
Qed.

End CrossValidationSpec.

(** ** EM on finite data: the steps over the reals *)

Lemma map_Fin_lift (f : number -> number) (f' : R -> R) (l : list R) :
  (forall x, In x l -> f (Fin x) = Fin (f' x)) ->
  map f (map Fin l) = map Fin (map f' l).
Proof.
  intros H. rewrite !map_map. apply map_ext_in. exact H.
Qed.

Lemma zipWith_Fin_lift (f : number -> number -> number) (f' : R -> R -> R) a :
  forall b,
    (forall x y, In x a -> In y b -> f (Fin x) (Fin y) = Fin (f' x y)) ->
    zipWith f (map Fin a) (map Fin b) = map Fin (zipWith f' a b).
Proof.
  induction a as [|x a IH]; intros [|y b] H; cbn; try reflexivity.
  rewrite H by now left. f_equal. apply IH. intros; apply H; now right.
Qed.

Lemma nth_map_Fin (l : list R) i :
  i < length l -> nth i (map Fin l) NaN = Fin (nth i l 0%R).
Proof. intros Hi. now apply nth_map_in. Qed.

Definition Rdot (a b : list R) : R := Rsum (zipWith Rmult a b).

Lemma dot_Fin (a b : list R) : dot (map Fin a) (map Fin b) = Fin (Rdot a b).
Proof. unfold dot, Rdot. now rewrite zipWith_fmul_Fin, sum_Fin. Qed.

(** The Gaussian density. *)
Definition Rnorm_pdf (x mu sigma : R) : R :=
  (1 / (sigma * sqrt (2 * PI)) * exp (- ((x - mu) * (x - mu)) / (2 * (sigma * sigma))))%R.

Lemma sqrt_2PI_pos : (0 < sqrt (2 * PI))%R.
Proof. apply sqrt_lt_R0. pose proof PI_RGT_0. lra. Qed.

Lemma norm_pdf_Fin (x mu sigma : R) :
  (0 < sigma)%R ->
  norm_pdf (Fin x) (Fin mu) (Fin sigma) = Fin (Rnorm_pdf x mu sigma).
Proof.
  intros Hs. unfold norm_pdf, Rnorm_pdf, pi. cbn [fmul fsub fneg fadd fsquare].
  rewrite fsqrt_Fin by (pose proof PI_RGT_0; lra).
  cbn [fmul]. pose proof sqrt_2PI_pos as Hp.
  rewrite fdiv_Fin by nra. rewrite fdiv_Fin by nra.
  cbn [fexp fmul]. reflexivity.
Qed.

Lemma Rnorm_pdf_pos (x mu sigma : R) : (0 < sigma)%R -> (0 < Rnorm_pdf x mu sigma)%R.
Proof.
  intros Hs. unfold Rnorm_pdf. pose proof sqrt_2PI_pos as Hp.
  apply Rmult_lt_0_compat; [|apply exp_pos].
  apply Rdiv_lt_0_compat; [lra|nra].
Qed.

(** Matrices kept by columns, all of [m] positive entries. *)
Definition positive_cols (m : nat) (cols : list (list R)) : Prop :=
  Forall (fun col => length col = m /\ Forall (fun v => (0 < v)%R) col) cols.

Definition Rrow_sums (cols : list (list R)) (m : nat) : list R :=
  fold_left (zipWith Rplus) cols (repeat 0%R m).

(** Row [d] of a matrix kept by columns. *)
Definition Rrow (cols : list (list R)) (d : nat) : list R :=
  map (fun col => nth d col 0%R) cols.

Lemma fold_zipWith_Rplus (cols : list (list R)) : forall acc,
  Forall (fun col => length col = length acc) cols ->
  length (fold_left (zipWith Rplus) cols acc) = length acc /\
  forall d, d < length acc ->
    nth d (fold_left (zipWith Rplus) cols acc) 0%R
    = (nth d acc 0 + Rsum (Rrow cols d))%R.
Proof.
  induction cols as [|col cols IH]; intros acc Hc; cbn [fold_left].
  - split; [reflexivity|]. intros d _. cbn. rewrite Rsum_nil. lra.
  - inversion Hc as [|? ? Hcol Hcols]; subst.
    assert (Hl : length (zipWith Rplus acc col) = length acc)
      by (rewrite length_zipWith; lia).
    destruct (IH (zipWith Rplus acc col)) as [IH1 IH2].
    { rewrite Hl. assumption. }
    split; [now rewrite IH1|].
    intros d Hd. rewrite IH2 by lia.
    rewrite (nth_zipWith Rplus acc col d 0%R 0%R 0%R) by lia.
    cbn [Rrow map]. rewrite Rsum_cons. fold (Rrow cols d). lra.
Qed.

Lemma Rrow_sums_spec (m : nat) (cols : list (list R)) :
  Forall (fun col => length col = m) cols ->
  length (Rrow_sums cols m) = m /\
  forall d, d < m -> nth d (Rrow_sums cols m) 0%R = Rsum (Rrow cols d).
Proof.
  intros Hc. unfold Rrow_sums.
  destruct (fold_zipWith_Rplus cols (repeat 0%R m)) as [H1 H2].
  { now rewrite repeat_length. }
  rewrite repeat_length in *. split; [assumption|].
  intros d Hd. rewrite H2 by assumption.
  rewrite nth_repeat. lra.
Qed.

Lemma Rsum_pos (l : list R) :
  l <> [] -> Forall (fun v => (0 < v)%R) l -> (0 < Rsum l)%R.
Proof.
  intros Hne H. induction H as [|x l Hx Hl IH]; [contradiction|].
  rewrite Rsum_cons. destruct l as [|y l].
  - rewrite Rsum_nil. lra.
  - assert (0 < Rsum (y :: l))%R by (apply IH; discriminate). lra.
Qed.

Lemma Rsum_nonneg (l : list R) :
  Forall (fun v => (0 <= v)%R) l -> (0 <= Rsum l)%R.
Proof.
  induction 1 as [|x l Hx Hl IH]; [rewrite Rsum_nil; lra|].
  rewrite Rsum_cons. lra.
Qed.

Lemma Rrow_positive (m : nat) (cols : list (list R)) (d : nat) :
  positive_cols m cols -> d < m -> Forall (fun v => (0 < v)%R) (Rrow cols d).
Proof.
  intros Hc Hd. unfold Rrow. apply Forall_forall. intros v Hv.
  apply in_map_iff in Hv as (col & <- & Hcol).
  unfold positive_cols in Hc. rewrite Forall_forall in Hc.
  destruct (Hc col Hcol) as [Hl Hp]. rewrite Forall_forall in Hp.
  apply Hp, nth_In. lia.
Qed.

Lemma positive_cols_length (m : nat) (cols : list (list R)) :
  positive_cols m cols -> Forall (fun col => length col = m) cols.
Proof. apply Forall_impl. tauto. Qed.

Lemma Rrow_sums_positive (m : nat) (cols : list (list R)) :
  cols <> [] -> positive_cols m cols ->
  Forall (fun v => (0 < v)%R) (Rrow_sums cols m).
Proof.
  intros Hne Hc.
  destruct (Rrow_sums_spec m cols (positive_cols_length m cols Hc)) as [Hl Hn].
  apply Forall_forall. intros v Hv.
  apply (In_nth _ _ 0%R) in Hv as (d & Hd & <-). rewrite Hl in Hd.
  rewrite Hn by assumption. apply Rsum_pos.
  - unfold Rrow. destruct cols; [contradiction|discriminate].
  - now apply (Rrow_positive m).
Qed.

(** The numbers: row sums of a finite matrix. *)
Lemma fold_zipWith_fadd_Fin (cols : list (list R)) : forall acc,
  fold_left (zipWith fadd) (map (map Fin) cols) (map Fin acc)
  = map Fin (fold_left (zipWith Rplus) cols acc).
Proof.
  induction cols as [|col cols IH]; intros acc; [reflexivity|].
  cbn [map fold_left].
  rewrite (zipWith_Fin_lift fadd Rplus) by reflexivity. apply IH.
Qed.

Lemma row_sums_Fin (cols : list (list R)) (m : nat) :
  row_sums (map (map Fin) cols) m = map Fin (Rrow_sums cols m).
Proof.
  unfold row_sums, Rrow_sums. rewrite <- fold_zipWith_fadd_Fin.
  now rewrite map_repeat.
Qed.

(** Dividing every column by the row sums. *)
Definition Rnormalize (cols : list (list R)) (m : nat) : list (list R) :=
  map (fun col => zipWith Rdiv col (Rrow_sums cols m)) cols.

Lemma normalize_Fin (cols : list (list R)) (m : nat) :
  positive_cols m cols ->
  map (fun col => zipWith fdiv col (row_sums (map (map Fin) cols) m)) (map (map Fin) cols)
  = map (map Fin) (Rnormalize cols m).
Proof.
  intros Hc. rewrite row_sums_Fin. unfold Rnormalize. rewrite !map_map.
  apply map_ext_in. intros col Hcol.
  apply (zipWith_Fin_lift fdiv Rdiv). intros x y _ Hy.
  apply fdiv_Fin.
  assert (Hne : cols <> []) by (intros ->; destruct Hcol).
  pose proof (Rrow_sums_positive m cols Hne Hc) as Hp.
  rewrite Forall_forall in Hp. specialize (Hp y Hy). lra.
Qed.

Lemma Rnormalize_positive (cols : list (list R)) (m : nat) :
  positive_cols m cols -> positive_cols m (Rnormalize cols m).
Proof.
  intros Hc. unfold positive_cols, Rnormalize. apply Forall_forall.
  intros col' Hcol'. apply in_map_iff in Hcol' as (col & <- & Hcol).
  assert (Hne : cols <> []) by (intros ->; destruct Hcol).
  pose proof (Rrow_sums_positive m cols Hne Hc) as Hp.
  destruct (Rrow_sums_spec m cols (positive_cols_length m cols Hc)) as [Hl _].
  unfold positive_cols in Hc. rewrite Forall_forall in Hc.
  destruct (Hc col Hcol) as [Hlc Hpc].
  split; [rewrite length_zipWith; lia|].
  apply Forall_forall. intros v Hv.
  apply (In_nth _ _ 0%R) in Hv as (d & Hd & <-).
  rewrite length_zipWith in Hd.
  rewrite (nth_zipWith Rdiv col _ d 0%R 0%R 0%R) by lia.
  rewrite Forall_forall in Hp, Hpc.
  apply Rdiv_lt_0_compat; [apply Hpc|apply Hp]; apply nth_In; lia.
Qed.

(** Each row of the normalized matrix sums to 1. *)
Lemma Rnormalize_row_sum (cols : list (list R)) (m d : nat) :
  cols <> [] -> positive_cols m cols -> d < m ->
  Rsum (Rrow (Rnormalize cols m) d) = 1%R.
Proof.
  intros Hne Hc Hd.
  destruct (Rrow_sums_spec m cols (positive_cols_length m cols Hc)) as [Hl Hn].
  pose proof (Rrow_sums_positive m cols Hne Hc) as Hp.
  rewrite Forall_forall in Hp.
  assert (Hpos : (0 < nth d (Rrow_sums cols m) 0)%R) by (apply Hp, nth_In; lia).
  assert (Hrow : Rrow (Rnormalize cols m) d
                 = map (fun v => (v / nth d (Rrow_sums cols m) 0)%R) (Rrow cols d)).
  { unfold Rrow, Rnormalize. rewrite !map_map. apply map_ext_in.
    intros col Hcol. unfold positive_cols in Hc. rewrite Forall_forall in Hc.
    destruct (Hc col Hcol) as [Hlc _].
    apply (nth_zipWith Rdiv col _ d 0%R 0%R 0%R); lia. }
  rewrite Hrow.
  assert (Hdiv : forall l c, Rsum (map (fun v => (v / c)%R) l) = (Rsum l / c)%R).
  { intros l c. induction l as [|x l IH]; cbn [map].
    - rewrite Rsum_nil. lra.
    - rewrite !Rsum_cons, IH. lra. }
  rewrite Hdiv, <- Hn by assumption. field. lra.
Qed.

(** Finite parameters with positive weights and deviations. *)
Definition finite_params (self : EM.t) (ws ms ss : list R) : Prop :=
  EM.weights self = map Fin ws /\ EM.mus self = map Fin ms /\
  EM.sigmas self = map Fin ss /\
  length ws = EM.k self /\ length ms = EM.k self /\ length ss = EM.k self /\
  Forall (fun w => (0 < w)%R) ws /\ Forall (fun s => (0 < s)%R) ss.

(** The E step over the reals. *)
Definition Rcol (ws ms ss xs : list R) (i : nat) : list R :=
  map (fun x => (nth i ws 0 * Rnorm_pdf x (nth i ms 0) (nth i ss 0))%R) xs.

Definition Rlikelihood (ws ms ss xs : list R) : list (list R) :=
  map (Rcol ws ms ss xs) (seq 0 (length ws)).

Definition Rresp (ws ms ss xs : list R) : list (list R) :=
  Rnormalize (Rlikelihood ws ms ss xs) (length xs).

Lemma Rlikelihood_positive (ws ms ss xs : list R) :
  length ss = length ws ->
  Forall (fun w => (0 < w)%R) ws -> Forall (fun s => (0 < s)%R) ss ->
  positive_cols (length xs) (Rlikelihood ws ms ss xs).
Proof.
  intros Hl Hw Hs. unfold positive_cols, Rlikelihood. apply Forall_forall.
  intros col Hcol. apply in_map_iff in Hcol as (i & <- & Hi). apply in_seq in Hi.
  unfold Rcol. split; [now rewrite length_map|].
  apply Forall_forall. intros v Hv. apply in_map_iff in Hv as (x & <- & _).
  rewrite Forall_forall in Hw, Hs.
  apply Rmult_lt_0_compat; [apply Hw, nth_In; lia|].
  apply Rnorm_pdf_pos, Hs, nth_In. lia.
Qed.

Lemma likelihood_cols_Fin (self : EM.t) (ws ms ss xs : list R) :
  finite_params self ws ms ss ->
  map (likelihood_col self (map Fin xs)) (seq 0 (EM.k self))
  = map (map Fin) (Rlikelihood ws ms ss xs).
Proof.
  intros (Hw & Hm & Hs & Hlw & Hlm & Hls & Hpw & Hps).
  unfold Rlikelihood. rewrite Hlw, map_map. apply map_ext_in.
  intros i Hi. apply in_seq in Hi. unfold likelihood_col, Rcol.
  rewrite Hw, Hm, Hs, !nth_map_Fin by lia. rewrite !map_map.
  apply map_ext. intros x. rewrite norm_pdf_Fin; [reflexivity|].
  rewrite Forall_forall in Hps. apply Hps, nth_In. lia.
Qed.

Lemma E_resp_Fin (self : EM.t) (ws ms ss xs : list R) :
  finite_params self ws ms ss ->
  E_resp self (map Fin xs) = map (map Fin) (Rresp ws ms ss xs).
Proof.
  intros Hf. unfold E_resp. cbv zeta.
  rewrite (likelihood_cols_Fin self ws ms ss xs Hf), length_map.
  apply normalize_Fin. destruct Hf as (_ & _ & _ & Hlw & _ & Hls & Hpw & Hps).
  apply Rlikelihood_positive; [lia|assumption|assumption].
Qed.

Lemma Rresp_positive (ws ms ss xs : list R) :
  length ss = length ws ->
  Forall (fun w => (0 < w)%R) ws -> Forall (fun s => (0 < s)%R) ss ->
  positive_cols (length xs) (Rresp ws ms ss xs) /\
  length (Rresp ws ms ss xs) = length ws.
Proof.
  intros Hl Hw Hs. split.
  - apply Rnormalize_positive, Rlikelihood_positive; assumption.
  - unfold Rresp, Rnormalize, Rlikelihood. now rewrite !length_map, length_seq.
Qed.

Lemma Rresp_row_sum (ws ms ss xs : list R) (d : nat) :
  ws <> [] -> length ss = length ws ->
  Forall (fun w => (0 < w)%R) ws -> Forall (fun s => (0 < s)%R) ss ->
  d < length xs ->
  Rsum (Rrow (Rresp ws ms ss xs) d) = 1%R.
Proof.
  intros Hne Hl Hw Hs Hd. apply Rnormalize_row_sum.
  - unfold Rlikelihood. destruct ws; [contradiction|discriminate].
  - now apply Rlikelihood_positive.
  - assumption.
Qed.

(** The M step over the reals. *)
Definition Rnew_weights (resp : list (list R)) : list R := map Rmean resp.

Definition Rnew_mus (resp : list (list R)) (xs : list R) : list R :=
  zipWith Rmult
    (map (fun w => (1 / (INR (length xs) * w))%R) (Rnew_weights resp))
    (map (fun col => Rdot col xs) resp).

Definition Rnew_sigmas (resp : list (list R)) (xs : list R) : list R :=
  map sqrt
    (zipWith Rmult
       (map (fun w => (1 / (INR (length xs) * w))%R) (Rnew_weights resp))
       (map (fun i => Rdot (nth i resp [])
                           (map (fun x => ((x - nth i (Rnew_mus resp xs) 0)
                                           * (x - nth i (Rnew_mus resp xs) 0))%R) xs))
            (seq 0 (length resp)))).

Lemma Rmean_pos (l : list R) :
  l <> [] -> Forall (fun v => (0 < v)%R) l -> (0 < Rmean l)%R.
Proof.
  intros Hne Hp. unfold Rmean. apply Rdiv_lt_0_compat.
  - now apply Rsum_pos.
  - now apply INR_length_pos.
Qed.

Lemma Rnew_weights_positive (m : nat) (resp : list (list R)) :
  0 < m -> positive_cols m resp ->
  Forall (fun w => (0 < w)%R) (Rnew_weights resp).
Proof.
  intros Hm Hc. unfold Rnew_weights. apply Forall_forall. intros w Hw.
  apply in_map_iff in Hw as (col & <- & Hcol).
  unfold positive_cols in Hc. rewrite Forall_forall in Hc.
  destruct (Hc col Hcol) as [Hl Hp]. apply Rmean_pos; [|assumption].
  intros ->. cbn in Hl. lia.
Qed.

Lemma new_weights_Fin (m : nat) (resp : list (list R)) :
  0 < m -> positive_cols m resp ->
  new_weights (map (map Fin) resp) = map Fin (Rnew_weights resp).
Proof.
  intros Hm Hc. unfold new_weights, Rnew_weights. rewrite !map_map.
  apply map_ext_in. intros col Hcol.
  unfold positive_cols in Hc. rewrite Forall_forall in Hc.
  destruct (Hc col Hcol) as [Hl _]. apply mean_Fin. intros ->. cbn in Hl. lia.
Qed.

Lemma inv_weights_Fin (m : nat) (ws : list R) :
  0 < m -> Forall (fun w => (0 < w)%R) ws ->
  map (fun w => (1 / (of_nat m * w))%num) (map Fin ws)
  = map Fin (map (fun w => (1 / (INR m * w))%R) ws).
Proof.
  intros Hm Hw. apply map_Fin_lift. intros w Hin.
  rewrite Forall_forall in Hw. specialize (Hw w Hin).
  unfold of_nat. cbn [fmul]. apply fdiv_Fin.
  assert (0 < INR m)%R by (apply lt_0_INR; lia). nra.
Qed.

Lemma new_mus_Fin (resp : list (list R)) (xs : list R) :
  xs <> [] -> positive_cols (length xs) resp ->
  new_mus (map (map Fin) resp) (map Fin xs) = map Fin (Rnew_mus resp xs).
Proof.
  intros Hne Hc. unfold new_mus, Rnew_mus.
  assert (Hm : 0 < length xs) by (destruct xs; [contradiction|cbn; lia]).
  rewrite (new_weights_Fin (length xs)) by assumption.
  rewrite length_map.
  rewrite inv_weights_Fin
    by (try assumption; now apply (Rnew_weights_positive (length xs))).
  assert (Hd : map (fun col => dot col (map Fin xs)) (map (map Fin) resp)
               = map Fin (map (fun col => Rdot col xs) resp))
    by (rewrite !map_map; apply map_ext; intros; apply dot_Fin).
  rewrite Hd. apply (zipWith_Fin_lift fmul Rmult). reflexivity.
Qed.

Lemma length_Rnew_mus (resp : list (list R)) xs :
  length (Rnew_mus resp xs) = length resp.
Proof.
  unfold Rnew_mus, Rnew_weights. rewrite length_zipWith, !length_map. lia.
Qed.

Lemma length_Rnew_sigmas (resp : list (list R)) xs :
  length (Rnew_sigmas resp xs) = length resp.
Proof.
  unfold Rnew_sigmas, Rnew_weights.
  rewrite length_map, length_zipWith, !length_map, length_seq. lia.
Qed.

(** Weighted sums of squared deviations. *)
Lemma Rdot_squares_nonneg (r : list R) : forall xs mu,
  Forall (fun v => (0 < v)%R) r ->
  (0 <= Rdot r (map (fun x => ((x - mu) * (x - mu))%R) xs))%R.
Proof.
  unfold Rdot. induction r as [|r0 r IH]; intros [|x xs] mu Hr; cbn [map zipWith];
    rewrite ?Rsum_nil, ?Rsum_cons; try lra.
  inversion Hr as [|? ? Hr0 Hr']; subst.
  specialize (IH xs mu Hr'). pose proof (Rle_0_sqr (x - mu)) as Hsq.
  unfold Rsqr in Hsq. nra.
Qed.

Lemma Rdot_squares_pos (r : list R) : forall xs mu,
  length r = length xs ->
  Forall (fun v => (0 < v)%R) r ->
  (exists x, In x xs /\ x <> mu) ->
  (0 < Rdot r (map (fun x => ((x - mu) * (x - mu))%R) xs))%R.
Proof.
  induction r as [|r0 r IH]; intros [|x xs] mu Hl Hr (z & Hz & Hzm);
    try discriminate; [destruct Hz|].
  inversion Hr as [|? ? Hr0 Hr']; subst.
  unfold Rdot. cbn [map zipWith]. rewrite Rsum_cons.
  fold (Rdot r (map (fun x => ((x - mu) * (x - mu))%R) xs)).
  pose proof (Rdot_squares_nonneg r xs mu Hr') as Hrest.
  pose proof (Rle_0_sqr (x - mu)) as Hsq. unfold Rsqr in Hsq.
  destruct (Req_dec_T x mu) as [->|Hx].
  - destruct Hz as [->|Hz]; [contradiction|].
    assert (0 < Rdot r (map (fun x => ((x - mu) * (x - mu))%R) xs))%R.
    { apply IH; [cbn in Hl; lia|assumption|]. exists z. now split. }
    nra.
  - assert (0 < (x - mu) * (x - mu))%R by (apply Rsqr_pos_lt; lra). nra.
Qed.

Lemma not_constant_differs (xs : list R) (mu : R) :
  ~ constant xs -> exists x, In x xs /\ x <> mu.
Proof.
  intros Hnc. destruct (Exists_dec (fun x => x <> mu) xs) as [He|Hne].
  - intros x. destruct (Req_dec_T x mu); [right; tauto|now left].
  - apply Exists_exists in He. exact He.
  - exfalso. apply Hnc. intros a b Ha Hb.
    assert (Hall : forall x, In x xs -> x = mu).
    { intros x Hx. destruct (Req_dec_T x mu) as [|Hd]; [assumption|].
      exfalso. apply Hne, Exists_exists. now exists x. }
    now rewrite (Hall a Ha), (Hall b Hb).
Qed.

(** The argument of the root in the update of [sigma_i]. *)
Definition Rvariance (resp : list (list R)) (xs : list R) (i : nat) : R :=
  (1 / (INR (length xs) * nth i (Rnew_weights resp) 0)
   * Rdot (nth i resp [])
          (map (fun x => ((x - nth i (Rnew_mus resp xs) 0)
                          * (x - nth i (Rnew_mus resp xs) 0))%R) xs))%R.

Lemma Rvariance_pos (resp : list (list R)) (xs : list R) (i : nat) :
  ~ constant xs -> positive_cols (length xs) resp -> i < length resp ->
  (0 < Rvariance resp xs i)%R.
Proof.
  intros Hnc Hc Hi. unfold Rvariance.
  assert (Hm : 0 < length xs).
  { destruct xs; [|cbn; lia]. exfalso. apply Hnc. intros a b []. }
  pose proof (Rnew_weights_positive (length xs) resp Hm Hc) as Hw.
  rewrite Forall_forall in Hw.
  assert (Hwi : (0 < nth i (Rnew_weights resp) 0)%R).
  { apply Hw, nth_In. unfold Rnew_weights. now rewrite length_map. }
  unfold positive_cols in Hc. rewrite Forall_forall in Hc.
  destruct (Hc (nth i resp []) (nth_In _ _ Hi)) as [Hl Hp].
  assert (HINR : (0 < INR (length xs))%R) by (apply lt_0_INR; lia).
  apply Rmult_lt_0_compat.
  - apply Rdiv_lt_0_compat; [lra|nra].
  - apply Rdot_squares_pos; [assumption|assumption|].
    now apply not_constant_differs.
Qed.

Lemma Rnew_sigmas_eq (resp : list (list R)) (xs : list R) :
  Rnew_sigmas resp xs = map (fun i => sqrt (Rvariance resp xs i)) (seq 0 (length resp)).
Proof.
  unfold Rnew_sigmas, Rvariance.
  apply (nth_ext _ _ 0%R 0%R).
  - rewrite !length_map, length_zipWith, !length_map, length_seq.
    unfold Rnew_weights. rewrite length_map. lia.
  - intros i Hi. rewrite length_map, length_zipWith, !length_map, length_seq in Hi.
    unfold Rnew_weights in Hi. rewrite length_map in Hi.
    rewrite (nth_map_in sqrt _ i _ 0%R)
      by (rewrite length_zipWith, !length_map, length_seq; unfold Rnew_weights;
          rewrite length_map; lia).
    rewrite (nth_zipWith Rmult _ _ i 0%R 0%R 0%R)
      by (rewrite ?length_map, ?length_seq; unfold Rnew_weights;
          rewrite ?length_map; lia).
    rewrite (nth_map_in _ (Rnew_weights resp) i _ 0%R)
      by (unfold Rnew_weights; rewrite length_map; lia).
    rewrite (nth_map_in _ (seq 0 (length resp)) i _ 0)
      by (rewrite length_seq; lia).
    rewrite (nth_map_in _ (seq 0 (length resp)) i 0%R 0)
      by (rewrite length_seq; lia).
    rewrite seq_nth by lia. reflexivity.
Qed.

Lemma Rnew_sigmas_positive (resp : list (list R)) (xs : list R) :
  ~ constant xs -> positive_cols (length xs) resp ->
  Forall (fun s => (0 < s)%R) (Rnew_sigmas resp xs).
Proof.
  intros Hnc Hc. rewrite Rnew_sigmas_eq. apply Forall_forall. intros s Hs.
  apply in_map_iff in Hs as (i & <- & Hi). apply in_seq in Hi.
  apply sqrt_lt_R0, Rvariance_pos; [assumption|assumption|lia].
Qed.

Lemma new_sigmas_Fin (resp : list (list R)) (xs : list R) :
  ~ constant xs -> positive_cols (length xs) resp ->
  new_sigmas (map (map Fin) resp) (map Fin xs) = map Fin (Rnew_sigmas resp xs).
Proof.
  intros Hnc Hc.
  assert (Hne : xs <> []) by (intros ->; apply Hnc; intros a b []).
  assert (Hm : 0 < length xs) by (destruct xs; [contradiction|cbn; lia]).
  unfold new_sigmas.
  rewrite (new_weights_Fin (length xs)) by assumption.
  rewrite new_mus_Fin by assumption. rewrite !length_map.
  rewrite inv_weights_Fin
    by (try assumption; now apply (Rnew_weights_positive (length xs))).
  match goal with
  | |- context [zipWith fmul _ (map ?f (seq 0 (length resp)))] => set (F := f)
  end.
  assert (Hd : map F (seq 0 (length resp))
               = map Fin (map (fun i => Rdot (nth i resp [])
                           (map (fun x => ((x - nth i (Rnew_mus resp xs) 0)
                                           * (x - nth i (Rnew_mus resp xs) 0))%R) xs))
                         (seq 0 (length resp)))).
  { rewrite map_map. apply map_ext_in. intros i Hi. apply in_seq in Hi.
    unfold F. change (@nil number) with (map Fin []). rewrite map_nth.
    rewrite nth_map_Fin by (rewrite length_Rnew_mus; lia).
    rewrite <- dot_Fin. f_equal. rewrite !map_map. apply map_ext.
    intros x. reflexivity. }
  rewrite Hd. rewrite (zipWith_Fin_lift fmul Rmult) by reflexivity.
  fold (Rnew_weights resp).
  apply map_Fin_lift. intros v Hv. apply fsqrt_Fin.
  apply (In_nth _ _ 0%R) in Hv as (i & Hi & <-).
  rewrite length_zipWith, !length_map, length_seq in Hi.
  unfold Rnew_weights in Hi. rewrite length_map in Hi.
  rewrite (nth_zipWith Rmult _ _ i 0%R 0%R 0%R)
    by (rewrite ?length_map, ?length_seq; unfold Rnew_weights;
        rewrite ?length_map; lia).
  rewrite (nth_map_in _ (Rnew_weights resp) i _ 0%R)
    by (unfold Rnew_weights; rewrite length_map; lia).
  rewrite (nth_map_in _ (seq 0 (length resp)) i _ 0) by (rewrite length_seq; lia).
  rewrite seq_nth by lia. cbn [Nat.add].
  apply Rlt_le. apply (Rvariance_pos resp xs i); [assumption|assumption|lia].
Qed.

(** Summing a matrix by columns or by rows. *)
Lemma Rsum_zipWith_Rplus (a : list R) : forall b,
  length a = length b -> Rsum (zipWith Rplus a b) = (Rsum a + Rsum b)%R.
Proof.
  induction a as [|x a IH]; intros [|y b] Hl; try discriminate; cbn [zipWith].
  - rewrite Rsum_nil. lra.
  - rewrite !Rsum_cons, IH by (cbn in Hl; lia). lra.
Qed.

Lemma Rsum_fold_zipWith (cols : list (list R)) : forall acc,
  Forall (fun col => length col = length acc) cols ->
  Rsum (fold_left (zipWith Rplus) cols acc) = (Rsum acc + Rsum (map Rsum cols))%R.
Proof.
  induction cols as [|col cols IH]; intros acc Hc; cbn [fold_left map].
  - rewrite Rsum_nil. lra.
  - inversion Hc as [|? ? Hcol Hcols]; subst.
    rewrite IH.
    + rewrite Rsum_zipWith_Rplus by lia. rewrite Rsum_cons. lra.
    + rewrite length_zipWith. rewrite Hcol, Nat.min_id. assumption.
Qed.

Lemma Rsum_repeat_0 (m : nat) : Rsum (repeat 0%R m) = 0%R.
Proof.
  induction m as [|m IH]; cbn [repeat]; [apply Rsum_nil|].
  rewrite Rsum_cons, IH. lra.
Qed.

Lemma Rsum_by_columns (m : nat) (cols : list (list R)) :
  Forall (fun col => length col = m) cols ->
  Rsum (map Rsum cols) = Rsum (Rrow_sums cols m).
Proof.
  intros Hc. unfold Rrow_sums. rewrite Rsum_fold_zipWith.
  - rewrite Rsum_repeat_0. lra.
  - now rewrite repeat_length.
Qed.

(** The new weights sum to 1 when every row of the responsibilities does. *)
Lemma Rnew_weights_sum (m : nat) (resp : list (list R)) :
  0 < m -> Forall (fun col => length col = m) resp ->
  (forall d, d < m -> Rsum (Rrow resp d) = 1%R) ->
  Rsum (Rnew_weights resp) = 1%R.
Proof.
  intros Hm Hc Hrows.
  assert (Hmean : Rsum (Rnew_weights resp) = (Rsum (map Rsum resp) / INR m)%R).
  { unfold Rnew_weights. clear Hrows.
    induction Hc as [|col resp Hcol _ IH]; cbn [map].
    - rewrite Rsum_nil. lra.
    - rewrite !Rsum_cons, IH. unfold Rmean. rewrite Hcol. lra. }
  rewrite Hmean, (Rsum_by_columns m) by assumption.
  destruct (Rrow_sums_spec m resp Hc) as [Hl Hn].
  rewrite (Rsum_constant (Rrow_sums resp m) 1%R).
  - rewrite Hl. assert (0 < INR m)%R by (apply lt_0_INR; lia). field. lra.
  - intros v Hv. apply (In_nth _ _ 0%R) in Hv as (d & Hd & <-).
    rewrite Hl in Hd. rewrite Hn by assumption. now apply Hrows.
Qed.

(** One pass keeps the parameters finite and positive, makes every row of
    the responsibilities sum to 1 and the weights sum to 1. *)
Lemma EM_pass_finite (self : EM.t) (ws ms ss xs : list R) :
  ~ constant xs -> 0 < EM.k self ->
  finite_params self ws ms ss ->
  let resp := Rresp ws ms ss xs in
  E_resp self (map Fin xs) = map (map Fin) resp /\
  positive_cols (length xs) resp /\ length resp = EM.k self /\
  (forall d, d < length xs -> Rsum (Rrow resp d) = 1%R) /\
  new_weights (map (map Fin) resp) = map Fin (Rnew_weights resp) /\
  new_mus (map (map Fin) resp) (map Fin xs) = map Fin (Rnew_mus resp xs) /\
  new_sigmas (map (map Fin) resp) (map Fin xs) = map Fin (Rnew_sigmas resp xs) /\
  Forall (fun w => (0 < w)%R) (Rnew_weights resp) /\
  Forall (fun s => (0 < s)%R) (Rnew_sigmas resp xs) /\
  Rsum (Rnew_weights resp) = 1%R.
Proof.
  intros Hnc Hk Hf resp.
  pose proof Hf as (Hw & Hm & Hs & Hlw & Hlm & Hls & Hpw & Hps).
  assert (Hne : xs <> []) by (intros ->; apply Hnc; intros a b []).
  assert (Hmpos : 0 < length xs) by (destruct xs; [contradiction|cbn; lia]).
  assert (Hwne : ws <> []) by (intros ->; cbn in Hlw; lia).
  destruct (Rresp_positive ws ms ss xs) as [Hpos Hlen]; [lia|assumption|assumption|].
  fold resp in Hpos, Hlen.
  assert (Hrows : forall d, d < length xs -> Rsum (Rrow resp d) = 1%R).
  { intros d Hd. apply Rresp_row_sum; try assumption. lia. }
  split; [now apply E_resp_Fin|]. split; [assumption|]. split; [lia|].
  split; [assumption|].
  split; [now apply (new_weights_Fin (length xs))|].
  split; [now apply new_mus_Fin|].
  split; [now apply new_sigmas_Fin|].
  split; [now apply (Rnew_weights_positive (length xs))|].
  split; [now apply Rnew_sigmas_positive|].
  apply (Rnew_weights_sum (length xs)); try assumption.
  now apply positive_cols_length.
Qed.

(** The standard deviation of finite data. *)
Definition Rstd (xs : list R) : R := sqrt (Rmean (Rsquares (centered xs))).

Lemma std_Fin (xs : list R) : xs <> [] -> std (map Fin xs) = Fin (Rstd xs).
Proof.
  intros Hne. unfold std, Rstd. cbv zeta. rewrite mean_Fin by assumption.
  assert (Hsq : map (fun x => fsquare (fabs (x - Fin (Rmean xs))%num)) (map Fin xs)
                = map Fin (Rsquares (centered xs))).
  { unfold Rsquares, centered. rewrite !map_map. apply map_ext. intros x.
    cbn. f_equal. fold (Rminus x (Rmean xs)).
    pose proof (Rsqr_abs (x - Rmean xs)) as H. unfold Rsqr in H. now symmetry. }
  rewrite Hsq, mean_Fin.
  - apply fsqrt_Fin. unfold Rmean. apply Rmult_le_pos.
    + apply Rsum_squares_nonneg.
    + apply Rlt_le, Rinv_0_lt_compat, INR_length_pos.
      unfold Rsquares, centered. destruct xs; [contradiction|discriminate].
  - unfold Rsquares, centered. destruct xs; [contradiction|discriminate].
Qed.

Lemma Rstd_pos (xs : list R) : ~ constant xs -> (0 < Rstd xs)%R.
Proof.
  intros Hnc. unfold Rstd, Rmean. apply sqrt_lt_R0.
  pose proof (Rsum_squares_nonneg (centered xs)) as Hge.
  assert (Hne : Rsum (Rsquares (centered xs)) <> 0%R)
    by (intros H; apply Hnc; now apply sum_squares_constant).
  apply Rdiv_lt_0_compat; [lra|]. apply INR_length_pos.
  unfold Rsquares, centered. destruct xs; [|discriminate].
  exfalso. apply Hnc. intros a b [].
Qed.

Lemma Rstd_constant (xs : list R) : constant xs -> Rstd xs = 0%R.
Proof.
  intros Hc. unfold Rstd, Rmean. apply sum_squares_constant in Hc. rewrite Hc.
  unfold Rdiv. rewrite Rmult_0_l. apply sqrt_0.
Qed.

Section EMFinite.
Context {G : Generator}.

(** The parameters [init_params] installs on finite data that varies. *)
Lemma EM_start_finite (self : EM.t) (xs : list R) (g : rng) :
  ~ constant xs -> 1 <= EM.k self <= length xs ->
  exists ws ms ss,
    finite_params (EM_start self (map Fin xs) g) ws ms ss /\ Rsum ws = 1%R.
Proof.
  intros Hnc Hk.
  assert (Hne : xs <> []) by (intros ->; apply Hnc; intros a b []).
  set (k := EM.k self) in *.
  destruct (rng_choice_range (length xs) k g) as [Hlen Hrange]; [lia|].
  exists (repeat (1 / INR k)%R k),
         (map (fun i => nth i xs 0%R) (fst (rng_choice (length xs) k g))),
         (repeat (Rstd xs) k).
  assert (HINR : (0 < INR k)%R) by (apply lt_0_INR; lia).
  split.
  - unfold finite_params, EM_start. cbn [EM.set_params EM.weights EM.mus EM.sigmas EM.k].
    fold k. rewrite length_map.
    split; [|split; [|split; [|split; [|split; [|split; [|split]]]]]].
    + rewrite map_repeat. rewrite map_repeat. f_equal.
      unfold of_nat. apply fdiv_Fin. lra.
    + rewrite map_map. apply map_ext_in. intros i Hi.
      rewrite Forall_forall in Hrange. apply nth_map_Fin. now apply Hrange.
    + rewrite map_repeat. f_equal. now apply std_Fin.
    + apply repeat_length.
    + now rewrite length_map.
    + apply repeat_length.
    + apply Forall_forall. intros w Hw. apply repeat_spec in Hw as ->.
      apply Rdiv_lt_0_compat; lra.
    + apply Forall_forall. intros s Hs. apply repeat_spec in Hs as ->.
      now apply Rstd_pos.
  - rewrite (Rsum_constant _ (1 / INR k)%R) by (intros b Hb; now apply repeat_spec in Hb).
    rewrite repeat_length. field. lra.
Qed.

End EMFinite.

(** The states a run of the loop of [EM.fit] goes through: [EM_passes data s0
    j s] when [s] is the instance after passes [0 .. j-1] from [s0]. *)
Inductive EM_passes (data : vec) (s0 : EM.t) : nat -> EM.t -> Prop :=
| EM_passes_O : EM_passes data s0 0 s0
| EM_passes_S j s s' stop :
    EM_passes data s0 j s ->
    EM.fit_iteration data j s = Some (s', stop) ->
    EM_passes data s0 (S j) s'.

Lemma for_range_count_passes (data : vec) (s0 : EM.t) : forall n i s s' c,
  EM_passes data s0 i s ->
  for_range_count (EM.fit_iteration data) i n s = Some (s', c) ->
  EM_passes data s0 (i + c) s'.
Proof.
  induction n as [|n IH]; intros i s s' c Hp Hr; cbn in Hr.
  - injection Hr as <- <-. now rewrite Nat.add_0_r.
  - destruct (EM.fit_iteration data i s) as [[s1 [|]]|] eqn:Hb; [| |discriminate].
    + injection Hr as <- <-. rewrite Nat.add_1_r. econstructor; eassumption.
    + destruct (for_range_count _ _ n s1) as [[s2 c2]|] eqn:Hr2; [|discriminate].
      cbn in Hr. injection Hr as <- <-.
      replace (i + S c2)%nat with (S i + c2)%nat by lia.
      eapply IH; [|eassumption]. econstructor; eassumption.
Qed.

Lemma EM_fit_iteration_params (data : vec) (i : nat) (s s' : EM.t) (stop : bool) :
  length (EM.weights s) = EM.k s ->
  length (EM.mus s) = EM.k s ->
  length (EM.sigmas s) = EM.k s ->
  EM.fit_iteration data i s = Some (s', stop) ->
  EM.k s' = EM.k s /\
  EM.responsibilities s' = E_resp s data /\
  EM.weights s' = new_weights (E_resp s data) /\
  EM.mus s' = new_mus (E_resp s data) data /\
  EM.sigmas s' = new_sigmas (E_resp s data) data.
Proof.
  intros Hw Hm Hs H. unfold EM.fit_iteration in H.
  rewrite EM_expectation_eq in H by assumption. cbn [bind] in H.
  rewrite EM_maximization_eq in H
    by (cbn; rewrite ?length_map, ?length_seq; auto).
  cbn [bind EM.set_responsibilities EM.set_params EM.responsibilities EM.weights
       EM.mus EM.sigmas EM.costs EM.k EM.n_iter EM.eps EM.random_state] in H.
  fold (E_resp s data) in H.
  destruct (foldM _ data _) as [cost|]; [|discriminate]. cbn [bind] in H.
  destruct (if 1 <? i then _ else _) as [b|]; [|discriminate].
  cbn [bind] in H. injection H as <- _. cbn. tauto.
Qed.

(** Parameters in the range where the densities neither underflow nor
    overflow: weights between 1e-6 and 1, deviations between 1e-6 and 1e6,
    and every data point within 30 deviations of every mean. *)
Definition well_conditioned (self : EM.t) (ws ms ss xs : list R) : Prop :=
  EM.weights self = map Fin ws /\ EM.mus self = map Fin ms /\
  EM.sigmas self = map Fin ss /\
  length ws = EM.k self /\ length ms = EM.k self /\ length ss = EM.k self /\
  Forall (fun w => (1 / 1000000 <= w <= 1)%R) ws /\
  Forall (fun s => (1 / 1000000 <= s <= 1000000)%R) ss /\
  (forall i x, i < EM.k self -> In x xs ->
               (Rabs (x - nth i ms 0) <= 30 * nth i ss 0)%R).

Lemma well_conditioned_finite (self : EM.t) (ws ms ss xs : list R) :
  well_conditioned self ws ms ss xs -> finite_params self ws ms ss.
Proof.
  intros (Hw & Hm & Hs & Hlw & Hlm & Hls & Hbw & Hbs & _).
  unfold finite_params. repeat (split; [assumption|]). split.
  - eapply Forall_impl; [|exact Hbw]. cbn. intros w H. lra.
  - eapply Forall_impl; [|exact Hbs]. cbn. intros s H. lra.
Qed.

Section EMInvariants.
Context {G : Generator}.

Lemma EM_passes_finite (self : EM.t) (xs : list R) (g : rng) :
  ~ constant xs -> 1 <= EM.k self <= length xs ->
  forall j s, EM_passes (map Fin xs) (EM_start self (map Fin xs) g) j s ->
    EM.k s = EM.k self /\
    exists ws ms ss, finite_params s ws ms ss /\ Rsum ws = 1%R.
Proof.
  intros Hnc Hk j s Hp. induction Hp as [|j s s' stop Hp IH Hit].
  - split; [reflexivity|]. now apply EM_start_finite.
  - destruct IH as (Hks & ws & ms & ss & Hf & _).
    pose proof Hf as (Hw & Hm & Hs & Hlw & Hlm & Hls & _).
    destruct (EM_fit_iteration_params _ _ _ _ _
                ltac:(rewrite Hw, length_map; exact Hlw)
                ltac:(rewrite Hm, length_map; exact Hlm)
                ltac:(rewrite Hs, length_map; exact Hls) Hit)
      as (Hk' & _ & Hw' & Hm' & Hs').
    destruct (EM_pass_finite s ws ms ss xs Hnc ltac:(lia) Hf)
      as (HE & Hpos & Hlen & _ & HW & HM & HS & HpW & HpS & Hsum).
    rewrite HE in Hw', Hm', Hs'. rewrite HW in Hw'. rewrite HM in Hm'.
    rewrite HS in Hs'.
    split; [lia|].
    exists (Rnew_weights (Rresp ws ms ss xs)), (Rnew_mus (Rresp ws ms ss xs) xs),
           (Rnew_sigmas (Rresp ws ms ss xs) xs).
    split; [|assumption].
    unfold finite_params. rewrite Hk'.
    unfold Rnew_weights at 2. rewrite length_map, length_Rnew_mus, length_Rnew_sigmas.
    tauto.
Qed.

Lemma Rrow_Fin (m : nat) (cols : list (list R)) (d : nat) :
  Forall (fun col => length col = m) cols -> d < m ->
  map (fun col => nth d col NaN) (map (map Fin) cols) = map Fin (Rrow cols d).
Proof.
  intros Hc Hd. unfold Rrow. rewrite !map_map. apply map_ext_in.
  intros col Hcol. rewrite Forall_forall in Hc. apply nth_map_Fin.
  rewrite (Hc col Hcol). exact Hd.
Qed.

(** The parameters [init_params] installs on finite data. *)
Lemma EM_start_params (self : EM.t) (xs : list R) (g : rng) :
  xs <> [] -> 1 <= EM.k self <= length xs ->
  let k := EM.k self in
  let ms := map (fun i => nth i xs 0%R) (fst (rng_choice (length xs) k g)) in
  EM.weights (EM_start self (map Fin xs) g) = map Fin (repeat (1 / INR k)%R k) /\
  EM.mus (EM_start self (map Fin xs) g) = map Fin ms /\
  EM.sigmas (EM_start self (map Fin xs) g) = map Fin (repeat (Rstd xs) k) /\
  length ms = k /\ Forall (fun mu => In mu xs) ms.
Proof.
  intros Hne Hk k ms.
  destruct (rng_choice_range (length xs) k g) as [Hlen Hrange]; [unfold k; lia|].
  assert (HINR : (0 < INR k)%R) by (apply lt_0_INR; unfold k; lia).
  unfold EM_start. cbn [EM.set_params EM.weights EM.mus EM.sigmas]. fold k.
  rewrite length_map. split; [|split; [|split; [|split]]].
  - rewrite !map_repeat. f_equal. unfold of_nat. apply fdiv_Fin. lra.
  - unfold ms. rewrite map_map. apply map_ext_in. intros i Hi.
    rewrite Forall_forall in Hrange. apply nth_map_Fin. now apply Hrange.
  - rewrite map_repeat. f_equal. now apply std_Fin.
  - unfold ms. now rewrite length_map.
  - unfold ms. apply Forall_forall. intros mu Hmu.
    apply in_map_iff in Hmu as (i & <- & Hi).
    rewrite Forall_forall in Hrange. apply nth_In. now apply Hrange.
Qed.

(** C5, as the code has it.  One pass of the loop of [EM.fit] from
    well-conditioned parameters (weights between 1e-6 and 1, deviations
    between 1e-6 and 1e6, every data point within 30 deviations of every
    mean): the E step leaves a responsibility matrix whose every row sums to
    1, and the M step that follows leaves weights that sum to 1.  The
    parameters [init_params] installs are well conditioned when [k] is at
    most 10^6, the standard deviation of the data lies between 1e-6 and 1e6
    and any two data points are within 30 standard deviations of each
    other. *)
Theorem EM_pass_sums_to_one :
  (forall (self : EM.t) (ws ms ss xs : list R),
     xs <> [] -> 0 < EM.k self -> well_conditioned self ws ms ss xs ->
     exists s_e s_m,
       EM.expectation self (map Fin xs) = Some s_e /\
       (forall d, d < length xs ->
          sum (map (fun col => nth d col NaN) (EM.responsibilities s_e)) = Fin 1) /\
       EM.maximization s_e (map Fin xs) = Some s_m /\
       sum (EM.weights s_m) = Fin 1) /\
  (forall (self : EM.t) (xs : list R) (g : rng),
     1 <= EM.k self <= length xs -> (Z.of_nat (EM.k self) <= 1000000)%Z ->
     (1 / 1000000 <= Rstd xs <= 1000000)%R ->
     (forall a b, In a xs -> In b xs -> (Rabs (a - b) <= 30 * Rstd xs)%R) ->
     exists start g' ws ms ss,
       EM.init_params self (map Fin xs) g = Some (start, g') /\
       EM.k start = EM.k self /\
       well_conditioned start ws ms ss xs).
Proof.
  split.
  - intros self ws ms ss xs Hne Hk Hwc.
    pose proof (well_conditioned_finite _ _ _ _ _ Hwc) as Hf.
    pose proof Hf as (Hw & Hm & Hs & Hlw & Hlm & Hls & Hpw & Hps).
    set (data := map Fin xs).
    assert (Hmpos : 0 < length xs) by (destruct xs; [contradiction|cbn; lia]).
    assert (Hwne : ws <> []) by (intros ->; cbn in Hlw; lia).
    destruct (Rresp_positive ws ms ss xs) as [Hpos Hlen]; [lia|assumption|assumption|].
    pose proof (E_resp_Fin self ws ms ss xs Hf) as HE. fold data in HE.
    exists (EM.set_responsibilities self (E_resp self data)).
    exists (EM.set_params (EM.set_responsibilities self (E_resp self data))
              (new_weights (E_resp self data)) (new_mus (E_resp self data) data)
              (new_sigmas (E_resp self data) data)).
    split.
    { apply EM_expectation_eq.
      - rewrite Hw, length_map; exact Hlw.
      - rewrite Hm, length_map; exact Hlm.
      - rewrite Hs, length_map; exact Hls. }
    rewrite HE. cbn [EM.set_responsibilities EM.responsibilities]. split.
    { intros d Hd.
      rewrite (Rrow_Fin (length xs)) by (try assumption; now apply positive_cols_length).
      rewrite sum_Fin. f_equal. apply Rresp_row_sum; try assumption. lia. }
    split.
    { rewrite <- HE. apply EM_maximization_eq; cbn.
      - rewrite HE, length_map. lia.
      - rewrite Hs, length_map; exact Hls. }
    cbn [EM.set_params EM.weights EM.responsibilities].
    rewrite (new_weights_Fin (length xs)) by assumption.
    rewrite sum_Fin. f_equal.
    apply (Rnew_weights_sum (length xs)); try assumption.
    + now apply positive_cols_length.
    + intros d Hd. apply Rresp_row_sum; try assumption. lia.
  - intros self xs g Hk Hkz Hstd Hspread.
    assert (Hne : xs <> []) by (intros ->; cbn in Hk; lia).
    destruct (EM_start_params self xs g Hne Hk) as (Hw & Hm & Hs & Hl & Hin).
    exists (EM_start self (map Fin xs) g),
           (snd (rng_choice (length (map Fin xs)) (EM.k self) g)),
           (repeat (1 / INR (EM.k self))%R (EM.k self)),
           (map (fun i => nth i xs 0%R) (fst (rng_choice (length xs) (EM.k self) g))),
           (repeat (Rstd xs) (EM.k self)).
    split; [apply EM_init_params_eq; rewrite length_map; lia|].
    split; [reflexivity|].
    unfold well_conditioned.
    split; [exact Hw|]. split; [exact Hm|]. split; [exact Hs|].
    change (EM.k (EM_start self (map Fin xs) g)) with (EM.k self).
    rewrite !repeat_length. split; [reflexivity|]. split; [exact Hl|].
    split; [reflexivity|].
    assert (HINR1 : (1 <= INR (EM.k self))%R).
    { change 1%R with (INR 1). apply le_INR. lia. }
    assert (HINR2 : (INR (EM.k self) <= 1000000)%R).
    { rewrite INR_IZR_INZ. now apply IZR_le. }
    split; [|split].
    + apply Forall_forall. intros w Hwin. apply repeat_spec in Hwin as ->.
      split.
      * apply (Rmult_le_reg_r (INR (EM.k self))); [lra|].
        unfold Rdiv. rewrite (Rmult_assoc 1 (/ INR (EM.k self))), Rinv_l by lra. lra.
      * apply (Rmult_le_reg_r (INR (EM.k self))); [lra|].
        unfold Rdiv. rewrite Rmult_assoc, Rinv_l by lra. lra.
    + apply Forall_forall. intros s Hsin. apply repeat_spec in Hsin as ->. exact Hstd.
    + intros i x Hi Hx.
      assert (Hr : nth i (repeat (Rstd xs) (EM.k self)) 0%R = Rstd xs).
      { apply repeat_spec with (n := EM.k self). apply nth_In.
        rewrite repeat_length. exact Hi. }
      rewrite Hr. apply Hspread; [exact Hx|].
      rewrite Forall_forall in Hin. apply Hin, nth_In. rewrite Hl. exact Hi.
Qed.

End EMInvariants.

(** ** Training loops are functions of the parameters they start from *)

Section LoopDet.

(** A loop whose pass computes the next parameters and the cost from the
    current parameters ([core]) alone, and reads the history only for the
    last cost. *)
Variable St : Type.
Variable Core : Type.
Variable body : nat -> St -> option (St * bool).
Variable hist : St -> vec.
Variable core : St -> Core.
Variable eps : Core -> number.
Variable step : Core -> Core * number.
Variable Inv : St -> Prop.

Hypothesis body_eq : forall i s,
  Inv s -> (1 < i -> hist s <> []) ->
  exists s',
    body i s =
    Some (s', (1 <? i) && match getitem_neg (hist s) 1 with
                          | Some prev => flt (prev - snd (step (core s)))%num (eps (core s))
                          | None => false
                          end) /\
    hist s' = hist s ++ [snd (step (core s))] /\
    core s' = fst (step (core s)) /\ Inv s'.

Lemma for_range_count_det : forall n i s t os ot new,
  Inv s -> Inv t -> core s = core t ->
  hist s = os ++ new -> hist t = ot ++ new -> length new = i ->
  exists s' t' c,
    for_range_count body i n s = Some (s', c) /\
    for_range_count body i n t = Some (t', c) /\
    core s' = core t'.
Proof.
  induction n as [|n IH]; intros i s t os ot new Hs Ht Hc Hhs Hht Hlen.
  - exists s, t, 0. now split.
  - assert (Hne : forall u o, hist u = o ++ new -> 1 < i -> hist u <> []).
    { intros u o Hu Hi Hnil. rewrite Hnil in Hu. symmetry in Hu.
      apply app_eq_nil in Hu as [_ ->]. cbn in Hlen. lia. }
    destruct (body_eq i s Hs (Hne s os Hhs)) as (s1 & Hbs & Hh1 & Hc1 & HI1).
    destruct (body_eq i t Ht (Hne t ot Hht)) as (t1 & Hbt & Hh2 & Hc2 & HI2).
    assert (Hflag : (1 <? i) && match getitem_neg (hist s) 1 with
                                | Some prev => flt (prev - snd (step (core s)))%num (eps (core s))
                                | None => false
                                end
                    = (1 <? i) && match getitem_neg (hist t) 1 with
                                  | Some prev => flt (prev - snd (step (core t)))%num (eps (core t))
                                  | None => false
                                  end).
    { destruct (Nat.ltb_spec 1 i) as [Hi|Hi]; [|reflexivity]. cbn.
      destruct new as [|x new' _] using rev_ind; [cbn in Hlen; lia|].
      rewrite Hhs, Hht, !app_assoc, !getitem_neg_last. now rewrite Hc. }
    cbn [for_range_count]. rewrite Hbs, Hbt, <- Hflag.
    destruct ((1 <? i) && _).
    + exists s1, t1, 1. split; [reflexivity|]. split; [reflexivity|]. congruence.
    + destruct (IH (S i) s1 t1 os ot (new ++ [snd (step (core s))]))
        as (s' & t' & c & Hrs & Hrt & Hcc); try assumption.
      * congruence.
      * rewrite Hh1, Hhs. now rewrite app_assoc.
      * rewrite Hh2, Hht, <- Hc. now rewrite app_assoc.
      * rewrite length_app. cbn. lia.
      * exists s', t', (S c). rewrite Hrs, Hrt. cbn. now split.
Qed.

End LoopDet.

(** Logistic regression: the pass as a function of [eta], [eps], [theta]. *)
Definition LR_core (s : LR.t) : number * number * option vec :=
  (LR.eta s, LR.eps s, LR.theta s).

Definition LR_step (X : matrix) (y : vec) (c : number * number * option vec)
  : (number * number * option vec) * number :=
  let '(eta, eps, theta) := c in
  let th := match theta with Some th => th | None => [] end in
  let sg := LR.sigmoid (mat_dot X th) in
  ((eta, eps,
    Some (zipWith fsub th (map (fmul eta) (matT_dot X (zipWith fsub sg y))))),
   LR.cost_function sg y).

Lemma LR_fit_iteration_eq (X : matrix) (y : vec) (i : nat) (s : LR.t) :
  LR.theta s <> None -> (1 < i -> LR.Js s <> []) ->
  exists s',
    LR.fit_iteration X y i s =
    Some (s', (1 <? i) && match getitem_neg (LR.Js s) 1 with
                          | Some prev => flt (prev - snd (LR_step X y (LR_core s)))%num
                                             (snd (fst (LR_core s)))
                          | None => false
                          end) /\
    LR.Js s' = LR.Js s ++ [snd (LR_step X y (LR_core s))] /\
    LR_core s' = fst (LR_step X y (LR_core s)) /\ LR.theta s' <> None.
Proof.
  intros Ht Hne. unfold LR.fit_iteration, LR_core, LR_step.
  destruct (LR.theta s) as [th|]; [|contradiction]. cbn [bind fst snd].
  cbn [LR.Js LR.eps LR.eta LR.theta].
  destruct (Nat.ltb_spec 1 i) as [Hi|Hi].
  - destruct (LR.Js s) as [|x l _] using rev_ind; [now specialize (Hne Hi)|].
    rewrite getitem_neg_prev, !getitem_neg_last. cbn [bind andb].
    eexists. split; [reflexivity|]. cbn. split; [reflexivity|].
    split; [reflexivity|discriminate].
  - cbn [bind andb]. eexists. split; [reflexivity|]. cbn.
    split; [reflexivity|]. split; [reflexivity|discriminate].
Qed.

Section LRReproducible.
Context {G : Generator}.

(** The parameters [fit] learns do not depend on what the instance held
    before the call, nor on the state of the generator at the call. *)
Lemma LR_fit_theta (s t : LR.t) (X : matrix) (y : list Z) (g g' : rng) :
  LR.eta s = LR.eta t -> LR.eps s = LR.eps t -> LR.n_iter s = LR.n_iter t ->
  LR.random_state s = LR.random_state t ->
  exists s' t' ga,
    LR.fit s X y g = Some (s', ga) /\ LR.fit t X y g' = Some (t', ga) /\
    LR.theta s' = LR.theta t'.
Proof.
  intros He Hp Hn Hr. unfold LR.fit. rewrite <- Hr, <- Hn.
  destruct (rng_random _ _) as [th ga]. cbn [LR.n_iter].
  set (s0 := LR.mk (LR.eta s) _ _ _ _ _ _).
  set (t0 := LR.mk (LR.eta t) _ _ _ _ _ _).
  destruct (for_range_count_det LR.t _
              (LR.fit_iteration (LR.apply_bias_trick X) (map of_Z y))
              LR.Js LR_core (fun c => snd (fst c))
              (LR_step (LR.apply_bias_trick X) (map of_Z y))
              (fun u => LR.theta u <> None)
              (LR_fit_iteration_eq _ _)
              (LR.n_iter s) 0 s0 t0 (LR.Js s) (LR.Js t) [])
    as (s' & t' & c & Hrs & Hrt & Hc).
  - discriminate.
  - discriminate.
  - unfold LR_core, s0, t0; cbn. now rewrite He, Hp.
  - cbn. now rewrite app_nil_r.
  - cbn. now rewrite app_nil_r.
  - reflexivity.
  - exists s', t', ga. unfold for_range. rewrite Hrs, Hrt. cbn.
    split; [reflexivity|]. split; [reflexivity|].
    unfold LR_core in Hc. now injection Hc.
Qed.

End LRReproducible.

(** EM: the pass as a function of [k], [eps] and the mixture parameters. *)
Definition EM_core (s : EM.t) : nat * number * vec * vec * vec :=
  (EM.k s, EM.eps s, EM.weights s, EM.mus s, EM.sigmas s).

Definition EM_step (data : vec) (c : nat * number * vec * vec * vec)
  : (nat * number * vec * vec * vec) * number :=
  let '(k, eps, weights, mus, sigmas) := c in
  let resp := E_resp (EM.mk k 0 eps 0 [] weights mus sigmas []) data in
  ((k, eps, new_weights resp, new_mus resp data, new_sigmas resp data),
   neg_log2_likelihood data (new_weights resp) (new_mus resp data)
                       (new_sigmas resp data)).

Definition EM_lengths (s : EM.t) : Prop :=
  length (EM.weights s) = EM.k s /\ length (EM.mus s) = EM.k s /\
  length (EM.sigmas s) = EM.k s.

Lemma EM_fit_iteration_core (data : vec) (i : nat) (s : EM.t) :
  EM_lengths s -> (1 < i -> EM.costs s <> []) ->
  exists s',
    EM.fit_iteration data i s =
    Some (s', (1 <? i) && match getitem_neg (EM.costs s) 1 with
                          | Some prev => flt (prev - snd (EM_step data (EM_core s)))%num
                                             (snd (fst (fst (fst (EM_core s)))))
                          | None => false
                          end) /\
    EM.costs s' = EM.costs s ++ [snd (EM_step data (EM_core s))] /\
    EM_core s' = fst (EM_step data (EM_core s)) /\ EM_lengths s'.
Proof.
  intros (Hw & Hm & Hs) Hne.
  rewrite EM_fit_iteration_eq by assumption.
  eexists. split; [reflexivity|]. cbn [EM.costs].
  split; [reflexivity|]. split; [reflexivity|].
  unfold EM_lengths; cbn.
  rewrite length_new_mus, length_new_sigmas. unfold new_weights.
  now rewrite length_map, length_E_resp.
Qed.

Section EMReproducible.
Context {G : Generator}.

(** The mixture [EM.fit] learns depends on the instance through [k],
    [n_iter] and [eps] only, and on the state of the generator at the call. *)
Lemma EM_fit_params (s t : EM.t) (data : vec) (g : rng) :
  EM.k s = EM.k t -> EM.eps s = EM.eps t -> EM.n_iter s = EM.n_iter t ->
  EM.k s <= length data ->
  exists s' t' ga,
    EM.fit s data g = Some (s', ga) /\ EM.fit t data g = Some (t', ga) /\
    EM.get_dist_params s' = EM.get_dist_params t'.
Proof.
  intros Hk He Hn Hlen. unfold EM.fit.
  rewrite !EM_init_params_eq by (rewrite <- ?Hk; assumption).
  cbn [bind]. rewrite <- Hk.
  destruct (rng_choice_range (length data) (EM.k s) g Hlen) as [Hl _].
  destruct (for_range_count_det EM.t _ (EM.fit_iteration data)
              EM.costs EM_core (fun c => snd (fst (fst (fst c))))
              (EM_step data) EM_lengths (EM_fit_iteration_core data)
              (EM.n_iter s) 0 (EM_start s data g) (EM_start t data g)
              (EM.costs s) (EM.costs t) [])
    as (s' & t' & c & Hrs & Hrt & Hc).
  - unfold EM_lengths, EM_start; cbn.
    now rewrite !length_map, !repeat_length, Hl.
  - unfold EM_lengths, EM_start; cbn. rewrite <- Hk.
    now rewrite !length_map, !repeat_length, Hl.
  - unfold EM_core, EM_start; cbn. now rewrite <- Hk, <- He.
  - cbn. now rewrite app_nil_r.
  - cbn. now rewrite app_nil_r.
  - reflexivity.
  - exists s', t', (snd (rng_choice (length data) (EM.k s) g)).
    unfold for_range. cbn [EM_start EM.set_params EM.n_iter] in *.
    rewrite <- Hn, Hrs, Hrt. cbn.
    split; [reflexivity|]. split; [reflexivity|].
    unfold EM_core in Hc. unfold EM.get_dist_params. now injection Hc as _ _ -> -> ->.
Qed.

End EMReproducible.

(** ** Dictionaries *)

Lemma dict_get_set_same {V : Type} (d : dict V) k v :
  dict_get (dict_set d k v) k = Some v.
Proof.
  induction d as [|[k' v'] d IH]; cbn.
  - now rewrite Z.eqb_refl.
  - destruct (Z.eqb_spec k' k) as [->|Hne]; cbn.
    + now rewrite Z.eqb_refl.
    + destruct (Z.eqb_spec k' k); [contradiction|assumption].
Qed.

Lemma dict_get_set_other {V : Type} (d : dict V) k k' v :
  k' <> k -> dict_get (dict_set d k v) k' = dict_get d k'.
Proof.
  intros Hne. induction d as [|[k0 v0] d IH]; cbn.
  - destruct (Z.eqb_spec k k'); [congruence|reflexivity].
  - destruct (Z.eqb_spec k0 k) as [->|Hk]; cbn.
    + destruct (Z.eqb_spec k k'); [congruence|reflexivity].
    + destruct (Z.eqb_spec k0 k'); [reflexivity|assumption].
Qed.

Lemma dict_set_noop {V : Type} (d : dict V) k v :
  dict_get d k = Some v -> dict_set d k v = d.
Proof.
  induction d as [|[k' v'] d IH]; cbn; [discriminate|].
  destruct (Z.eqb_spec k' k) as [->|Hne].
  - now intros [= ->].
  - intros H. now rewrite IH.
Qed.

Lemma dict_set_set {V : Type} (d : dict V) k v v' :
  dict_set (dict_set d k v) k v' = dict_set d k v'.
Proof.
  induction d as [|[k0 v0] d IH]; cbn.
  - now rewrite Z.eqb_refl.
  - destruct (Z.eqb_spec k0 k) as [->|Hne]; cbn.
    + now rewrite Z.eqb_refl.
    + destruct (Z.eqb_spec k0 k); [contradiction|]. now rewrite IH.
Qed.

Lemma dict_keys_set {V : Type} (d : dict V) k v :
  dict_keys (dict_set d k v)
  = if existsb (Z.eqb k) (dict_keys d) then dict_keys d else dict_keys d ++ [k].
Proof.
  unfold dict_keys. induction d as [|[k0 v0] d IH]; cbn; [reflexivity|].
  rewrite (Z.eqb_sym k k0). destruct (Z.eqb_spec k0 k) as [->|Hne]; cbn.
  - reflexivity.
  - rewrite IH. now destruct (existsb (Z.eqb k) (map fst d)).
Qed.

Lemma dict_keys_set_In {V : Type} (d : dict V) k v k' :
  In k' (dict_keys d) -> In k' (dict_keys (dict_set d k v)).
Proof.
  intros H. rewrite dict_keys_set.
  destruct (existsb _ _); [assumption|]. apply in_or_app. now left.
Qed.

(** ** Naive Bayes: what [fit] stores *)

Module NB := NaiveBayesGaussian.

(** The mixture fitted to one column by a new EM instance: [EM(k,
    random_state=...)] seeds the generator, then [fit] draws from it. *)
Definition fitted_params {G : Generator} (k : nat) (random_state : N) (col : vec)
  : option (vec * vec * vec) :=
  option_map (fun r => EM.get_dist_params (fst r))
    (EM.fit (EM.mk k 1000 (Fin (1 / 100)) random_state [] [] [] [] [])
            col (rng_seed random_state)).

(** The mixtures of one class: one per column of its rows. *)
Definition class_params {G : Generator} (k : nat) (random_state : N)
  (X : matrix) (y : list Z) (c : Z) : option (list (vec * vec * vec)) :=
  let sub_data := mask_rows X y c in
  mapM (fun j => fitted_params k random_state (column sub_data j))
       (seq 0 (shape1 sub_data)).

Definition class_prior (X : matrix) (y : list Z) (c : Z) : number :=
  (of_nat (length (mask_rows X y c)) / of_nat (length X))%num.

(** What one pass of the loop over the classes stores. *)
Definition store_class (self : NB.t) (c : Z) (p : number)
  (ps : list (vec * vec * vec)) : NB.t :=
  NB.mk (NB.k self) (NB.random_state self)
        (dict_set (NB.prior self) c p) (dict_set (NB.dist_params self) c ps).

Section NBFit.
Context {G : Generator}.

Lemma fit_features_loop (k : nat) (rs : N) (c : Z) (sub_data : matrix) :
  forall js dp l g,
    dict_get dp c = Some l ->
    match mapM (fun j => fitted_params k rs (column sub_data j)) js with
    | Some ps =>
        exists g', foldM (NB.fit_feature k rs c sub_data) js (dp, g)
                   = Some (dict_set dp c (l ++ ps), g')
    | None => foldM (NB.fit_feature k rs c sub_data) js (dp, g) = None
    end.
Proof.
  induction js as [|j js IH]; intros dp l g Hget; cbn [mapM foldM].
  - exists g. rewrite app_nil_r. now rewrite dict_set_noop.
  - unfold NB.fit_feature at 1 3. unfold fitted_params at 1. unfold EM.init.
    destruct (EM.fit _ (column sub_data j) (rng_seed rs)) as [[em g1]|];
      cbn [bind option_map fst]; [|reflexivity].
    rewrite Hget. cbn [bind].
    specialize (IH (dict_set dp c (l ++ [EM.get_dist_params em]))
                   (l ++ [EM.get_dist_params em]) g1
                   (dict_get_set_same dp c _)).
    destruct (mapM _ js) as [ps|]; cbn [bind].
    + destruct IH as (g' & IH). exists g'. rewrite IH.
      now rewrite dict_set_set, <- app_assoc.
    + exact IH.
Qed.

Lemma fit_class_eq (X : matrix) (y : list Z) (self : NB.t) (g : rng) (c : Z) :
  match class_params (NB.k self) (NB.random_state self) X y c with
  | Some ps =>
      exists g', NB.fit_class X y (self, g) c
                 = Some (store_class self c (class_prior X y c) ps, g')
  | None => NB.fit_class X y (self, g) c = None
  end.
Proof.
  unfold NB.fit_class, class_params. cbv zeta.
  pose proof (fit_features_loop (NB.k self) (NB.random_state self) c
                (mask_rows X y c) (seq 0 (shape1 (mask_rows X y c)))
                (dict_set (NB.dist_params self) c []) [] g
                (dict_get_set_same _ c [])) as H.
  destruct (mapM _ _) as [ps|].
  - destruct H as (g' & H). exists g'. rewrite H. cbn [bind app].
    unfold store_class, class_prior, shape0. now rewrite dict_set_set.
  - now rewrite H.
Qed.

(** The instance after [fit], whatever the generator was at the call. *)
Definition learn (self : NB.t) (X : matrix) (y : list Z) : option NB.t :=
  foldM (fun self c =>
           ps <- class_params (NB.k self) (NB.random_state self) X y c ;;
           Some (store_class self c (class_prior X y c) ps))
        (unique y) self.

Lemma fit_classes_learn (X : matrix) (y : list Z) : forall cs self g,
  option_map fst (foldM (NB.fit_class X y) cs (self, g))
  = foldM (fun self c =>
             ps <- class_params (NB.k self) (NB.random_state self) X y c ;;
             Some (store_class self c (class_prior X y c) ps))
          cs self.
Proof.
  induction cs as [|c cs IH]; intros self g; [reflexivity|].
  cbn [foldM]. pose proof (fit_class_eq X y self g c) as H.
  destruct (class_params _ _ X y c) as [ps|]; cbn [bind].
  - destruct H as (g' & ->). cbn [bind]. apply IH.
  - rewrite H. reflexivity.
Qed.

Lemma fit_learn (self : NB.t) (X : matrix) (y : list Z) (g : rng) :
  option_map fst (NB.fit self X y g) = learn self X y.
Proof. apply fit_classes_learn. Qed.

(** [np.unique] lists every label once. *)
Lemma insert_unique_In z l x : In x (insert_unique z l) <-> x = z \/ In x l.
Proof.
  induction l as [|h t IH]; cbn; [intuition|].
  destruct (Z.ltb_spec z h); cbn; [intuition|].
  destruct (Z.eqb_spec z h) as [->|Hne]; cbn; [intuition|].
  rewrite IH. intuition.
Qed.

Lemma unique_In (y : list Z) x : In x (unique y) <-> In x y.
Proof.
  induction y as [|z y IH]; cbn; [reflexivity|].
  rewrite insert_unique_In, IH. intuition.
Qed.

Lemma insert_unique_sorted z l :
  StronglySorted Z.lt l -> StronglySorted Z.lt (insert_unique z l).
Proof.
  induction 1 as [|h t Hs IH Hh]; cbn; [repeat constructor|].
  destruct (Z.ltb_spec z h) as [Hlt|Hge].
  - constructor; [now constructor|]. constructor; [assumption|].
    rewrite Forall_forall in *. intros x Hx. specialize (Hh x Hx). lia.
  - destruct (Z.eqb_spec z h) as [->|Hne]; [now constructor|].
    constructor; [assumption|]. rewrite Forall_forall in *.
    intros x Hx. apply insert_unique_In in Hx as [->|Hx]; [lia|now apply Hh].
Qed.

Lemma unique_NoDup (y : list Z) : NoDup (unique y).
Proof.
  assert (Hs : StronglySorted Z.lt (unique y)).
  { induction y as [|z y IH]; cbn; [constructor|now apply insert_unique_sorted]. }
  induction Hs as [|h t _ IH Hh]; constructor; [|assumption].
  intros Hin. rewrite Forall_forall in Hh. specialize (Hh h Hin). lia.
Qed.

Lemma store_class_same (self : NB.t) (c : Z) p ps :
  dict_get (NB.prior self) c = Some p ->
  dict_get (NB.dist_params self) c = Some ps ->
  store_class self c p ps = self.
Proof.
  intros Hp Hd. unfold store_class. rewrite !dict_set_noop by assumption.
  now destruct self.
Qed.

(** What the loop over the classes [cs] leaves in the two tables. *)
Lemma learn_loop_spec (X : matrix) (y : list Z) : forall cs self self',
  foldM (fun self c =>
           ps <- class_params (NB.k self) (NB.random_state self) X y c ;;
           Some (store_class self c (class_prior X y c) ps))
        cs self = Some self' ->
  NB.k self' = NB.k self /\ NB.random_state self' = NB.random_state self /\
  (forall c, ~ In c cs ->
     dict_get (NB.prior self') c = dict_get (NB.prior self) c /\
     dict_get (NB.dist_params self') c = dict_get (NB.dist_params self) c) /\
  (forall c, In c (dict_keys (NB.prior self)) -> In c (dict_keys (NB.prior self'))) /\
  (NoDup cs -> forall c, In c cs ->
     dict_get (NB.prior self') c = Some (class_prior X y c) /\
     dict_get (NB.dist_params self') c
     = class_params (NB.k self) (NB.random_state self) X y c).
Proof.
  induction cs as [|c0 cs IH]; intros self self' H; cbn [foldM] in H.
  - injection H as <-. split; [reflexivity|]. split; [reflexivity|].
    split; [intros; now split|]. split; [auto|]. intros _ c' [].
  - destruct (class_params _ _ X y c0) as [ps|] eqn:Hps; [|discriminate].
    cbn [bind] in H. apply IH in H as (Hk & Hr & Hframe & Hkeys & Hstored).
    cbn [store_class NB.k NB.random_state NB.prior NB.dist_params] in *.
    split; [assumption|]. split; [assumption|]. split; [|split].
    + intros c Hc. destruct (Hframe c) as [H1 H2]; [intros Hin; apply Hc; now right|].
      rewrite H1, H2.
      rewrite !dict_get_set_other by (intros ->; apply Hc; now left). now split.
    + intros c Hc. apply Hkeys. now apply dict_keys_set_In.
    + intros Hnd c Hc. inversion Hnd as [|? ? Hnotin Hnd']; subst.
      destruct Hc as [<-|Hc].
      * destruct (Hframe c0 Hnotin) as [H1 H2]. rewrite H1, H2.
        rewrite !dict_get_set_same. now rewrite Hps.
      * now apply Hstored.
Qed.

(** Fitting again on the same data leaves the instance as it is. *)
Lemma learn_idempotent (self self' : NB.t) (X : matrix) (y : list Z) :
  learn self X y = Some self' -> learn self' X y = Some self'.
Proof.
  intros H. unfold learn in *.
  destruct (learn_loop_spec X y _ _ _ H) as (Hk & Hr & _ & _ & Hstored).
  specialize (Hstored (unique_NoDup y)).
  assert (Hloop : forall cs, incl cs (unique y) ->
            foldM (fun self c =>
                     ps <- class_params (NB.k self) (NB.random_state self) X y c ;;
                     Some (store_class self c (class_prior X y c) ps))
                  cs self' = Some self').
  { induction cs as [|c cs IH]; intros Hincl; [reflexivity|].
    cbn [foldM]. destruct (Hstored c (Hincl c (or_introl eq_refl))) as [Hp Hd].
    rewrite Hk, Hr.
    destruct (class_params (NB.k self) (NB.random_state self) X y c) as [ps|] eqn:Hps.
    - cbn [bind]. rewrite store_class_same by assumption.
      apply IH. intros x Hx. apply Hincl. now right.
    - exfalso. clear IH.
      (* the first fit went through class c, so its mixtures were fitted *)
      assert (Hfail : forall cs0 s0, In c cs0 ->
                NB.k s0 = NB.k self -> NB.random_state s0 = NB.random_state self ->
                foldM (fun self c =>
                         ps <- class_params (NB.k self) (NB.random_state self) X y c ;;
                         Some (store_class self c (class_prior X y c) ps))
                      cs0 s0 = None).
      { induction cs0 as [|c1 cs0 IH0]; intros s0 Hin Hk0 Hr0; [destruct Hin|].
        cbn [foldM]. rewrite Hk0, Hr0.
        destruct (Z.eq_dec c1 c) as [->|Hne].
        - now rewrite Hps.
        - destruct (class_params _ _ X y c1); [|reflexivity]. cbn [bind].
          apply IH0; [destruct Hin; [contradiction|assumption]|exact Hk0|exact Hr0]. }
      rewrite (Hfail (unique y) self) in H;
        [discriminate|apply Hincl; now left|reflexivity|reflexivity]. }
  apply Hloop, incl_refl.
Qed.

End NBFit.

(** ** EM with one component *)

Lemma Rdot_ones (l : list R) : Rdot (repeat 1%R (length l)) l = Rsum l.
Proof.
  unfold Rdot. induction l as [|x l IH]; cbn [length repeat zipWith]; [reflexivity|].
  rewrite !Rsum_cons, IH. lra.
Qed.

Lemma Rsum_ones (m : nat) : Rsum (repeat 1%R m) = INR m.
Proof.
  rewrite (Rsum_constant _ 1%R) by (intros b Hb; now apply repeat_spec in Hb).
  rewrite repeat_length. lra.
Qed.

(** A single component is responsible for every point. *)
Lemma Rresp_one_component (ws ms ss xs : list R) :
  length ws = 1 -> length ss = 1 ->
  Forall (fun w => (0 < w)%R) ws -> Forall (fun s => (0 < s)%R) ss ->
  Rresp ws ms ss xs = [repeat 1%R (length xs)].
Proof.
  intros Hlw Hls Hw Hs.
  destruct (Rresp_positive ws ms ss xs) as [Hpos Hlen]; [lia|assumption|assumption|].
  rewrite Hlw in Hlen.
  destruct (Rresp ws ms ss xs) as [|col [|? ?]] eqn:HR; try discriminate.
  f_equal. inversion Hpos as [|? ? [Hcl _] _]; subst.
  apply (nth_ext _ _ 0%R 0%R); [now rewrite repeat_length|].
  intros d Hd.
  rewrite (nth_indep (repeat 1%R (length xs)) 0%R 1%R) by (rewrite repeat_length; lia).
  rewrite nth_repeat.
  assert (Hrow : Rsum (Rrow (Rresp ws ms ss xs) d) = 1%R).
  { apply Rresp_row_sum; try assumption; try lia.
    intros ->. discriminate. }
  rewrite HR in Hrow. cbn [Rrow map] in Hrow.
  rewrite Rsum_cons, Rsum_nil in Hrow. lra.
Qed.

Lemma Rnew_one_component (xs : list R) :
  xs <> [] ->
  let resp := [repeat 1%R (length xs)] in
  Rnew_weights resp = [1%R] /\
  Rnew_mus resp xs = [Rmean xs] /\
  Rnew_sigmas resp xs = [Rstd xs].
Proof.
  intros Hne resp.
  pose proof (INR_length_pos xs Hne) as Hm.
  assert (HW : Rnew_weights resp = [1%R]).
  { unfold resp, Rnew_weights. cbn [map]. f_equal. unfold Rmean.
    rewrite Rsum_ones, repeat_length. field. lra. }
  assert (HM : Rnew_mus resp xs = [Rmean xs]).
  { unfold Rnew_mus. rewrite HW. unfold resp. cbn [map zipWith]. f_equal.
    rewrite Rdot_ones. unfold Rmean. field. lra. }
  split; [assumption|]. split; [assumption|].
  rewrite Rnew_sigmas_eq. change (length resp) with 1. cbn [seq map]. f_equal.
  unfold Rvariance, Rstd. rewrite HW, HM. cbn [nth]. f_equal.
  unfold resp. cbn [nth].
  assert (Hsq : map (fun x => ((x - Rmean xs) * (x - Rmean xs))%R) xs
                = Rsquares (centered xs)).
  { unfold Rsquares, centered. now rewrite map_map. }
  rewrite Hsq.
  assert (Hl : length xs = length (Rsquares (centered xs))).
  { unfold Rsquares, centered. now rewrite !length_map. }
  replace (repeat 1%R (length xs))
    with (repeat 1%R (length (Rsquares (centered xs)))) by (now rewrite <- Hl).
  rewrite Rdot_ones. unfold Rmean. rewrite <- Hl. field. lra.
Qed.

Section EMOneComponent.
Context {G : Generator}.

Lemma EM_fit_passes (self : EM.t) (data : vec) (g : rng) :
  EM.k self <= length data ->
  exists self' c,
    EM.fit self data g = Some (self', snd (rng_choice (length data) (EM.k self) g)) /\
    EM_passes data (EM_start self data g) c self' /\
    (0 < EM.n_iter self -> 0 < c).
Proof.
  intros Hk. unfold EM.fit. rewrite EM_init_params_eq by assumption. cbn [bind].
  destruct (for_range_count_spec EM.t (EM.fit_iteration data) EM.costs
              (EM.eps self) (EM_inv self) (EM_fit_iteration_spec data self)
              (EM.n_iter self) 0 (EM_start self data g) (EM.costs self) [])
    as (s' & c & new & Hr & _ & _ & _ & _ & _ & _ & Hpos).
  { now apply EM_start_inv. }
  { cbn. now rewrite app_nil_r. }
  { reflexivity. }
  exists s', c. unfold for_range.
  cbn [EM_start EM.set_params EM.n_iter] in *. rewrite Hr. cbn.
  split; [reflexivity|]. split; [|assumption].
  apply (for_range_count_passes data (EM_start self data g) (EM.n_iter self) 0
           (EM_start self data g) s' c); [constructor|exact Hr].
Qed.

(** With [k = 1] one pass already gives the sample mean and deviation. *)
Lemma EM_fit_one_component (self : EM.t) (xs : list R) (g : rng) :
  EM.k self = 1 -> 0 < EM.n_iter self -> ~ constant xs ->
  exists self' g',
    EM.fit self (map Fin xs) g = Some (self', g') /\
    EM.get_dist_params self' = ([Fin 1], [Fin (Rmean xs)], [Fin (Rstd xs)]).
Proof.
  intros Hk Hn Hnc.
  assert (Hne : xs <> []) by (intros ->; apply Hnc; intros a b []).
  assert (Hlen : 1 <= EM.k self <= length xs).
  { rewrite Hk. destruct xs; [contradiction|cbn; lia]. }
  destruct (EM_fit_passes self (map Fin xs) g) as (self' & c & Hfit & Hp & Hc);
    [rewrite length_map; lia|].
  exists self', (snd (rng_choice (length (map Fin xs)) (EM.k self) g)).
  split; [exact Hfit|]. specialize (Hc Hn).
  inversion Hp as [Hc0|j s s'' stop Hps Hit]; subst; [lia|].
  destruct (EM_passes_finite self xs g Hnc Hlen j s Hps) as (Hks & ws & ms & ss & Hf & _).
  pose proof Hf as (Hw & Hm & Hs & Hlw & Hlm & Hls & Hpw & Hpss).
  destruct (EM_fit_iteration_params _ _ _ _ _
              ltac:(rewrite Hw, length_map; exact Hlw)
              ltac:(rewrite Hm, length_map; exact Hlm)
              ltac:(rewrite Hs, length_map; exact Hls) Hit)
    as (_ & _ & Hw' & Hm' & Hs').
  destruct (EM_pass_finite s ws ms ss xs Hnc ltac:(lia) Hf)
    as (HE & _ & _ & _ & HW & HM & HS & _).
  rewrite HE in Hw', Hm', Hs'. rewrite HW in Hw'. rewrite HM in Hm'.
  rewrite HS in Hs'.
  rewrite Rresp_one_component in Hw', Hm', Hs' by (try assumption; lia).
  destruct (Rnew_one_component xs Hne) as (H1 & H2 & H3).
  rewrite H1 in Hw'. rewrite H2 in Hm'. rewrite H3 in Hs'.
  unfold EM.get_dist_params. now rewrite Hw', Hm', Hs'.
Qed.

End EMOneComponent.

(** ** Naive Bayes: what [predict] returns *)

Lemma argmax_from_bound (l : vec) : forall mp best i,
  best < i -> argmax_from mp best i l < i + length l.
Proof.
  induction l as [|x l IH]; intros mp best i Hb; cbn [argmax_from length]; [lia|].
  destruct (negb (fle x mp)).
  - destruct (isnan x); [lia|]. specialize (IH x i (S i)). lia.
  - specialize (IH mp best (S i)). lia.
Qed.

Lemma argmax_bound (l : vec) (i : nat) : argmax l = Some i -> i < length l.
Proof.
  destruct l as [|x l]; cbn [argmax length]; [discriminate|].
  intros [= <-]. destruct (isnan x); [lia|].
  pose proof (argmax_from_bound l x 0 1). lia.
Qed.

Lemma mapM_Forall2 {A B : Type} (f : A -> option B) (l : list A) : forall r,
  mapM f l = Some r -> Forall2 (fun a b => f a = Some b) l r.
Proof.
  induction l as [|a l IH]; intros r H; cbn in H.
  - injection H as <-. constructor.
  - destruct (f a) as [b|] eqn:Hf; [|discriminate]. cbn in H.
    destruct (mapM f l) as [bs|]; [|discriminate]. cbn in H.
    injection H as <-. constructor; [assumption|now apply IH].
Qed.

Lemma postiriors_matrix_eq (self : NB.t) (X : matrix) :
  NB.postiriors_matrix self X
  = mapM (NB.column_posterior self X) (dict_keys (NB.prior self)).
Proof.
  unfold NB.postiriors_matrix.
  assert (H : forall cs acc,
            foldM (fun cols c => col <- NB.column_posterior self X c ;;
                                 Some (cols ++ [col])) cs acc
            = (r <- mapM (NB.column_posterior self X) cs ;; Some (acc ++ r))).
  { induction cs as [|c cs IH]; intros acc; cbn [foldM mapM bind].
    - now rewrite app_nil_r.
    - destruct (NB.column_posterior self X c) as [col|]; cbn [bind]; [|reflexivity].
      rewrite IH. destruct (mapM _ cs) as [r|]; cbn [bind]; [|reflexivity].
      now rewrite <- app_assoc. }
  rewrite H. now destruct (mapM _ _).
Qed.

(** The matrix has one column per key of [prior], and a prediction is the
    index of a column. *)
Lemma predict_column_index (self : NB.t) (X : matrix) (preds : list Z) :
  NB.predict self X = Some preds ->
  exists cols,
    NB.postiriors_matrix self X = Some cols /\
    length cols = length (dict_keys (NB.prior self)) /\
    Forall (fun p => (0 <= p < Z.of_nat (length (dict_keys (NB.prior self))))%Z) preds.
Proof.
  unfold NB.predict. intros H.
  destruct (NB.postiriors_matrix self X) as [cols|] eqn:Hc; [|discriminate].
  cbn [bind] in H. exists cols. split; [reflexivity|].
  assert (Hlen : length cols = length (dict_keys (NB.prior self))).
  { rewrite postiriors_matrix_eq in Hc. apply mapM_Forall2 in Hc.
    symmetry. eapply Forall2_length; eassumption. }
  split; [assumption|].
  destruct (mapM _ (seq 0 (shape0 X))) as [idx|] eqn:Hidx; [|discriminate].
  cbn [bind] in H. destruct (length cols =? 0); [discriminate|].
  cbn [bind] in H. injection H as <-.
  apply mapM_Forall2 in Hidx. apply Forall_forall. intros p Hp.
  apply in_map_iff in Hp as (i & <- & Hi).
  assert (Hb : i < length cols).
  { clear - Hidx Hi. induction Hidx as [|r i' rs is' Hr _ IH]; [destruct Hi|].
    destruct Hi as [->|Hi]; [|now apply IH].
    apply argmax_bound in Hr. now rewrite length_map in Hr. }
  lia.
Qed.

(** Two classes, one feature, one component per mixture. *)
Definition posterior (x mu sigma p : R) : R :=
  (1 * (0 + 1 * Rnorm_pdf x mu sigma) * p)%R.

Lemma predict_two_classes (k : nat) (rs : N) (c1 c2 : Z) (p1 p2 m1 s1 m2 s2 x : R) :
  c1 <> c2 -> (0 < s1)%R -> (0 < s2)%R ->
  NB.predict
    (NB.mk k rs [(c1, Fin p1); (c2, Fin p2)]
           [(c1, [([Fin 1], [Fin m1], [Fin s1])]);
            (c2, [([Fin 1], [Fin m2], [Fin s2])])])
    [[Fin x]]
  = Some [if Rle_dec (posterior x m2 s2 p2) (posterior x m1 s1 p1)
          then 0%Z else 1%Z].
Proof.
  intros Hc Hs1 Hs2. unfold NB.predict, NB.postiriors_matrix, NB.column_posterior.
  cbn [NB.prior NB.dist_params dict_keys map fst foldM shape1 shape0 length seq
       dict_get column nth repeat].
  rewrite !Z.eqb_refl.
  destruct (Z.eqb_spec c1 c2) as [|_]; [contradiction|].
  cbn [bind getitem nth_error mapM gmm_pdf length seq foldM zipWith map app].
  rewrite !norm_pdf_Fin by assumption.
  cbn [fmul fadd bind app map nth Nat.eqb argmax isnan argmax_from fle negb].
  fold (posterior x m1 s1 p1) (posterior x m2 s2 p2).
  destruct (Rle_dec (posterior x m2 s2 p2) (posterior x m1 s1 p1)); reflexivity.
Qed.

(** ** A worked data set: one feature, two well separated groups *)

Definition X_two_groups : matrix := [[Fin 0]; [Fin 2]; [Fin 10]; [Fin 12]].

Lemma not_constant_pair (a b : R) : a <> b -> ~ constant [a; b].
Proof.
  intros Hab H. apply Hab, H; [now left|right; now left].
Qed.

Lemma Rmean_pair (a b : R) : Rmean [a; b] = ((a + b) / 2)%R.
Proof. unfold Rmean. rewrite !Rsum_cons, Rsum_nil. cbn [length INR]. lra. Qed.

Lemma Rstd_pair (a b : R) : (a < b)%R -> Rstd [a; b] = ((b - a) / 2)%R.
Proof.
  intros Hab. unfold Rstd.
  replace (Rmean (Rsquares (centered [a; b])))
    with (((b - a) / 2) * ((b - a) / 2))%R.
  - apply sqrt_square. lra.
  - unfold centered, Rsquares. cbn [map]. rewrite Rmean_pair.
    unfold Rmean. rewrite !Rsum_cons, Rsum_nil. cbn [length INR]. field.
Qed.

Section NBWorked.
Context {G : Generator}.

(** The mixtures of a class that has the two rows [a] and [b]. *)
Lemma class_params_pair (rs : N) (X : matrix) (y : list Z) (c : Z) (a b : R) :
  mask_rows X y c = [[Fin a]; [Fin b]] -> (a < b)%R ->
  class_params 1 rs X y c
  = Some [([Fin 1], [Fin ((a + b) / 2)], [Fin ((b - a) / 2)])].
Proof.
  intros Hmask Hab. unfold class_params. rewrite Hmask.
  cbn [shape1 length seq mapM column map nth]. unfold fitted_params.
  change [Fin a; Fin b] with (map Fin [a; b]).
  destruct (EM_fit_one_component
              (EM.mk 1 1000 (Fin (1 / 100)) rs [] [] [] [] []) [a; b]
              (rng_seed rs) eq_refl ltac:(cbn; lia)
              (not_constant_pair a b ltac:(lra)))
    as (self' & g' & Hfit & Hp).
  rewrite Hfit. cbn [option_map fst bind]. rewrite Hp.
  now rewrite Rmean_pair, Rstd_pair.
Qed.

Lemma class_prior_Fin (X : matrix) (y : list Z) (c : Z) :
  X <> [] ->
  class_prior X y c = Fin (INR (length (mask_rows X y c)) / INR (length X)).
Proof.
  intros HX. unfold class_prior, of_nat. apply fdiv_Fin.
  pose proof (INR_length_pos X HX). lra.
Qed.

(** Fitting a new instance (k = 1) on the four rows with two labels. *)
Lemma learn_two_groups (rs : N) (c1 c2 : Z) :
  (c1 < c2)%Z ->
  learn (NB.init 1 rs) X_two_groups [c1; c1; c2; c2]
  = Some (NB.mk 1 rs
            [(c1, Fin (2 / 4)); (c2, Fin (2 / 4))]
            [(c1, [([Fin 1], [Fin 1], [Fin 1])]);
             (c2, [([Fin 1], [Fin 11], [Fin 1])])]).
Proof.
  intros Hc. unfold learn.
  assert (Hu : unique [c1; c1; c2; c2] = [c1; c2]).
  { cbn. rewrite Z.ltb_irrefl, Z.eqb_refl. cbn.
    replace (c1 <? c2)%Z with true by (symmetry; apply Z.ltb_lt; lia).
    cbn. rewrite Z.ltb_irrefl, Z.eqb_refl. reflexivity. }
  rewrite Hu. cbn [foldM NB.init NB.k NB.random_state].
  assert (Hm1 : mask_rows X_two_groups [c1; c1; c2; c2] c1 = [[Fin 0]; [Fin 2]]).
  { unfold mask_rows, X_two_groups. cbn. rewrite Z.eqb_refl.
    replace (c2 =? c1)%Z with false by (symmetry; apply Z.eqb_neq; lia).
    reflexivity. }
  assert (Hm2 : mask_rows X_two_groups [c1; c1; c2; c2] c2 = [[Fin 10]; [Fin 12]]).
  { unfold mask_rows, X_two_groups. cbn. rewrite Z.eqb_refl.
    replace (c1 =? c2)%Z with false by (symmetry; apply Z.eqb_neq; lia).
    reflexivity. }
  rewrite (class_params_pair rs _ _ c1 0 2 Hm1) by lra. cbn [bind].
  cbn [store_class NB.init NB.k NB.random_state NB.prior NB.dist_params dict_set].
  rewrite (class_params_pair rs _ _ c2 10 12 Hm2) by lra. cbn [bind].
  cbn [store_class NB.init NB.k NB.random_state NB.prior NB.dist_params dict_set].
  rewrite !class_prior_Fin by discriminate. rewrite Hm1, Hm2.
  cbn [length X_two_groups INR].
  replace ((1 + 1) / (1 + 1 + 1 + 1))%R with (2 / 4)%R by lra.
  replace ((0 + 2) / 2)%R with 1%R by lra.
  replace ((2 - 0) / 2)%R with 1%R by lra.
  replace ((10 + 12) / 2)%R with 11%R by lra.
  replace ((12 - 10) / 2)%R with 1%R by lra.
  unfold store_class, NB.init.
  cbn [NB.k NB.random_state NB.prior NB.dist_params dict_set].
  replace (c1 =? c2)%Z with false by (symmetry; apply Z.eqb_neq; lia).
  reflexivity.
Qed.

End NBWorked.

(** Densities at the same deviation: the farther mean gives the smaller. *)
Lemma Rnorm_pdf_farther (x m1 m2 s : R) :
  (0 < s)%R -> ((x - m2) * (x - m2) <= (x - m1) * (x - m1))%R ->
  (Rnorm_pdf x m1 s <= Rnorm_pdf x m2 s)%R.
Proof.
  intros Hs Hd. unfold Rnorm_pdf. pose proof sqrt_2PI_pos as Hp.
  apply Rmult_le_compat_l.
  - apply Rlt_le, Rdiv_lt_0_compat; [lra|nra].
  - assert (Hden : (0 < 2 * (s * s))%R) by nra.
    destruct (Rle_lt_or_eq_dec _ _ Hd) as [Hlt|Heq].
    + apply Rlt_le, exp_increasing. unfold Rdiv.
      apply Rmult_lt_compat_r; [now apply Rinv_0_lt_compat|lra].
    + rewrite Heq. lra.
Qed.

Lemma exp_minus_50 : (exp (- (50)) < 1 / 2)%R.
Proof.
  rewrite exp_Ropp. pose proof (exp_ineq1 50 ltac:(lra)) as H.
  assert (H0 : (0 < exp 50)%R) by apply exp_pos.
  apply (Rmult_lt_reg_r (exp 50)); [assumption|].
  rewrite Rinv_l by lra. lra.
Qed.

Lemma Rnorm_pdf_at_mean (x s : R) :
  Rnorm_pdf x x s = (1 / (s * sqrt (2 * PI)))%R.
Proof.
  unfold Rnorm_pdf. replace (- ((x - x) * (x - x)) / (2 * (s * s)))%R with 0%R.
  - rewrite exp_0. lra.
  - unfold Rdiv. replace ((x - x) * (x - x))%R with 0%R by lra.
    now rewrite Ropp_0, Rmult_0_l.
Qed.

Section NBClaims.
Context {G : Generator}.

Lemma fit_of_learn (self st : NB.t) (X : matrix) (y : list Z) (g : rng) :
  learn self X y = Some st -> exists g', NB.fit self X y g = Some (st, g').
Proof.
  intros H. rewrite <- (fit_learn self X y g) in H.
  destruct (NB.fit self X y g) as [[st' g']|]; [|discriminate].
  cbn in H. injection H as ->. now exists g'.
Qed.

(** C1 fails on the code: [predict] returns the index of the winning
    column of the posterior matrix, not the class label of that column.
    Fitted on the labels 5 and 7, the classifier answers 0 for a point of
    class 5. *)
Theorem predict_returns_column_index (g : rng) :
  exists st g',
    NB.fit (NB.init 1 1991) X_two_groups [5; 5; 7; 7]%Z g = Some (st, g') /\
    dict_keys (NB.prior st) = [5; 7]%Z /\
    NB.predict st [[Fin 1]] = Some [0%Z] /\
    ~ In 0%Z [5; 5; 7; 7]%Z.
Proof.
  destruct (fit_of_learn _ _ _ _ g (learn_two_groups 1991 5 7 ltac:(lia)))
    as (g' & Hfit).
  eexists _, g'. split; [exact Hfit|]. split; [reflexivity|]. split.
  - rewrite predict_two_classes by (try lra; discriminate).
    destruct (Rle_dec _ _) as [_|Hn]; [reflexivity|]. exfalso. apply Hn.
    unfold posterior.
    pose proof (Rnorm_pdf_farther 1 11 1 1 ltac:(lra) ltac:(lra)) as H. lra.
  - cbn. intros [H|[H|[H|[H|[]]]]]; discriminate.
Qed.

(** C9.  A second [fit] whose labels omit a class leaves the entries of that
    class in [prior] and [dist_params] as they were and keeps its key;
    [predict] still builds one posterior column per key, the stale one
    included, and can return it: after a first fit on the classes 0 and 1
    and a second on class 0 alone, a point at the mean of the old class 1
    is answered 1. *)
Theorem stale_class_survives_refit :
  (forall self X y g self' g' c,
     NB.fit self X y g = Some (self', g') -> ~ In c y ->
     dict_get (NB.prior self') c = dict_get (NB.prior self) c /\
     dict_get (NB.dist_params self') c = dict_get (NB.dist_params self) c /\
     (In c (dict_keys (NB.prior self)) -> In c (dict_keys (NB.prior self')))) /\
  (forall self X preds,
     NB.predict self X = Some preds ->
     exists cols, NB.postiriors_matrix self X = Some cols /\
                  length cols = length (dict_keys (NB.prior self))) /\
  (forall g, exists st1 st2 ga gb,
     NB.fit (NB.init 1 1991) X_two_groups [0; 0; 1; 1]%Z g = Some (st1, ga) /\
     NB.fit st1 [[Fin 0]; [Fin 2]] [0; 0]%Z ga = Some (st2, gb) /\
     dict_keys (NB.prior st2) = [0; 1]%Z /\
     dict_get (NB.prior st2) 1%Z = dict_get (NB.prior st1) 1%Z /\
     dict_get (NB.dist_params st2) 1%Z = dict_get (NB.dist_params st1) 1%Z /\
     NB.predict st2 [[Fin 11]] = Some [1%Z]).
Proof.
  split; [|split].
  - intros self X y g self' g' c Hfit Hc.
    assert (Hl : learn self X y = Some self')
      by (rewrite <- (fit_learn self X y g), Hfit; reflexivity).
    destruct (learn_loop_spec X y _ _ _ Hl) as (_ & _ & Hframe & Hkeys & _).
    destruct (Hframe c) as [H1 H2]; [now rewrite unique_In|].
    split; [assumption|]. split; [assumption|apply Hkeys].
  - intros self X preds Hp.
    destruct (predict_column_index self X preds Hp) as (cols & Hc & Hl & _).
    now exists cols.
  - intros g.
    destruct (fit_of_learn _ _ _ _ g (learn_two_groups 1991 0 1 ltac:(lia)))
      as (ga & Hfit1).
    set (st1 := NB.mk 1 1991 _ _) in Hfit1.
    assert (Hl2 : learn st1 [[Fin 0]; [Fin 2]] [0; 0]%Z
                  = Some (NB.mk 1 1991
                            [(0%Z, Fin (2 / 2)); (1%Z, Fin (2 / 4))]
                            [(0%Z, [([Fin 1], [Fin 1], [Fin 1])]);
                             (1%Z, [([Fin 1], [Fin 11], [Fin 1])])])).
    { unfold learn. cbn [unique fold_right insert_unique Z.ltb Z.eqb Z.compare foldM].
      cbn [st1 NB.k NB.random_state].
      rewrite (class_params_pair 1991 [[Fin 0]; [Fin 2]] [0; 0]%Z 0%Z 0 2 eq_refl)
        by lra.
      cbn [bind].
      rewrite class_prior_Fin by discriminate.
      cbn [mask_rows combine filter snd Z.eqb map fst length INR].
      replace ((1 + 1) / (1 + 1))%R with (2 / 2)%R by lra.
      replace ((0 + 2) / 2)%R with 1%R by lra.
      replace ((2 - 0) / 2)%R with 1%R by lra. reflexivity. }
    destruct (fit_of_learn _ _ _ _ ga Hl2) as (gb & Hfit2).
    eexists st1, _, ga, gb. split; [exact Hfit1|]. split; [exact Hfit2|].
    split; [reflexivity|]. split; [reflexivity|]. split; [reflexivity|].
    rewrite predict_two_classes by (try lra; discriminate).
    destruct (Rle_dec _ _) as [Hle|_]; [|reflexivity]. exfalso.
    unfold posterior in Hle. rewrite Rnorm_pdf_at_mean in Hle.
    unfold Rnorm_pdf in Hle. pose proof sqrt_2PI_pos as Hp.
    replace (- ((11 - 1) * (11 - 1)) / (2 * (1 * 1)))%R with (- (50))%R in Hle by lra.
    pose proof exp_minus_50 as He.
    assert (Hc : (0 < 1 / (1 * sqrt (2 * PI)))%R)
      by (apply Rdiv_lt_0_compat; lra).
    nra.
Qed.

End NBClaims.

(** ** A single pass of EM from a given start *)

Section EMSinglePass.
Context {G : Generator}.

(** With [n_iter = 1] the mixture [fit] returns is one E step and one M step
    away from the start [init_params] drew. *)
Lemma EM_fit_single_pass (self : EM.t) (xs ws ms ss : list R) (g : rng) :
  EM.n_iter self = 1 -> ~ constant xs -> 1 <= EM.k self <= length xs ->
  finite_params (EM_start self (map Fin xs) g) ws ms ss ->
  exists self',
    EM.fit self (map Fin xs) g
    = Some (self', snd (rng_choice (length xs) (EM.k self) g)) /\
    EM.k self' = EM.k self /\ EM.n_iter self' = 1 /\
    EM.get_dist_params self'
    = (map Fin (Rnew_weights (Rresp ws ms ss xs)),
       map Fin (Rnew_mus (Rresp ws ms ss xs) xs),
       map Fin (Rnew_sigmas (Rresp ws ms ss xs) xs)).
Proof.
  intros Hn Hnc Hk Hf.
  pose proof Hf as (Hw & Hm & Hs & Hlw & Hlm & Hls & _ & _).
  assert (Hks : EM.k (EM_start self (map Fin xs) g) = EM.k self) by reflexivity.
  unfold EM.fit. rewrite EM_init_params_eq by (rewrite length_map; lia).
  cbn [bind].
  replace (EM.n_iter (EM_start self (map Fin xs) g)) with 1 by (symmetry; exact Hn).
  unfold for_range. cbn [for_range_count].
  rewrite EM_fit_iteration_eq;
    [|rewrite ?Hw, ?Hm, ?Hs, length_map; assumption ..|lia].
  destruct (EM_pass_finite _ ws ms ss xs Hnc ltac:(rewrite Hks; lia) Hf)
    as (HE & _ & _ & _ & HW & HM & HS & _).
  rewrite HE, HW, HM, HS. rewrite length_map.
  cbn [Nat.ltb Nat.leb andb option_map fst snd].
  eexists. split; [reflexivity|].
  cbn [EM.k EM.n_iter EM.get_dist_params EM.weights EM.mus EM.sigmas
       EM_start EM.set_params].
  split; [reflexivity|]. split; [assumption|reflexivity].
Qed.

End EMSinglePass.

(** The first new mean after one pass on two points with two components. *)
Lemma Rnew_mu0_two_points (w0 w1 m0 m1 s0 s1 a b : R) :
  nth 0 (Rnew_mus (Rresp [w0; w1] [m0; m1] [s0; s1] [a; b]) [a; b]) 0%R
  = (let p00 := Rnorm_pdf a m0 s0 in let p01 := Rnorm_pdf a m1 s1 in
     let p10 := Rnorm_pdf b m0 s0 in let p11 := Rnorm_pdf b m1 s1 in
     1 / ((1 + 1) * ((w0 * p00 / (0 + w0 * p00 + w1 * p01)
                      + (w0 * p10 / (0 + w0 * p10 + w1 * p11) + 0)) / (1 + 1)))
     * (w0 * p00 / (0 + w0 * p00 + w1 * p01) * a
        + (w0 * p10 / (0 + w0 * p10 + w1 * p11) * b + 0)))%R.
Proof.
  unfold Rnew_mus, Rresp, Rlikelihood, Rnormalize, Rrow_sums, Rnew_weights,
    Rcol, Rdot, Rmean.
  cbn [length seq map nth zipWith fold_left repeat INR].
  rewrite !Rsum_cons, !Rsum_nil. reflexivity.
Qed.

Lemma Rnorm_pdf_two_apart (x mu : R) :
  ((x - mu) * (x - mu) = 4)%R ->
  Rnorm_pdf x mu 1 = (1 / (1 * sqrt (2 * PI)) * exp (- (2)))%R.
Proof.
  intros H. unfold Rnorm_pdf. rewrite H. f_equal. f_equal. lra.
Qed.

Lemma exp_minus_2 : (0 < exp (- (2)) < 1)%R.
Proof.
  split; [apply exp_pos|]. rewrite <- exp_0. apply exp_increasing. lra.
Qed.

(** From the means (0, 2) the first component stays with the point 0, from
    (2, 0) with the point 2: the first new mean is below 1, resp. above. *)
Lemma Rnew_mu0_front :
  (nth 0 (Rnew_mus (Rresp [1 / 2; 1 / 2] [0; 2] [1; 1] [0; 2]) [0; 2]) 0 < 1)%R.
Proof.
  rewrite Rnew_mu0_two_points. cbv zeta.
  rewrite !Rnorm_pdf_at_mean, !Rnorm_pdf_two_apart by lra.
  pose proof sqrt_2PI_pos as Hp. pose proof exp_minus_2 as [He0 He1].
  set (e := exp (- (2))) in *. set (q := sqrt (2 * PI)) in *.
  replace (1 / ((1 + 1) * ((1 / 2 * (1 / (1 * q)) / (0 + 1 / 2 * (1 / (1 * q)) + 1 / 2 * (1 / (1 * q) * e))
                      + (1 / 2 * (1 / (1 * q) * e) / (0 + 1 / 2 * (1 / (1 * q) * e) + 1 / 2 * (1 / (1 * q))) + 0)) / (1 + 1)))
     * (1 / 2 * (1 / (1 * q)) / (0 + 1 / 2 * (1 / (1 * q)) + 1 / 2 * (1 / (1 * q) * e)) * 0
        + (1 / 2 * (1 / (1 * q) * e) / (0 + 1 / 2 * (1 / (1 * q) * e) + 1 / 2 * (1 / (1 * q))) * 2 + 0)))%R
    with (2 * e / (1 + e))%R
    by (field; repeat split; nra).
  apply (Rmult_lt_reg_r (1 + e)); [lra|]. unfold Rdiv.
  rewrite Rmult_assoc, Rinv_l by lra. lra.
Qed.

Lemma Rnew_mu0_back :
  (1 < nth 0 (Rnew_mus (Rresp [1 / 2; 1 / 2] [2; 0] [1; 1] [0; 2]) [0; 2]) 0)%R.
Proof.
  rewrite Rnew_mu0_two_points. cbv zeta.
  rewrite !Rnorm_pdf_at_mean, !Rnorm_pdf_two_apart by lra.
  pose proof sqrt_2PI_pos as Hp. pose proof exp_minus_2 as [He0 He1].
  set (e := exp (- (2))) in *. set (q := sqrt (2 * PI)) in *.
  replace (1 / ((1 + 1) * ((1 / 2 * (1 / (1 * q) * e) / (0 + 1 / 2 * (1 / (1 * q) * e) + 1 / 2 * (1 / (1 * q)))
                      + (1 / 2 * (1 / (1 * q)) / (0 + 1 / 2 * (1 / (1 * q)) + 1 / 2 * (1 / (1 * q) * e)) + 0)) / (1 + 1)))
     * (1 / 2 * (1 / (1 * q) * e) / (0 + 1 / 2 * (1 / (1 * q) * e) + 1 / 2 * (1 / (1 * q))) * 0
        + (1 / 2 * (1 / (1 * q)) / (0 + 1 / 2 * (1 / (1 * q)) + 1 / 2 * (1 / (1 * q) * e)) * 2 + 0)))%R
    with (2 / (1 + e))%R
    by (field; repeat split; nra).
  apply (Rmult_lt_reg_r (1 + e)); [lra|]. unfold Rdiv.
  rewrite Rmult_assoc, Rinv_l by lra. lra.
Qed.

Lemma Fin_inj (a b : R) : Fin a = Fin b -> a = b.
Proof. now intros [= ->]. Qed.

Section EMTwoPoints.
Context {G : Generator}.

(** The start [init_params] draws on the points 0 and 2 with [k = 2]. *)
Lemma EM_start_two_points (self : EM.t) (g : rng) (i j : nat) :
  EM.k self = 2 -> fst (rng_choice 2 2 g) = [i; j] ->
  finite_params (EM_start self (map Fin [0; 2]%R) g)
    [1 / 2; 1 / 2]%R [nth i [0; 2]%R 0%R; nth j [0; 2]%R 0%R] [1; 1]%R.
Proof.
  intros Hk Hc. unfold finite_params, EM_start.
  cbn [EM.set_params EM.weights EM.mus EM.sigmas EM.k]. rewrite Hk.
  cbn [length map repeat]. rewrite Hc. cbn [map].
  split.
  { unfold of_nat. cbn [INR]. rewrite fdiv_Fin by lra.
    replace (1 / (1 + 1))%R with (1 / 2)%R by lra. reflexivity. }
  split.
  { assert (Hr : forall n, n < 2 -> nth n [Fin 0; Fin 2] NaN = Fin (nth n [0; 2]%R 0%R)).
    { intros [|[|n]] Hn; [reflexivity|reflexivity|lia]. }
    destruct (rng_choice_range 2 2 g (le_n 2)) as [_ Hr2]. rewrite Hc in Hr2.
    inversion Hr2 as [|? ? Hi Hr3]; subst. inversion Hr3 as [|? ? Hj _]; subst.
    now rewrite !Hr by assumption. }
  split.
  { change [Fin 0; Fin 2] with (map Fin [0; 2]%R). rewrite std_Fin by discriminate.
    rewrite Rstd_pair by lra. replace ((2 - 0) / 2)%R with 1%R by lra. reflexivity. }
  split; [reflexivity|]. split; [reflexivity|]. split; [reflexivity|].
  split; repeat constructor; lra.
Qed.

End EMTwoPoints.

Section Reproducible.
Context {G : Generator}.

(** C6, as the code has it.  [LogisticRegressionGD.fit] seeds the generator
    at the start of every call, and [NaiveBayesGaussian.fit] constructs, and
    so seeds, a new [EM] for every class and feature: a second [fit] of the
    same instance on the same data learns the same parameters, whatever the
    state of the generator.  [EM] seeds in [__init__] only: an instance
    constructed anew with the same arguments learns the same mixture, and a
    second [fit] of the same instance does when the generator is in the same
    state as at the first. *)
Theorem fit_reproducible_from_seed :
  (forall (self : LR.t) X y g g', exists s1 s2 ga,
     LR.fit self X y g = Some (s1, ga) /\ LR.fit s1 X y g' = Some (s2, ga) /\
     LR.theta s2 = LR.theta s1) /\
  (forall (self : NB.t) X y g g' s1 ga,
     NB.fit self X y g = Some (s1, ga) ->
     exists s2 gb, NB.fit s1 X y g' = Some (s2, gb) /\
                   NB.prior s2 = NB.prior s1 /\
                   NB.dist_params s2 = NB.dist_params s1) /\
  (forall k n_iter eps random_state data g g',
     k <= length data ->
     exists s1 s2 ga,
       EM.fit (fst (EM.init k n_iter eps random_state g)) data
              (snd (EM.init k n_iter eps random_state g)) = Some (s1, ga) /\
       EM.fit (fst (EM.init k n_iter eps random_state g')) data
              (snd (EM.init k n_iter eps random_state g')) = Some (s2, ga) /\
       EM.get_dist_params s1 = EM.get_dist_params s2) /\
  (forall (self : EM.t) data g,
     EM.k self <= length data ->
     exists s1 s2 ga,
       EM.fit self data g = Some (s1, ga) /\ EM.fit s1 data g = Some (s2, ga) /\
       EM.get_dist_params s2 = EM.get_dist_params s1).
Proof.
  split; [|split; [|split]].
  - intros self X y g g'.
    destruct (LR_fit_spec self X y g)
      as (s1 & c & new & ths & Hfit & _ & _ & _ & _ & _ & _ & He & Hn & Hp & Hr & _).
    destruct (LR_fit_theta self s1 X y g g')
      as (s1' & s2 & ga & Hfit1 & Hfit2 & Hth); try (symmetry; assumption).
    rewrite Hfit in Hfit1. injection Hfit1 as <- <-.
    exists s1, s2, (LR_rng_after self X).
    split; [exact Hfit|]. split; [exact Hfit2|]. now symmetry.
  - intros self X y g g' s1 ga Hfit.
    assert (Hl : learn self X y = Some s1)
      by (rewrite <- (fit_learn self X y g), Hfit; reflexivity).
    pose proof (learn_idempotent self s1 X y Hl) as Hl2.
    rewrite <- (fit_learn s1 X y g') in Hl2.
    destruct (NB.fit s1 X y g') as [[s2 gb]|]; [|discriminate].
    cbn in Hl2. injection Hl2 as ->. exists s1, gb.
    split; [reflexivity|]. split; reflexivity.
  - intros k n_iter eps random_state data g g' Hk. cbn [EM.init fst snd].
    destruct (EM_fit_params (EM.mk k n_iter eps random_state [] [] [] [] [])
                (EM.mk k n_iter eps random_state [] [] [] [] []) data
                (rng_seed random_state) eq_refl eq_refl eq_refl Hk)
      as (s1 & s2 & ga & H1 & H2 & He).
    now exists s1, s2, ga.
  - intros self data g Hk.
    destruct (EM_fit_spec self data g Hk)
      as (s1 & c & new & Hfit & _ & _ & _ & _ & (Hk1 & Hn1 & He1 & _) & _).
    destruct (EM_fit_params self s1 data g)
      as (s1' & s2 & ga & Hfit1 & Hfit2 & Hp); try (symmetry; assumption);
      [assumption|].
    rewrite Hfit in Hfit1. injection Hfit1 as <- <-.
    exists s1, s2, (snd (rng_choice (length data) (EM.k self) g)).
    split; [exact Hfit|]. split; [exact Hfit2|]. now symmetry.
Qed.

End Reproducible.

(** ** A concrete generator *)

(** A concrete generator, to instantiate the development: the state counts
    the draws; even states read from the front, odd ones from the back. *)
Definition toy_random (n : nat) (g : nat) : list R * nat :=
  (repeat (1 / 2)%R n, S g).

Definition toy_permutation (n : nat) (g : nat) : list nat * nat :=
  (if Nat.even g then seq 0 n else rev (seq 0 n), S g).

Definition toy_choice (n k : nat) (g : nat) : list nat * nat :=
  (if Nat.even g then seq 0 k else map (fun j => n - 1 - j) (seq 0 k), S g).

Lemma toy_permutation_range n g :
  Permutation (fst (toy_permutation n g)) (seq 0 n).
Proof.
  unfold toy_permutation; cbn. destruct (Nat.even g); [reflexivity|].
  symmetry. apply Permutation_rev.
Qed.

Lemma toy_choice_range n k g :
  k <= n ->
  length (fst (toy_choice n k g)) = k /\
  Forall (fun i => i < n) (fst (toy_choice n k g)).
Proof.
  intros Hk. unfold toy_choice; cbn. destruct (Nat.even g).
  - rewrite length_seq. split; [reflexivity|].
    apply Forall_forall. intros i Hi. apply in_seq in Hi. lia.
  - rewrite length_map, length_seq. split; [reflexivity|].
    apply Forall_forall. intros i Hi. apply in_map_iff in Hi as (j & <- & Hj).
    apply in_seq in Hj. lia.
Qed.

Definition toy_generator : Generator :=
  {| rng := nat;
     rng_seed := N.to_nat;
     rng_random := toy_random;
     rng_permutation := toy_permutation;
     rng_choice := toy_choice;
     rng_permutation_range := toy_permutation_range;
     rng_choice_range := toy_choice_range |}.

(** ** Instances of the theorems above *)

Definition lr0 : LR.t := LR.init (Fin (1 / 2)) 3 (Fin (1 / 100)) 1.
Definition em0 : EM.t := EM.mk 1 3 (Fin (1 / 100)) 0 [] [] [] [] [].
Definition X0 : matrix := [[Fin 0]; [Fin 2]].
Definition y0 : list Z := [0%Z; 1%Z].
Definition data0 : vec := [Fin 0; Fin 2].

Lemma early_stop_condition_witness :
  EM.k em0 <= length data0 /\
  (exists lr' g' costs,
     @LR.fit toy_generator lr0 X0 y0 0 = Some (lr', g') /\
     stops_exactly_when (LR.eps lr0) (LR.n_iter lr0) costs) /\
  (exists em' g' costs,
     @EM.fit toy_generator em0 data0 0 = Some (em', g') /\
     stops_exactly_when (EM.eps em0) (EM.n_iter em0) costs).
Proof.
  assert (H : EM.k em0 <= length data0) by (cbn; lia).
  split; [exact H|].
  destruct (@early_stop_condition toy_generator lr0 X0 y0 0 em0 data0 0 H)
    as [(lr' & g' & c & Hf & _ & _ & Hs & _) (em' & g'' & c' & Hf' & _ & _ & Hs' & _)].
  split; [exists lr', g', c|exists em', g'', c']; now split.
Defined.

Lemma fit_appends_to_history_witness :
  EM.k em0 <= length data0 /\
  exists em1 em2 ga gb C1 C2,
    @EM.fit toy_generator em0 data0 0 = Some (em1, ga) /\
    @EM.fit toy_generator em1 data0 ga = Some (em2, gb) /\
    EM.costs em2 = C1 ++ C2.
Proof.
  assert (H : EM.k em0 <= length data0) by (cbn; lia).
  split; [exact H|].
  destruct (@fit_appends_to_history toy_generator lr0 X0 X0 y0 y0 0 0
              em0 data0 data0 0 1 H H)
    as [_ (em1 & em2 & ga & gb & C1 & C2 & H1 & H2 & _ & _ & _ & H3 & _)].
  pose proof (@EM_fit_spec toy_generator em0 data0 0 H) as (e & c & n & Hf & _).
  rewrite Hf in H1. injection H1 as <- <-. cbn in H2.
  exists e, em2, 1, gb, C1, C2. split; [exact Hf|]. split; [exact H2|exact H3].
Defined.

Lemma maximization_order_witness :
  let self := EM.mk 1 3 (Fin (1 / 100)) 0 [[Fin 1; Fin 1]] [] [] [Fin 1] [] in
  exists self',
    EM.maximization self data0 = Some self' /\
    nth 0 (EM.weights self') NaN = mean [Fin 1; Fin 1].
Proof.
  cbv zeta.
  destruct (maximization_order
              (EM.mk 1 3 (Fin (1 / 100)) 0 [[Fin 1; Fin 1]] [] [] [Fin 1] [])
              data0 0 eq_refl eq_refl (le_n 1))
    as (self' & Hm & Hw & _).
  exists self'. split; [exact Hm|exact Hw].
Defined.

Lemma not_constant_01 : ~ constant [0%R; 1%R].
Proof.
  intros H. specialize (H 0%R 1%R (or_introl eq_refl) (or_intror (or_introl eq_refl))).
  lra.
Qed.

Lemma pearson_correlation_integer_data_witness :
  length [1%Z; 1%Z] = length [0%Z; 1%Z] /\
  pearson_correlation (map of_Z [1%Z; 1%Z]) (map of_Z [0%Z; 1%Z]) = NaN.
Proof.
  split; [reflexivity|].
  assert (H1 : (Z.of_nat (length [1%Z; 1%Z]) <= 1000000)%Z) by (cbn; lia).
  assert (H2 : Forall (fun z => (Z.abs z <= 1000000)%Z) [1%Z; 1%Z])
    by (repeat constructor; cbn; lia).
  assert (H3 : Forall (fun z => (Z.abs z <= 1000000)%Z) [0%Z; 1%Z])
    by (repeat constructor; cbn; lia).
  apply (proj1 (pearson_correlation_integer_data [1%Z; 1%Z] [0%Z; 1%Z]
                  eq_refl H1 H2 H3)).
  left. intros a b [<-|[<-|[]]] [<-|[<-|[]]]; reflexivity.
Defined.

(** 0.1: the double nearest to one tenth. *)
Definition tenth : F64.float := PrimFloat.div (F64.of_nat 1) (F64.of_nat 10).

(** C7 as stated fails on a constant vector whose mean is rounded.  The mean
    of [0.1, 0.1, 0.1] is 0.10000000000000002, not 0.1, so the centred
    entries are not 0 and, against [1, 2, 4], the result is a finite positive
    number (about 1.19e-16), not nan. *)
Lemma pearson_correlation_constant_finite :
  F64.is_finite
    (F64.pearson_correlation [tenth; tenth; tenth]
                             [F64.of_nat 1; F64.of_nat 2; F64.of_nat 4]) = true /\
  PrimFloat.ltb PrimFloat.zero
    (F64.pearson_correlation [tenth; tenth; tenth]
                             [F64.of_nat 1; F64.of_nat 2; F64.of_nat 4]) = true /\
  PrimFloat.eqb (F64.mean [tenth; tenth; tenth]) tenth = false.
Proof. vm_compute. repeat split. Qed.

(** On a constant vector of integers the mean is exact and the same
    computation is [0 / 0]. *)
Lemma pearson_correlation_constant_integers :
  PrimFloat.is_nan
    (F64.pearson_correlation [F64.of_nat 3; F64.of_nat 3; F64.of_nat 3]
                             [F64.of_nat 1; F64.of_nat 2; F64.of_nat 4]) = true.
Proof. vm_compute. reflexivity. Qed.

(** A table of two columns whose values are already numbers. *)
Definition table0 : DataFrame vec :=
  [("date"%string, map Fin [0%R; 1%R]); ("sqft"%string, map Fin [0%R; 1%R])].

Lemma feature_selection_ranking_witness :
  exists picks,
    feature_selection vec (fun s => s) (fun s => s) table0 (map Fin [0%R; 1%R]) 1
    = Some (map (fun i => nth i (columns vec table0) ""%string) picks, table0) /\
    length picks = 1.
Proof.
  assert (Hnd : NoDup (columns vec table0)).
  { cbn. constructor; [intros [H|[]]; discriminate|].
    constructor; [intros []|constructor]. }
  assert (Hnan : Forall (fun k => isnan k = false)
            (map snd (abs_correlations vec (fun s => s)
                        (df_set vec table0 "date" (map Fin [0%R; 1%R]))
                        (map Fin [0%R; 1%R])))).
  { cbn [table0 df_set String.eqb Ascii.eqb Bool.eqb abs_correlations map fst snd].
    change [Fin 0%R; Fin 1%R] with (map Fin [0%R; 1%R]).
    rewrite (pearson_correlation_defined _ _ not_constant_01 not_constant_01).
    repeat constructor. }
  destruct (feature_selection_ranking vec (fun s => s) (fun s => s) table0
              (map Fin [0%R; 1%R]) 1 (map Fin [0%R; 1%R]) Hnd eq_refl Hnan)
    as (picks & Hfs & Hlen & _).
  exists picks. split; [exact Hfs|exact Hlen].
Defined.

(** A table whose date column is constant. *)
Definition table_nan : DataFrame vec :=
  [("date"%string, map Fin [3%R; 3%R]); ("sqft"%string, map Fin [0%R; 1%R])].

(** C8 as stated fails on a table with a constant column.  The correlation
    of that column is nan, no comparison with a nan key is true, and the
    sort leaves the column in front: asked for one feature, the function
    returns the constant column and not the one of absolute correlation 1. *)
Lemma feature_selection_nan_first :
  feature_selection vec (fun s => s) (fun s => s) table_nan (map Fin [0%R; 1%R]) 1
  = Some (["date"%string], table_nan) /\
  fabs (pearson_correlation (map Fin [3%R; 3%R]) (map Fin [0%R; 1%R])) = NaN /\
  fabs (pearson_correlation (map Fin [0%R; 1%R]) (map Fin [0%R; 1%R])) = Fin 1.
Proof.
  assert (Hd : pearson_correlation (map Fin [3%R; 3%R]) (map Fin [0%R; 1%R]) = NaN).
  { apply pearson_correlation_undefined; [reflexivity|]. left.
    intros a b [<-|[<-|[]]] [<-|[<-|[]]]; reflexivity. }
  assert (Hs : pearson_correlation (map Fin [0%R; 1%R]) (map Fin [0%R; 1%R]) = Fin 1).
  { rewrite (pearson_correlation_defined _ _ not_constant_01 not_constant_01).
    f_equal. unfold centered, Rsquares, Rmean. cbn [map zipWith length INR].
    rewrite !Rsum_cons, !Rsum_nil.
    replace ((0 - (0 + (1 + 0)) / (1 + 1)) * (0 - (0 + (1 + 0)) / (1 + 1)) +
             ((1 - (0 + (1 + 0)) / (1 + 1)) * (1 - (0 + (1 + 0)) / (1 + 1)) + 0))%R
      with (1 / 2)%R by field.
    assert (H : (sqrt (1 / 2) * sqrt (1 / 2) = 1 / 2)%R) by (apply sqrt_sqrt; lra).
    rewrite H. field. }
  split; [|split; [now rewrite Hd|now rewrite Hs; cbn; rewrite Rabs_R1]].
  unfold feature_selection, table_nan.
  cbn [df_get df_set String.eqb Ascii.eqb Bool.eqb bind columns map fst foldM app].
  change [Fin 3%R; Fin 3%R] with (map Fin [3%R; 3%R]).
  change [Fin 0%R; Fin 1%R] with (map Fin [0%R; 1%R]).
  rewrite Hd, Hs. cbn [fabs bind sort_desc fold_right insert_desc snd flt negb firstn map fst].
  reflexivity.
Qed.

Lemma cross_validation_partition_witness :
  2 <= 2 <= length X0 /\ length y0 = length X0 /\
  forall i, 1 <= i <= 2 -> length (test_list (length X0) 2 i) = (length X0 / 2)%nat.
Proof.
  assert (H1 : 2 <= 2 <= length X0) by (cbn; lia).
  assert (H2 : length y0 = length X0) by reflexivity.
  split; [exact H1|]. split; [exact H2|].
  destruct (@cross_validation_partition toy_generator LR.t
              LogisticRegressionGD_Classifier X0 y0 2 lr0 0%N 0 H1 H2)
    as (Hblock & _).
  intros i Hi. apply Hblock. exact Hi.
Defined.

(** ** Degenerate data *)

Lemma fdiv_by_zero (x y : R) : y = 0%R -> (Fin x / Fin y)%num = inf_times true x.
Proof. intros ->. cbn. destruct (Req_dec_T 0 0); [reflexivity|contradiction]. Qed.

Lemma inf_times_zero (b : bool) : inf_times b 0 = NaN.
Proof. unfold inf_times. destruct (Req_dec_T 0 0); [reflexivity|contradiction]. Qed.

Lemma inf_times_pos (x : R) : (0 < x)%R -> inf_times true x = PInf.
Proof.
  intros Hx. unfold inf_times. destruct (Req_dec_T x 0); [lra|].
  destruct (Rlt_dec 0 x); [reflexivity|contradiction].
Qed.

Lemma inf_times_neg (x : R) : (x < 0)%R -> inf_times true x = NInf.
Proof.
  intros Hx. unfold inf_times. destruct (Req_dec_T x 0); [lra|].
  destruct (Rlt_dec 0 x); [lra|reflexivity].
Qed.

(** With a zero deviation the density is [inf * 0] or [inf * nan]. *)
Lemma norm_pdf_sigma_zero (x mu : R) : norm_pdf (Fin x) (Fin mu) (Fin 0) = NaN.
Proof.
  unfold norm_pdf, pi. cbn [fmul fsub fneg fadd fsquare].
  rewrite fsqrt_Fin by (pose proof PI_RGT_0; lra). cbn [fmul].
  rewrite (fdiv_by_zero 1) by lra. rewrite inf_times_pos by lra.
  rewrite fdiv_by_zero by lra.
  destruct (Req_dec_T x mu) as [->|Hne].
  - replace (- ((mu + - mu) * (mu + - mu)))%R with 0%R by lra.
    rewrite inf_times_zero. reflexivity.
  - rewrite inf_times_neg.
    + cbn. apply inf_times_zero.
    + assert (0 < (x + - mu) * (x + - mu))%R by (apply Rsqr_pos_lt; lra). lra.
Qed.

Lemma fmul_NaN_r (a : number) : (a * NaN)%num = NaN.
Proof. now destruct a. Qed.

Lemma constant_33 : constant [3%R; 3%R].
Proof. intros a b [<-|[<-|[]]] [<-|[<-|[]]]; reflexivity. Qed.

(** C5 as stated fails on data with zero variance: the initial deviation is
    0, the first E step divides by it, and the rows of the responsibility
    matrix are nan. *)
Lemma EM_rows_nan_on_constant_data :
  let self := EM.mk 1 1000 (Fin (1 / 100)) 0 [] [] [] [] [] in
  let data := [Fin 3; Fin 3] in
  exists start g_start s_e,
    @EM.init_params toy_generator self data 0 = Some (start, g_start) /\
    EM.expectation start data = Some s_e /\
    sum (map (fun col => nth 0 col NaN) (EM.responsibilities s_e)) = NaN /\
    sum (map (fun col => nth 0 col NaN) (EM.responsibilities s_e)) <> Fin 1.
Proof.
  cbv zeta.
  set (self := EM.mk 1 1000 (Fin (1 / 100)) 0 [] [] [] [] []).
  assert (Hstd : std [Fin 3; Fin 3] = Fin 0).
  { change [Fin 3; Fin 3] with (map Fin [3%R; 3%R]).
    rewrite std_Fin by discriminate. f_equal. apply Rstd_constant, constant_33. }
  eexists _, _, _. split.
  { apply (@EM_init_params_eq toy_generator). cbn. lia. }
  assert (He : EM.expectation (@EM_start toy_generator self [Fin 3; Fin 3] 0) [Fin 3; Fin 3]
               = Some (EM.set_responsibilities
                         (@EM_start toy_generator self [Fin 3; Fin 3] 0)
                         [[NaN; NaN]])).
  { rewrite EM_expectation_eq by reflexivity. do 2 f_equal.
    unfold likelihood_col, EM_start.
    cbn [EM.set_params EM.k EM.weights EM.mus EM.sigmas self seq map nth repeat
         rng_choice toy_generator toy_choice fst Nat.even length].
    rewrite Hstd, !norm_pdf_sigma_zero, !fmul_NaN_r. reflexivity. }
  split; [exact He|]. cbn. split; [reflexivity|discriminate].
Qed.

Lemma not_constant_02 : ~ constant [0%R; 2%R].
Proof.
  intros H. specialize (H 0%R 2%R (or_introl eq_refl) (or_intror (or_introl eq_refl))).
  lra.
Qed.

(** Two components at 0 and 2, of deviation 1 and weight 1/2 each. *)
Definition em_two : EM.t :=
  EM.mk 2 3 (Fin (1 / 100)) 0 [] (map Fin [1 / 2; 1 / 2]%R) (map Fin [0; 2]%R)
        (map Fin [1; 1]%R) [].

Lemma well_conditioned_em_two :
  well_conditioned em_two [1 / 2; 1 / 2]%R [0; 2]%R [1; 1]%R [0; 2]%R.
Proof.
  unfold well_conditioned, em_two. cbn [EM.weights EM.mus EM.sigmas EM.k length].
  repeat (split; [reflexivity|]).
  split; [repeat constructor; lra|]. split; [repeat constructor; lra|].
  intros i x Hi [<-|[<-|[]]]; destruct i as [|[|i]]; try lia; cbn [nth];
    unfold Rabs; destruct (Rcase_abs _); lra.
Qed.

Lemma EM_pass_sums_to_one_witness :
  well_conditioned em_two [1 / 2; 1 / 2]%R [0; 2]%R [1; 1]%R [0; 2]%R /\
  exists s_e s_m,
    EM.expectation em_two (map Fin [0; 2]%R) = Some s_e /\
    sum (map (fun col => nth 0 col NaN) (EM.responsibilities s_e)) = Fin 1 /\
    EM.maximization s_e (map Fin [0; 2]%R) = Some s_m /\
    sum (EM.weights s_m) = Fin 1.
Proof.
  split; [exact well_conditioned_em_two|].
  assert (H1 : [0; 2]%R <> []) by discriminate.
  assert (H2 : 0 < EM.k em_two) by (cbn; lia).
  destruct (proj1 (@EM_pass_sums_to_one toy_generator) em_two
              [1 / 2; 1 / 2]%R [0; 2]%R [1; 1]%R [0; 2]%R H1 H2
              well_conditioned_em_two)
    as (s_e & s_m & He & Hr & Hm & Hw).
  exists s_e, s_m. split; [exact He|]. split; [apply Hr; cbn; lia|].
  split; [exact Hm|exact Hw].
Defined.

(** C6 fails for [EM]: the generator is seeded in [__init__] only, so a
    second [fit] of the same instance on the same data draws other start
    means and, after its pass, returns another mixture. *)
Lemma EM_second_fit_differs :
  exists em g0 s1 g1 s2 g2,
    @EM.init toy_generator 2 1 (Fin (1 / 100)) 0 5 = (em, g0) /\
    @EM.fit toy_generator em [Fin 0; Fin 2] g0 = Some (s1, g1) /\
    @EM.fit toy_generator s1 [Fin 0; Fin 2] g1 = Some (s2, g2) /\
    EM.get_dist_params s1 <> EM.get_dist_params s2.
Proof.
  assert (Hnc : ~ constant [0; 2]%R) by (apply not_constant_pair; lra).
  set (em := EM.mk 2 1 (Fin (1 / 100)) 0 [] [] [] [] []).
  destruct (@EM_fit_single_pass toy_generator em [0; 2]%R
              [1 / 2; 1 / 2]%R [0; 2]%R [1; 1]%R 0 eq_refl Hnc)
    as (s1 & Hfit1 & Hk1 & Hn1 & Hp1).
  { cbn. lia. }
  { apply (@EM_start_two_points toy_generator em 0 0 1); reflexivity. }
  destruct (@EM_fit_single_pass toy_generator s1 [0; 2]%R
              [1 / 2; 1 / 2]%R [2; 0]%R [1; 1]%R 1 Hn1 Hnc)
    as (s2 & Hfit2 & _ & _ & Hp2).
  { rewrite Hk1. cbn. lia. }
  { apply (@EM_start_two_points toy_generator s1 1 1 0); [exact Hk1|reflexivity]. }
  exists em, 0, s1, 1, s2, 2. split; [reflexivity|].
  split; [exact Hfit1|]. split.
  { rewrite Hk1 in Hfit2. exact Hfit2. }
  rewrite Hp1, Hp2. intros H.
  apply (f_equal (fun p => nth 0 (snd (fst p)) (Fin 0))) in H.
  cbn [fst snd] in H. rewrite !(map_nth Fin) in H. apply Fin_inj in H.
  pose proof Rnew_mu0_front as Ha. pose proof Rnew_mu0_back as Hb.
  rewrite H in Ha. lra.
Qed.

Lemma fit_reproducible_from_seed_witness :
  (exists s1 ga,
     @NB.fit toy_generator (NB.init 1 1991) X_two_groups [0; 0; 1; 1]%Z 0
     = Some (s1, ga) /\
     exists s2 gb,
       @NB.fit toy_generator s1 X_two_groups [0; 0; 1; 1]%Z ga = Some (s2, gb) /\
       NB.prior s2 = NB.prior s1 /\ NB.dist_params s2 = NB.dist_params s1) /\
  (2 <= length data0 /\
   exists s1 s2 ga,
     @EM.fit toy_generator (fst (@EM.init toy_generator 2 1 (Fin (1 / 100)) 0 5))
       data0 (snd (@EM.init toy_generator 2 1 (Fin (1 / 100)) 0 5)) = Some (s1, ga) /\
     @EM.fit toy_generator (fst (@EM.init toy_generator 2 1 (Fin (1 / 100)) 0 8))
       data0 (snd (@EM.init toy_generator 2 1 (Fin (1 / 100)) 0 8)) = Some (s2, ga) /\
     EM.get_dist_params s1 = EM.get_dist_params s2) /\
  (EM.k em0 <= length data0 /\
   exists s1 s2 ga,
     @EM.fit toy_generator em0 data0 0 = Some (s1, ga) /\
     @EM.fit toy_generator s1 data0 0 = Some (s2, ga) /\
     EM.get_dist_params s2 = EM.get_dist_params s1).
Proof.
  destruct (@fit_reproducible_from_seed toy_generator) as (_ & HNB & HEM & HEM2).
  assert (H2 : 2 <= length data0) by (cbn; lia).
  assert (H1 : EM.k em0 <= length data0) by (cbn; lia).
  split; [|split].
  - destruct (@fit_of_learn toy_generator _ _ _ _ 0
                (learn_two_groups 1991 0 1 ltac:(lia))) as (ga & Hfit).
    eexists _, ga. split; [exact Hfit|].
    exact (HNB _ _ _ 0 ga _ ga Hfit).
  - split; [exact H2|].
    exact (HEM 2 1 (Fin (1 / 100)) 0%N data0 5 8 H2).
  - split; [exact H1|]. exact (HEM2 em0 data0 0 H1).
Defined.

Lemma stale_class_survives_refit_witness :
  ~ In 1%Z [0; 0]%Z /\
  exists st1 st2 ga gb,
    @NB.fit toy_generator (NB.init 1 1991) X_two_groups [0; 0; 1; 1]%Z 0
    = Some (st1, ga) /\
    @NB.fit toy_generator st1 [[Fin 0]; [Fin 2]] [0; 0]%Z ga = Some (st2, gb) /\
    dict_get (NB.prior st2) 1%Z = dict_get (NB.prior st1) 1%Z /\
    dict_get (NB.dist_params st2) 1%Z = dict_get (NB.dist_params st1) 1%Z /\
    NB.predict st2 [[Fin 11]] = Some [1%Z] /\
    exists cols,
      NB.postiriors_matrix st2 [[Fin 11]] = Some cols /\
      length cols = length (dict_keys (NB.prior st2)).
Proof.
  destruct (@stale_class_survives_refit toy_generator) as (Hframe & Hcols & Hex).
  assert (Hn : ~ In 1%Z [0; 0]%Z) by (intros [H|[H|[]]]; discriminate).
  split; [exact Hn|].
  destruct (Hex 0) as (st1 & st2 & ga & gb & Hf1 & Hf2 & _ & _ & _ & Hpred).
  destruct (Hframe st1 _ _ ga st2 gb 1%Z Hf2 Hn) as (Hp & Hd & _).
  exists st1, st2, ga, gb.
  split; [exact Hf1|]. split; [exact Hf2|]. split; [exact Hp|].
  split; [exact Hd|]. split; [exact Hpred|].
  exact (Hcols st2 _ _ Hpred).
Defined.

(** * Further properties of the code *)

(** ** The correlation scorer: symmetry *)

Lemma fmul_comm (a b : number) : (a * b)%num = (b * a)%num.
Proof.
  destruct a as [x| | |], b as [y| | |]; cbn; try reflexivity.
  now rewrite Rmult_comm.
Qed.

Lemma zipWith_fmul_comm (a b : vec) : zipWith fmul a b = zipWith fmul b a.
Proof.
  revert b. induction a as [|x a IH]; intros [|y b]; cbn; try reflexivity.
  now rewrite fmul_comm, IH.
Qed.

(** X1.  The coefficient does not depend on the order of its two arguments,
    whatever the arrays hold. *)
Theorem pearson_correlation_sym (x y : vec) :
  pearson_correlation x y = pearson_correlation y x.
Proof.
  unfold pearson_correlation.
  rewrite (zipWith_fmul_comm (map _ x) (map _ y)).
  now rewrite (fmul_comm (sum (map _ x)) (sum (map _ y))).
Qed.

(** ** The feature selector: the date column and the caller's table *)

Section FeatureSelectionFrame.

Variable series : Type.
Variable np_array : series -> vec.
Variable to_numeric_datetime : series -> series.

Lemma df_get_None_iff (X : DataFrame series) (name : string) :
  df_get series X name = None <-> ~ In name (columns series X).
Proof.
  induction X as [|[n s] X IH]; cbn.
  - split; [intros _ []|reflexivity].
  - destruct (String.eqb_spec n name) as [->|Hne].
    + split; [discriminate|]. intros H. exfalso. apply H. now left.
    + rewrite IH. split.
      * intros H [Heq|Hin]; [contradiction|now apply H].
      * intros H Hin. apply H. now right.
Qed.

Lemma df_get_set_same (X : DataFrame series) (name : string) (s : series) :
  df_get series (df_set series X name s) name = Some s.
Proof.
  induction X as [|[n s'] X IH]; cbn.
  - now rewrite String.eqb_refl.
  - destruct (String.eqb_spec n name) as [->|Hne]; cbn.
    + now rewrite String.eqb_refl.
    + destruct (String.eqb_spec n name); [contradiction|exact IH].
Qed.

Lemma df_get_set_other (X : DataFrame series) (name other : string) (s : series) :
  other <> name ->
  df_get series (df_set series X name s) other = df_get series X other.
Proof.
  intros Hne. induction X as [|[n s'] X IH]; cbn.
  - destruct (String.eqb_spec name other); [congruence|reflexivity].
  - destruct (String.eqb_spec n name) as [->|Hn]; cbn.
    + destruct (String.eqb_spec name other); [congruence|reflexivity].
    + destruct (String.eqb_spec n other); [reflexivity|exact IH].
Qed.

(** The loop over the columns never fails: every name it looks up is a
    column of the table. *)
Lemma correlations_loop_total (X : DataFrame series) (y : vec) :
  exists correlations,
    foldM (fun correlations feature =>
             x <- df_get series X feature ;;
             Some (correlations
                   ++ [(feature, fabs (pearson_correlation (np_array x) y))]))
          (columns series X) []
    = Some correlations.
Proof.
  assert (H : forall l acc, incl l (columns series X) ->
            exists correlations,
              foldM (fun correlations feature =>
                       x <- df_get series X feature ;;
                       Some (correlations
                             ++ [(feature, fabs (pearson_correlation (np_array x) y))]))
                    l acc
              = Some correlations).
  { induction l as [|n l IH]; intros acc Hl; cbn [foldM].
    - now exists acc.
    - destruct (df_get series X n) as [x|] eqn:Hx.
      + cbn [bind]. apply IH. intros p Hp. apply Hl. now right.
      + exfalso. apply df_get_None_iff in Hx. apply Hx, Hl. now left. }
  apply H, incl_refl.
Qed.

Lemma feature_selection_returns (X : DataFrame series) (y : vec)
  (n_features : nat) :
  In "date"%string (columns series X) ->
  exists r,
    feature_selection series np_array to_numeric_datetime X y n_features = Some r.
Proof.
  intros Hin. unfold feature_selection. cbv zeta.
  destruct (df_get series X "date") as [date|] eqn:Hd.
  - cbn [bind].
    destruct (correlations_loop_total
                (df_set series X "date" (to_numeric_datetime date)) y)
      as (cs & Hcs).
    rewrite Hcs. cbn [bind]. now eexists.
  - apply df_get_None_iff in Hd. contradiction.
Qed.

(** X4.  [feature_selection] reads [X["date"]] first: on a table with no
    column of that name it raises, whatever [n_features], and on a table
    that has one it returns (the conversion of the date column and the
    correlations being total). *)
Theorem feature_selection_needs_date (X : DataFrame series) (y : vec)
  (n_features : nat) :
  feature_selection series np_array to_numeric_datetime X y n_features = None
  <-> ~ In "date"%string (columns series X).
Proof.
  split.
  - intros H Hin.
    destruct (feature_selection_returns X y n_features Hin) as (r & Hr).
    congruence.
  - intros Hn. unfold feature_selection. apply df_get_None_iff in Hn.
    now rewrite Hn.
Qed.

(** X5.  The call changes the caller's table: the date column is replaced,
    where it stands, by its numeric conversion; the column names and their
    order, and every other column, are as before.  This holds for every
    [n_features], also 0. *)
Theorem feature_selection_overwrites_date (X X' : DataFrame series) (y : vec)
  (n_features : nat) (best_features : list string) :
  feature_selection series np_array to_numeric_datetime X y n_features
  = Some (best_features, X') ->
  columns series X' = columns series X /\
  df_get series X' "date"
  = option_map to_numeric_datetime (df_get series X "date") /\
  (forall name, name <> "date"%string ->
                df_get series X' name = df_get series X name) /\
  length best_features = Nat.min n_features (length (columns series X)).
Proof.
  unfold feature_selection. cbv zeta. intros H.
  destruct (df_get series X "date") as [date|] eqn:Hd; [|discriminate].
  cbn [bind] in H.
  destruct (foldM _ _ _) as [cs|] eqn:Hcs; [|discriminate].
  cbn [bind] in H. injection H as Hb <-.
  assert (Hcols : columns series (df_set series X "date" (to_numeric_datetime date))
                  = columns series X)
    by (apply columns_df_set; eapply df_get_Some_In; eassumption).
  split; [exact Hcols|]. split; [apply df_get_set_same|].
  split; [intros name Hne; now apply df_get_set_other|].
  subst best_features. rewrite length_map, length_firstn.
  rewrite (Permutation_length (sort_desc_perm cs)).
  f_equal. rewrite <- Hcols.
  set (Xd := df_set series X "date" (to_numeric_datetime date)) in *.
  assert (Hlen : forall l acc r,
            foldM (fun correlations feature =>
                     x <- df_get series Xd feature ;;
                     Some (correlations
                           ++ [(feature, fabs (pearson_correlation (np_array x) y))]))
                  l acc = Some r ->
            length r = length acc + length l).
  { induction l as [|n l IH]; intros acc r Hr; cbn [foldM] in Hr.
    - injection Hr as <-. cbn. lia.
    - destruct (df_get series Xd n); [|discriminate]. cbn [bind] in Hr.
      apply IH in Hr. rewrite Hr, length_app. cbn. lia. }
  apply Hlen in Hcs. exact Hcs.
Qed.

End FeatureSelectionFrame.

Lemma feature_selection_overwrites_date_witness :
  exists best_features X',
    feature_selection vec (fun s => s) (map (fun v => (v + 1)%num)) table0
      (map Fin [0%R; 1%R]) 0
    = Some (best_features, X') /\
    columns vec X' = columns vec table0 /\
    df_get vec X' "sqft" = df_get vec table0 "sqft" /\
    length best_features = 0.
Proof.
  destruct (feature_selection_returns vec (fun s => s) (map (fun v => (v + 1)%num))
              table0 (map Fin [0%R; 1%R]) 0 (or_introl eq_refl))
    as ([best X'] & Hr).
  exists best, X'. split; [exact Hr|].
  destruct (feature_selection_overwrites_date vec (fun s => s)
              (map (fun v => (v + 1)%num)) table0 X' (map Fin [0%R; 1%R]) 0 best Hr)
    as (Hc & _ & Ho & Hl).
  split; [exact Hc|]. split; [apply Ho; discriminate|exact Hl].
Defined.

(** ** Logistic regression: the sigmoid, the labels, the cost *)

Definition Rsigmoid (z : R) : R := (1 / (1 + exp (- z)))%R.

Lemma sigmoid_Fin (zs : list R) :
  LR.sigmoid (map Fin zs) = map Fin (map Rsigmoid zs).
Proof.
  unfold LR.sigmoid. apply map_Fin_lift. intros z _. cbn [fneg fexp fadd].
  apply fdiv_Fin. pose proof (exp_pos (- z)). lra.
Qed.

Lemma Rsigmoid_range (z : R) : (0 < Rsigmoid z < 1)%R.
Proof.
  unfold Rsigmoid. pose proof (exp_pos (- z)) as He.
  split.
  - apply Rdiv_lt_0_compat; lra.
  - apply (Rmult_lt_reg_r (1 + exp (- z))); [lra|].
    unfold Rdiv. rewrite Rmult_assoc, Rinv_l by lra. lra.
Qed.

Lemma Rsigmoid_half (z : R) : (1 / 2 <= Rsigmoid z)%R <-> (0 <= z)%R.
Proof.
  unfold Rsigmoid. pose proof (exp_pos (- z)) as He.
  assert (Hiff : (exp (- z) <= 1)%R <-> (0 <= z)%R).
  { split.
    - intros H. destruct (Rle_lt_dec 0 z) as [Hz|Hz]; [exact Hz|]. exfalso.
      assert (exp 0 < exp (- z))%R by (apply exp_increasing; lra).
      rewrite exp_0 in *. lra.
    - intros Hz. rewrite <- exp_0. destruct (Req_dec z 0) as [->|Hne].
      + rewrite Ropp_0. lra.
      + apply Rlt_le, exp_increasing. lra. }
  rewrite <- Hiff. split.
  - intros H.
    apply (Rmult_le_compat_r (1 + exp (- z))) in H; [|lra].
    unfold Rdiv in H at 2. rewrite Rmult_assoc, Rinv_l in H by lra. lra.
  - intros H. apply (Rmult_le_reg_r (1 + exp (- z))); [lra|].
    unfold Rdiv at 2. rewrite Rmult_assoc, Rinv_l by lra. lra.
Qed.

Lemma Rsigmoid_le_half (z : R) : (z <= 0)%R -> (Rsigmoid z <= 1 / 2)%R.
Proof.
  intros Hz. unfold Rsigmoid.
  assert (He : (1 <= exp (- z))%R).
  { rewrite <- exp_0. destruct (Req_dec z 0) as [->|Hne].
    - rewrite Ropp_0. lra.
    - apply Rlt_le, exp_increasing. lra. }
  apply (Rmult_le_reg_r (1 + exp (- z))); [lra|].
  unfold Rdiv at 1. rewrite Rmult_assoc, Rinv_l by lra. lra.
Qed.

(** X6.  The sigmoid of a finite number is a number between 0 and 1, at
    least 1/2 when the argument is non-negative and at most 1/2 when it is
    non-positive; at plus and minus infinity it is 1 and 0, and nan is
    passed on. *)
Theorem sigmoid_bounds (zs : list R) :
  exists ss,
    LR.sigmoid (map Fin zs) = map Fin ss /\ length ss = length zs /\
    (forall i, i < length zs ->
       (0 <= nth i ss 0 <= 1)%R /\
       ((0 <= nth i zs 0)%R -> (1 / 2 <= nth i ss 0)%R) /\
       ((nth i zs 0 <= 0)%R -> (nth i ss 0 <= 1 / 2)%R)) /\
    LR.sigmoid [PInf; NInf; NaN] = [Fin 1; Fin 0; NaN].
Proof.
  exists (map Rsigmoid zs). split; [apply sigmoid_Fin|].
  split; [apply length_map|]. split.
  - intros i Hi.
    rewrite (nth_indep _ 0%R (Rsigmoid 0)) by (rewrite length_map; exact Hi).
    rewrite map_nth. pose proof (Rsigmoid_range (nth i zs 0%R)) as Hr.
    split; [lra|]. split.
    + apply Rsigmoid_half.
    + apply Rsigmoid_le_half.
  - unfold LR.sigmoid. cbn [map fneg fexp fadd].
    rewrite fdiv_Fin by lra. cbn [fdiv].
    repeat f_equal. lra.
Qed.

Lemma mat_dot_Fin (rows : list (list R)) (ws : list R) :
  mat_dot (map (map Fin) rows) (map Fin ws) = map Fin (map (fun r => Rdot r ws) rows).
Proof.
  unfold mat_dot. rewrite !map_map. apply map_ext. intros r. apply dot_Fin.
Qed.

Lemma bias_trick_Fin (rows : list (list R)) :
  LR.apply_bias_trick (map (map Fin) rows) = map (map Fin) (map (cons 1%R) rows).
Proof. unfold LR.apply_bias_trick. rewrite !map_map. reflexivity. Qed.

Section LRPredict.
Context {G : Generator}.

(** [fit] always leaves a parameter vector. *)
Lemma LR_fit_sets_theta (self : LR.t) (X : matrix) (y : list Z) (g : rng) :
  exists self' g', LR.fit self X y g = Some (self', g') /\ LR.theta self' <> None.
Proof.
  unfold LR.fit. destruct (rng_random _ _) as [th g']. cbn [LR.n_iter].
  set (start := LR.mk _ _ _ _ _ _ _).
  destruct (for_range_count_spec LR.t
              (LR.fit_iteration (LR.apply_bias_trick X) (map of_Z y))
              LR.Js (LR.eps self) (LR_inv start)
              (LR_fit_iteration_spec _ _ start)
              (LR.n_iter self) 0 start (LR.Js self) [])
    as (s' & c & new & Hr & _ & _ & _ & HI & _).
  { unfold LR_inv, start; cbn. repeat (split; [reflexivity || discriminate|]).
    exists []. rewrite app_nil_r. split; [reflexivity|]. cbn. lia. }
  { cbn. now rewrite app_nil_r. }
  { reflexivity. }
  unfold for_range. rewrite Hr. cbn [option_map fst bind].
  exists s', g'. split; [reflexivity|].
  now destruct HI as (_ & _ & _ & _ & Ht & _).
Qed.


End LRPredict.


Lemma map_of_Z_Fin (ys : list Z) : map of_Z ys = map Fin (map IZR ys).
Proof. now rewrite map_map. Qed.

Lemma ln_neg (h : R) : (0 < h < 1)%R -> (ln h < 0)%R.
Proof. intros [H0 H1]. rewrite <- ln_1. now apply ln_increasing. Qed.

Lemma Rdot_nonneg_nonpos (a : list R) : forall b,
  Forall (fun v => (0 <= v)%R) a -> Forall (fun v => (v <= 0)%R) b ->
  (Rdot a b <= 0)%R.
Proof.
  unfold Rdot. induction a as [|x a IH]; intros [|y b] Ha Hb; cbn [zipWith];
    rewrite ?Rsum_cons, ?Rsum_nil; try lra.
  inversion Ha; inversion Hb; subst. specialize (IH b ltac:(assumption) ltac:(assumption)).
  nra.
Qed.

(** X9.  For predicted probabilities strictly between 0 and 1 and labels 0
    or 1, as many as probabilities and not none, the cost is the mean
    cross-entropy, a finite number that is not negative.  With no example the
    cost is nan (0 / 0). *)
Theorem cost_function_nonneg (hs : list R) (ys : list Z) :
  hs <> [] -> length ys = length hs ->
  Forall (fun h => (0 < h < 1)%R) hs ->
  Forall (fun y => y = 0%Z \/ y = 1%Z) ys ->
  LR.cost_function (map Fin hs) (map of_Z ys)
  = Fin (- (Rdot (map IZR ys) (map ln hs)
            + Rdot (map (fun y => (1 - IZR y)%R) ys)
                   (map (fun h => ln (1 - h)) hs))
         / INR (length hs)) /\
  (0 <= - (Rdot (map IZR ys) (map ln hs)
           + Rdot (map (fun y => (1 - IZR y)%R) ys)
                  (map (fun h => ln (1 - h)) hs))
        / INR (length hs))%R /\
  LR.cost_function [] [] = NaN.
Proof.
  intros Hne Hlen Hh Hy.
  assert (Hm : (0 < INR (length hs))%R) by now apply INR_length_pos.
  assert (Hlog : map flog (map Fin hs) = map Fin (map ln hs)).
  { apply map_Fin_lift. intros h Hin. rewrite Forall_forall in Hh.
    specialize (Hh h Hin). unfold flog.
    destruct (Rlt_dec h 0); [lra|]. destruct (Req_dec_T h 0); [lra|reflexivity]. }
  assert (Hlog1 : map (fun v => flog (1 - v)%num) (map Fin hs)
                  = map Fin (map (fun h => ln (1 - h)) hs)).
  { apply map_Fin_lift. intros h Hin. rewrite Forall_forall in Hh.
    specialize (Hh h Hin). cbn [fsub fneg fadd].
    replace (1 + - h)%R with (1 - h)%R by lra. unfold flog.
    destruct (Rlt_dec (1 - h) 0); [lra|].
    destruct (Req_dec_T (1 - h) 0); [lra|reflexivity]. }
  assert (Hy1 : map (fun v => (1 - v)%num) (map of_Z ys)
                = map Fin (map (fun y => (1 - IZR y)%R) ys)).
  { rewrite !map_map. apply map_ext. intros y. reflexivity. }
  split; [|split].
  - unfold LR.cost_function. rewrite length_map, Hlog, Hlog1, Hy1, map_of_Z_Fin.
    rewrite !dot_Fin. cbn [fadd]. unfold of_Z.
    rewrite opp_IZR, <- INR_IZR_INZ. rewrite fdiv_Fin by lra.
    f_equal. field. lra.
  - assert (H1 : (Rdot (map IZR ys) (map ln hs) <= 0)%R).
    { apply Rdot_nonneg_nonpos.
      - apply Forall_forall. intros v Hv. apply in_map_iff in Hv as (y & <- & Hin).
        rewrite Forall_forall in Hy. destruct (Hy y Hin) as [-> | ->]; cbn; lra.
      - apply Forall_forall. intros v Hv. apply in_map_iff in Hv as (h & <- & Hin).
        rewrite Forall_forall in Hh. apply Rlt_le, ln_neg, Hh, Hin. }
    assert (H2 : (Rdot (map (fun y => (1 - IZR y)%R) ys)
                       (map (fun h => ln (1 - h)) hs) <= 0)%R).
    { apply Rdot_nonneg_nonpos.
      - apply Forall_forall. intros v Hv. apply in_map_iff in Hv as (y & <- & Hin).
        rewrite Forall_forall in Hy. destruct (Hy y Hin) as [-> | ->]; cbn; lra.
      - apply Forall_forall. intros v Hv. apply in_map_iff in Hv as (h & <- & Hin).
        rewrite Forall_forall in Hh. specialize (Hh h Hin).
        apply Rlt_le, ln_neg. lra. }
    apply Rmult_le_pos; [lra|]. apply Rlt_le, Rinv_0_lt_compat, Hm.
  - unfold LR.cost_function, dot, sum, of_Z.
    cbn [map length zipWith fold_left fadd Z.of_nat Z.opp].
    replace (0 + 0)%R with 0%R by lra. now apply fdiv_zero_zero.
Qed.

Lemma cost_function_nonneg_witness :
  [1 / 2; 1 / 4]%R <> [] /\ length [0; 1]%Z = length [1 / 2; 1 / 4]%R /\
  Forall (fun h => (0 < h < 1)%R) [1 / 2; 1 / 4]%R /\
  Forall (fun y => y = 0%Z \/ y = 1%Z) [0; 1]%Z /\
  exists c, LR.cost_function (map Fin [1 / 2; 1 / 4]%R) (map of_Z [0; 1]%Z) = Fin c /\
            (0 <= c)%R.
Proof.
  assert (H1 : [1 / 2; 1 / 4]%R <> []) by discriminate.
  assert (H2 : length [0; 1]%Z = length [1 / 2; 1 / 4]%R) by reflexivity.
  assert (H3 : Forall (fun h => (0 < h < 1)%R) [1 / 2; 1 / 4]%R)
    by (repeat constructor; lra).
  assert (H4 : Forall (fun y => y = 0%Z \/ y = 1%Z) [0; 1]%Z)
    by (repeat constructor; auto).
  split; [exact H1|]. split; [exact H2|]. split; [exact H3|]. split; [exact H4|].
  destruct (cost_function_nonneg [1 / 2; 1 / 4]%R [0; 1]%Z H1 H2 H3 H4) as (He & Hc & _).
  eexists. split; [exact He|exact Hc].
Defined.

(** ** Logistic regression: what [fit] stores *)

(** One step of gradient descent, and the cost at given parameters. *)
Definition gd_step (X : matrix) (y : vec) (eta : number) (th : vec) : vec :=
  zipWith fsub th
    (map (fmul eta) (matT_dot X (zipWith fsub (LR.sigmoid (mat_dot X th)) y))).

Definition cost_at (X : matrix) (y : vec) (th : vec) : number :=
  LR.cost_function (LR.sigmoid (mat_dot X th)) y.

(** [ths] is the sequence of iterates of [step] from [th]. *)
Fixpoint iterates (step : vec -> vec) (th : vec) (ths : list vec) : Prop :=
  match ths with
  | [] => True
  | t :: rest => t = step th /\ iterates step t rest
  end.

Lemma LR_fit_iteration_step (X : matrix) (y : vec) (i : nat) (s s' : LR.t)
  (stop : bool) (th : vec) :
  LR.theta s = Some th ->
  LR.fit_iteration X y i s = Some (s', stop) ->
  LR.eta s' = LR.eta s /\
  LR.theta s' = Some (gd_step X y (LR.eta s) th) /\
  LR.thetas s' = LR.thetas s ++ [gd_step X y (LR.eta s) th] /\
  LR.Js s' = LR.Js s ++ [cost_at X y th].
Proof.
  intros Hth H. unfold LR.fit_iteration in H. rewrite Hth in H.
  cbn [bind] in H.
  destruct (if 1 <? i then _ else _) as [b|]; [|discriminate].
  cbn [bind] in H. injection H as <- <-. cbn. repeat split; reflexivity.
Qed.

Lemma last_cons_indep {A : Type} (v : A) (l : list A) (d d' : A) :
  last (v :: l) d = last (v :: l) d'.
Proof.
  revert v. induction l as [|w l IH]; intros v; [reflexivity|].
  change (last (w :: l) d = last (w :: l) d'). apply IH.
Qed.

Lemma for_range_count_bounds {St : Type} (body : nat -> St -> option (St * bool)) :
  forall n i s s' c,
    for_range_count body i n s = Some (s', c) ->
    c <= n /\ (n <> 0 -> c <> 0).
Proof.
  induction n as [|n IH]; intros i s s' c H; cbn [for_range_count] in H.
  - injection H as _ <-. split; [lia|congruence].
  - destruct (body i s) as [[s2 [|]]|]; [| |discriminate].
    + injection H as _ <-. split; lia.
    + destruct (for_range_count body (S i) n s2) as [[s3 c3]|] eqn:Hr3; [|discriminate].
      cbn in H. injection H as _ <-. destruct (IH _ _ _ _ Hr3). split; lia.
Qed.

Lemma LR_loop_iterates (X : matrix) (y : vec) : forall n i s s' c th,
  LR.theta s = Some th ->
  for_range_count (LR.fit_iteration X y) i n s = Some (s', c) ->
  exists ths,
    length ths = c /\
    LR.thetas s' = LR.thetas s ++ ths /\
    iterates (gd_step X y (LR.eta s)) th ths /\
    LR.theta s' = Some (last ths th) /\
    LR.Js s' = LR.Js s ++ map (cost_at X y) (removelast (th :: ths)).
Proof.
  induction n as [|n IH]; intros i s s' c th Hth H; cbn [for_range_count] in H.
  - injection H as <- <-. exists []. cbn. rewrite !app_nil_r. auto.
  - destruct (LR.fit_iteration X y i s) as [[s1 stop]|] eqn:Hb; [|discriminate].
    destruct (LR_fit_iteration_step X y i s s1 stop th Hth Hb)
      as (He & Ht1 & Hths & HJs).
    destruct stop.
    + injection H as <- <-. exists [gd_step X y (LR.eta s) th].
      cbn. auto.
    + destruct (for_range_count _ (S i) n s1) as [[s2 c2]|] eqn:Hr; [|discriminate].
      cbn in H. injection H as <- <-.
      destruct (IH (S i) s1 s2 c2 _ Ht1 Hr) as (ths & Hl & Hths2 & Hit & Hlast & HJ2).
      exists (gd_step X y (LR.eta s) th :: ths).
      split; [cbn; lia|].
      split; [rewrite Hths2, Hths, <- app_assoc; reflexivity|].
      split; [cbn; split; [reflexivity|rewrite He in Hit; exact Hit]|].
      split.
      * rewrite Hlast. f_equal. destruct ths as [|v ths]; [reflexivity|].
        change (last (gd_step X y (LR.eta s) th :: v :: ths) th)
          with (last (v :: ths) th).
        apply last_cons_indep.
      * rewrite HJ2, HJs, <- app_assoc. reflexivity.
Qed.

Section LRTrajectory.
Context {G : Generator}.

(** X10.  What [fit] stores.  The vectors appended to [thetas] are the
    iterates of the gradient step [theta - eta * X^T (sigmoid (X theta) - y)]
    from the random initial vector (X with its bias column); [theta] is the
    last of them, or the initial vector when no pass ran; and the cost
    appended with an iterate is the cost at the parameters before that step,
    so the cost of the final [theta] is never recorded. *)
Theorem LR_fit_trajectory (self self' : LR.t) (X : matrix) (y : list Z)
  (g g' : rng) :
  LR.fit self X y g = Some (self', g') ->
  let Xb := LR.apply_bias_trick X in
  let th0 := map Fin (fst (rng_random (shape1 Xb) (rng_seed (LR.random_state self)))) in
  exists ths,
    LR.thetas self' = LR.thetas self ++ ths /\
    iterates (gd_step Xb (map of_Z y) (LR.eta self)) th0 ths /\
    LR.theta self' = Some (last ths th0) /\
    LR.Js self' = LR.Js self ++ map (cost_at Xb (map of_Z y)) (removelast (th0 :: ths)) /\
    length ths <= LR.n_iter self /\ (0 < LR.n_iter self -> ths <> []).
Proof.
  intros Hfit Xb th0. unfold LR.fit in Hfit. fold Xb in Hfit.
  unfold th0. destruct (rng_random _ _) as [th ga]. cbn [fst].
  cbn [LR.n_iter] in Hfit. unfold for_range in Hfit.
  destruct (for_range_count _ 0 (LR.n_iter self) _) as [[s1 c]|] eqn:Hr;
    [|discriminate].
  cbn in Hfit. injection Hfit as <- <-.
  match type of Hr with
  | for_range_count _ _ _ ?s0 = _ =>
      destruct (LR_loop_iterates Xb (map of_Z y) _ _ s0 _ _ (map Fin th) eq_refl Hr)
        as (ths & Hl & Hths & Hit & Hlast & HJ)
  end.
  cbn [LR.thetas LR.eta LR.Js] in *.
  exists ths. split; [exact Hths|]. split; [exact Hit|]. split; [exact Hlast|].
  split; [exact HJ|].
  destruct (for_range_count_bounds _ _ _ _ _ _ Hr) as [Hc1 Hc2].
  split; [lia|].
  intros Hn Hnil. subst ths. cbn in Hl. lia.
Qed.

End LRTrajectory.

Lemma LR_fit_trajectory_witness :
  exists self' g' ths,
    @LR.fit toy_generator lr0 X0 y0 0 = Some (self', g') /\
    LR.thetas self' = LR.thetas lr0 ++ ths /\
    LR.theta self' = Some (last ths (map Fin (fst (toy_random 2 1)))) /\
    ths <> [].
Proof.
  destruct (@LR_fit_sets_theta toy_generator lr0 X0 y0 0) as (s1 & g1 & Hfit & _).
  destruct (@LR_fit_trajectory toy_generator lr0 s1 X0 y0 0 g1 Hfit)
    as (ths & H1 & _ & H3 & _ & _ & H6).
  exists s1, g1, ths. split; [exact Hfit|]. split; [exact H1|].
  split; [exact H3|]. apply H6. cbn. lia.
Defined.

(** ** Accuracy *)

Lemma matches_le (preds ys : list Z) : matches preds ys <= length (combine preds ys).
Proof. unfold matches. apply filter_length_le. Qed.

Lemma matches_all (preds : list Z) : forall ys,
  length preds = length ys ->
  (matches preds ys = length (combine preds ys) <-> preds = ys).
Proof.
  unfold matches.
  induction preds as [|p preds IH]; intros [|y ys] Hlen; try discriminate Hlen.
  - cbn. split; reflexivity.
  - cbn [combine filter fst snd length]. injection Hlen as Hlen.
    pose proof (filter_length_le (fun pq => Z.eqb (fst pq) (snd pq)) (combine preds ys))
      as Hle.
    destruct (Z.eqb_spec p y) as [->|Hne]; cbn [length].
    + specialize (IH ys Hlen). split.
      * intros H. f_equal. apply IH. lia.
      * intros H. injection H as H. apply IH in H. lia.
    + split; [intros H; lia|intros H; congruence].
Qed.

Lemma accuracy_Fin (preds ys : list Z) :
  length preds = length ys -> preds <> [] ->
  accuracy preds ys = Fin (INR (matches preds ys) / INR (length preds)) /\
  (0 <= INR (matches preds ys) / INR (length preds) <= 1)%R.
Proof.
  intros Hlen Hne. unfold accuracy, of_nat.
  assert (Hc : length (combine preds ys) = length preds)
    by (rewrite length_combine; lia).
  pose proof (matches_le preds ys) as Hle. rewrite Hc in *.
  assert (Hpos : (0 < INR (length preds))%R)
    by (apply lt_0_INR; destruct preds; [contradiction|cbn; lia]).
  split; [apply fdiv_Fin; lra|].
  pose proof (pos_INR (matches preds ys)) as H0.
  pose proof (le_INR _ _ Hle) as H1.
  split.
  - apply Rmult_le_pos; [lra|]. apply Rlt_le, Rinv_0_lt_compat, Hpos.
  - apply (Rmult_le_reg_r (INR (length preds))); [exact Hpos|].
    unfold Rdiv. rewrite Rmult_assoc, Rinv_l by lra. lra.
Qed.

(** X11.  On two label vectors of one length, not empty, [compute_accuracy]
    is the number of positions where they agree divided by the length: a
    number between 0 and 1, equal to 1 exactly when the vectors are equal.
    On empty vectors it is nan. *)
Theorem compute_accuracy_range (preds ys : list Z) :
  length preds = length ys -> preds <> [] ->
  compute_accuracy preds ys = Fin (INR (matches preds ys) / INR (length preds)) /\
  (0 <= INR (matches preds ys) / INR (length preds) <= 1)%R /\
  (compute_accuracy preds ys = Fin 1 <-> preds = ys) /\
  compute_accuracy [] [] = NaN.
Proof.
  intros Hlen Hne. unfold compute_accuracy. rewrite mean_eq_accuracy.
  destruct (accuracy_Fin preds ys Hlen Hne) as [He Hr].
  assert (Hc : length (combine preds ys) = length preds)
    by (rewrite length_combine; lia).
  assert (Hpos : (0 < INR (length preds))%R)
    by (apply lt_0_INR; destruct preds; [contradiction|cbn; lia]).
  split; [exact He|]. split; [exact Hr|]. split.
  - rewrite He, <- (matches_all preds ys Hlen), Hc. split.
    + intros H. apply Fin_inj in H. apply INR_eq.
      apply (Rmult_eq_compat_r (INR (length preds))) in H.
      unfold Rdiv in H. rewrite Rmult_assoc, Rinv_l in H by lra. lra.
    + intros ->. f_equal. field. lra.
  - rewrite mean_eq_accuracy. unfold accuracy, matches, of_nat.
    cbn [combine filter length INR]. now apply fdiv_zero_zero.
Qed.

Lemma compute_accuracy_range_witness :
  length [0; 1]%Z = length [0; 0]%Z /\ [0; 1]%Z <> [] /\
  (0 <= INR (matches [0; 1]%Z [0; 0]%Z) / INR (length [0; 1]%Z) <= 1)%R.
Proof.
  assert (H1 : length [0; 1]%Z = length [0; 0]%Z) by reflexivity.
  assert (H2 : [0; 1]%Z <> []) by discriminate.
  split; [exact H1|]. split; [exact H2|].
  exact (proj1 (proj2 (compute_accuracy_range [0; 1]%Z [0; 0]%Z H1 H2))).
Defined.

(** ** Cross-validation: errors and the range of the result *)

Lemma take_short {T : Type} (l : list T) (idx : list nat) (i : nat) :
  In i idx -> length l <= i -> take l idx = None.
Proof.
  unfold take. induction idx as [|j idx IH]; intros Hin Hi; [destruct Hin|].
  cbn [mapM]. destruct Hin as [->|Hin].
  - unfold getitem. replace (nth_error l i) with (@None T)
      by (symmetry; now apply nth_error_None). reflexivity.
  - destruct (getitem l j); [|reflexivity]. cbn [bind].
    now rewrite IH.
Qed.

Lemma fold_left_fadd_NaN (l : vec) : fold_left fadd l NaN = NaN.
Proof. induction l as [|x l IH]; [reflexivity|]. cbn. exact IH. Qed.

(** The sum and the mean of numbers between 0 and 1. *)
Lemma sum_unit_interval (l : list R) (acc : R) :
  Forall (fun a => (0 <= a <= 1)%R) l ->
  exists t, fold_left fadd (map Fin l) (Fin acc) = Fin (acc + t) /\
            (0 <= t <= INR (length l))%R.
Proof.
  revert acc. induction l as [|a l IH]; intros acc Hl.
  - exists 0%R. cbn. split; [f_equal; lra|lra].
  - inversion Hl as [|? ? Ha Hl']; subst. cbn [map fold_left fadd].
    destruct (IH (acc + a)%R Hl') as (t & Ht & Hr).
    exists (a + t)%R. rewrite Ht. split; [f_equal; lra|].
    rewrite length_cons, S_INR. lra.
Qed.

Section CrossValidationEdges.
Context {G : Generator} {A : Type} {C : Classifier A}.

(** X12.  [cross_validation] raises when [folds] is 0 (the division
    [X.shape[0] // folds]) and when [y] has fewer entries than [X] has rows
    (the shuffled index reaches past the end of [y]). *)
Theorem cross_validation_errors (X : matrix) (y : list Z) (folds : nat)
  (algo : A) (random_state : N) (g : rng) :
  (folds = 0 -> cross_validation X y folds algo random_state g = None) /\
  (length y < length X -> cross_validation X y folds algo random_state g = None).
Proof.
  unfold cross_validation, shape0.
  destruct (rng_permutation (length X) (rng_seed random_state)) as [idx g1] eqn:Hp.
  split.
  - intros ->. destruct (take X idx); [|reflexivity]. cbn [bind].
    destruct (take y idx); reflexivity.
  - intros Hlen. destruct (take X idx); [|reflexivity]. cbn [bind].
    rewrite (take_short y idx (length y)); [reflexivity| |lia].
    pose proof (rng_permutation_range (length X) (rng_seed random_state)) as Hperm.
    rewrite Hp in Hperm. cbn [fst] in Hperm.
    apply (Permutation_in _ (Permutation_sym Hperm)). apply in_seq. lia.
Qed.

(** The accuracies of the folds, when every prediction vector has the
    length of its test block. *)
Lemma fold_accuracies_unit (Xs : matrix) (ys : list Z) (folds : nat) :
  (forall a X' ps, clf_predict a X' = Some ps -> length ps = length X') ->
  length ys = length Xs -> 0 < length Xs / folds -> 0 < folds ->
  forall ids algo g accs algo' g',
    Forall (fun i => 1 <= i <= folds) ids ->
    fold_accuracies Xs ys folds ids algo g = Some (accs, algo', g') ->
    exists rs, accs = map Fin rs /\ length rs = length ids /\
               Forall (fun a => (0 <= a <= 1)%R) rs.
Proof.
  intros Hpred Hlen Hnum Hf.
  induction ids as [|i ids IH]; intros algo g accs algo' g' Hids H;
    cbn [fold_accuracies] in H.
  - injection H as <- _ _. exists []. repeat split. constructor.
  - inversion Hids as [|? ? Hi Hids']; subst.
    destruct (clf_fit _ _ _ _) as [[a1 g1]|]; [|discriminate]. cbn [bind] in H.
    destruct (clf_predict a1 _) as [preds|] eqn:Hp; [|discriminate].
    cbn [bind] in H.
    destruct (fold_accuracies Xs ys folds ids a1 g1) as [[[accs1 a2] g2]|] eqn:Hr;
      [|discriminate].
    cbn [bind] in H. injection H as <- _ _.
    destruct (IH _ _ _ _ _ Hids' Hr) as (rs & -> & Hl & Hrs).
    apply Hpred in Hp. unfold rows_at in Hp. rewrite length_map in Hp.
    assert (Hblock : length (test_list (length Xs) folds i) = length Xs / folds).
    { rewrite test_list_block by assumption. apply length_seq. }
    destruct (accuracy_Fin preds (rows_at 0%Z ys (test_list (length Xs) folds i)))
      as [He Hr1].
    { unfold rows_at. rewrite length_map. exact Hp. }
    { intros ->. cbn in Hp. lia. }
    exists ((INR (matches preds (rows_at 0%Z ys (test_list (length Xs) folds i)))
             / INR (length preds))%R :: rs).
    split; [cbn [map]; now rewrite He|]. split; [cbn; lia|].
    constructor; assumption.
Qed.

(** X13.  With [1 <= folds <= m], as many labels as rows, and a classifier
    whose [predict] returns one label per row, the value [cross_validation]
    returns is a number between 0 and 1. *)
Theorem cross_validation_range (X : matrix) (y : list Z) (folds : nat)
  (algo algo' : A) (random_state : N) (g g' : rng) (acc : number) :
  (forall a X' ps, clf_predict a X' = Some ps -> length ps = length X') ->
  1 <= folds <= length X -> length y = length X ->
  cross_validation X y folds algo random_state g = Some (acc, algo', g') ->
  exists a, acc = Fin a /\ (0 <= a <= 1)%R.
Proof.
  intros Hpred Hf Hy H. unfold cross_validation, shape0 in H.
  destruct (rng_permutation (length X) (rng_seed random_state)) as [idx g1] eqn:Hp.
  pose proof (rng_permutation_range (length X) (rng_seed random_state)) as Hperm.
  rewrite Hp in Hperm. cbn [fst] in Hperm.
  assert (Hrange : Forall (fun i => i < length X) idx).
  { apply Forall_forall. intros i Hi. apply (Permutation_in _ Hperm) in Hi.
    apply in_seq in Hi. lia. }
  assert (Hidx : length idx = length X)
    by (rewrite (Permutation_length Hperm); apply length_seq).
  rewrite (take_in_range X [] idx Hrange) in H.
  rewrite (take_in_range y 0%Z idx) in H by (now rewrite Hy).
  cbn [bind] in H.
  replace (folds =? 0) with false in H by (symmetry; apply Nat.eqb_neq; lia).
  cbn [bind] in H. fold (rows_at [] X idx) (rows_at 0%Z y idx) in H.
  assert (HlX : length (rows_at ([] : vec) X idx) = length X)
    by (unfold rows_at; now rewrite length_map).
  rewrite cv_loop_accuracies in H by (unfold rows_at; now rewrite !length_map).
  destruct (fold_accuracies _ _ _ _ _ _) as [[[accs a1] g2]|] eqn:Hacc;
    [|discriminate].
  cbn [bind] in H. injection H as <- _ _.
  assert (Hly : length (rows_at 0%Z y idx) = length (rows_at ([] : vec) X idx))
    by (unfold rows_at; now rewrite !length_map).
  assert (Hnum : 0 < length (rows_at ([] : vec) X idx) / folds)
    by (rewrite HlX; apply Nat.div_str_pos; lia).
  assert (Hids : Forall (fun i => 1 <= i <= folds) (seq 1 folds))
    by (apply Forall_forall; intros i Hi; apply in_seq in Hi; lia).
  destruct (fold_accuracies_unit (rows_at [] X idx) (rows_at 0%Z y idx) folds
              Hpred Hly Hnum ltac:(lia) (seq 1 folds) algo g1 accs a1 g2 Hids Hacc)
    as (rs & -> & Hl & Hrs).
  rewrite length_seq in Hl.
  destruct (sum_unit_interval rs 0 Hrs) as (t & Ht & Hr). rewrite Ht.
  assert (Hpos : (0 < INR folds)%R) by (apply lt_0_INR; lia).
  unfold of_nat. rewrite fdiv_Fin by lra. eexists. split; [reflexivity|].
  rewrite Hl in Hr. split.
  - apply Rmult_le_pos; [lra|]. apply Rlt_le, Rinv_0_lt_compat, Hpos.
  - apply (Rmult_le_reg_r (INR folds)); [exact Hpos|].
    unfold Rdiv. rewrite Rmult_assoc, Rinv_l by lra. lra.
Qed.

Lemma test_list_empty (m folds i : nat) : m / folds = 0 -> test_list m folds i = [].
Proof.
  intros H. unfold test_list, slice. rewrite H, !Nat.mul_0_r. reflexivity.
Qed.

Lemma accuracy_nil_r (preds : list Z) : accuracy preds [] = NaN.
Proof.
  unfold accuracy, matches. rewrite combine_nil. cbn [filter length].
  unfold of_nat. cbn [INR]. now apply fdiv_zero_zero.
Qed.

Lemma fold_accuracies_empty_blocks (Xs : matrix) (ys : list Z) (folds : nat) :
  length Xs / folds = 0 ->
  forall ids algo g accs algo' g',
    fold_accuracies Xs ys folds ids algo g = Some (accs, algo', g') ->
    accs = repeat NaN (length ids).
Proof.
  intros Hnum. induction ids as [|i ids IH]; intros algo g accs algo' g' H;
    cbn [fold_accuracies] in H.
  - now injection H as <- _ _.
  - destruct (clf_fit _ _ _ _) as [[a1 g1]|]; [|discriminate]. cbn [bind] in H.
    destruct (clf_predict a1 _) as [preds|]; [|discriminate]. cbn [bind] in H.
    destruct (fold_accuracies Xs ys folds ids a1 g1) as [[[accs1 a2] g2]|] eqn:Hr;
      [|discriminate].
    cbn [bind] in H. injection H as <- _ _.
    rewrite (IH _ _ _ _ _ Hr), test_list_empty by assumption.
    unfold rows_at at 1. cbn [map]. now rewrite accuracy_nil_r.
Qed.

(** X14.  With more folds than rows every test block is empty
    ([X.shape[0] // folds] is 0), each model is trained on all the rows, and
    the value returned, the mean of means of no element, is nan. *)
Theorem cross_validation_too_many_folds (X : matrix) (y : list Z) (folds : nat)
  (algo algo' : A) (random_state : N) (g g' : rng) (acc : number) :
  length X < folds -> length y = length X ->
  cross_validation X y folds algo random_state g = Some (acc, algo', g') ->
  acc = NaN /\
  forall i, test_list (length X) folds i = [] /\
            train_positions (length X) folds i = seq 0 (length X).
Proof.
  intros Hf Hy H.
  assert (Hnum : length X / folds = 0) by (apply Nat.div_small; lia).
  split.
  - unfold cross_validation, shape0 in H.
    destruct (rng_permutation (length X) (rng_seed random_state)) as [idx g1] eqn:Hp.
    pose proof (rng_permutation_range (length X) (rng_seed random_state)) as Hperm.
    rewrite Hp in Hperm. cbn [fst] in Hperm.
    assert (Hrange : Forall (fun i => i < length X) idx).
    { apply Forall_forall. intros i Hi. apply (Permutation_in _ Hperm) in Hi.
      apply in_seq in Hi. lia. }
    assert (Hidx : length idx = length X)
      by (rewrite (Permutation_length Hperm); apply length_seq).
    rewrite (take_in_range X [] idx Hrange) in H.
    rewrite (take_in_range y 0%Z idx) in H by (now rewrite Hy).
    cbn [bind] in H.
    replace (folds =? 0) with false in H by (symmetry; apply Nat.eqb_neq; lia).
    cbn [bind] in H. fold (rows_at [] X idx) (rows_at 0%Z y idx) in H.
    rewrite cv_loop_accuracies in H by (unfold rows_at; now rewrite !length_map).
    destruct (fold_accuracies _ _ _ _ _ _) as [[[accs a1] g2]|] eqn:Hacc;
      [|discriminate].
    cbn [bind] in H. injection H as <- _ _.
    apply fold_accuracies_empty_blocks in Hacc;
      [|unfold rows_at; rewrite length_map, Hidx; exact Hnum].
    rewrite Hacc, length_seq. destruct folds as [|k]; [lia|].
    cbn [repeat fold_left fadd]. rewrite fold_left_fadd_NaN. reflexivity.
  - intros i. rewrite (test_list_empty _ _ i Hnum). split; [reflexivity|].
    unfold train_positions. rewrite (test_list_empty _ _ i Hnum).
    cbn [existsb negb]. apply forallb_filter_id. now apply forallb_forall.
Qed.

(** A classifier whose [fit] and [predict] never raise. *)
Lemma cross_validation_returns (P : A -> Prop) (X : matrix) (y : list Z)
  (folds : nat) (algo : A) (random_state : N) (g : rng) :
  (forall a X' y' g0, exists a' g1, clf_fit a X' y' g0 = Some (a', g1) /\ P a') ->
  (forall a X', P a -> exists ps, clf_predict a X' = Some ps) ->
  1 <= folds -> length y = length X ->
  exists r, cross_validation X y folds algo random_state g = Some r.
Proof.
  intros Hfit Hpred Hf Hy. unfold cross_validation, shape0.
  destruct (rng_permutation (length X) (rng_seed random_state)) as [idx g1] eqn:Hp.
  pose proof (rng_permutation_range (length X) (rng_seed random_state)) as Hperm.
  rewrite Hp in Hperm. cbn [fst] in Hperm.
  assert (Hrange : Forall (fun i => i < length X) idx).
  { apply Forall_forall. intros i Hi. apply (Permutation_in _ Hperm) in Hi.
    apply in_seq in Hi. lia. }
  rewrite (take_in_range X [] idx Hrange).
  rewrite (take_in_range y 0%Z idx) by (now rewrite Hy).
  cbn [bind].
  replace (folds =? 0) with false by (symmetry; apply Nat.eqb_neq; lia).
  cbn [bind]. fold (rows_at [] X idx) (rows_at 0%Z y idx).
  rewrite cv_loop_accuracies by (unfold rows_at; now rewrite !length_map).
  assert (Htot : forall ids a g0,
            exists r, fold_accuracies (rows_at [] X idx) (rows_at 0%Z y idx)
                        folds ids a g0 = Some r).
  { induction ids as [|i ids IH]; intros a g0; cbn [fold_accuracies].
    - now eexists.
    - match goal with
      | |- context [clf_fit ?a0 ?X0 ?Y0 ?g0] =>
          destruct (Hfit a0 X0 Y0 g0) as (a1 & g2 & Hf1 & HP); rewrite Hf1
      end.
      cbn [bind].
      match goal with
      | |- context [clf_predict a1 ?X1] =>
          destruct (Hpred a1 X1 HP) as (ps & Hps); rewrite Hps
      end.
      cbn [bind].
      destruct (IH a1 g2) as ([[accs a2] g3] & Hr). rewrite Hr. cbn [bind].
      now eexists. }
  match goal with
  | |- context [fold_accuracies ?Xs ?ys _ _ _ _] =>
      change (fold_accuracies Xs ys folds (seq 1 folds) algo g1)
        with (fold_accuracies (rows_at [] X idx) (rows_at 0%Z y idx) folds
                (seq 1 folds) algo g1)
  end.
  destruct (Htot (seq 1 folds) algo g1) as ([[accs a2] g3] & Hr).
  rewrite Hr. cbn [bind]. now eexists.
Qed.

End CrossValidationEdges.

Section CrossValidationLR.
Context {G : Generator}.

Lemma LR_predict_length (a : LR.t) (X : matrix) (ps : list Z) :
  LR.predict a X = Some ps -> length ps = length X.
Proof.
  unfold LR.predict. destruct (LR.theta a); [|discriminate]. cbn [bind].
  intros [= <-]. unfold LR.sigmoid, mat_dot, LR.apply_bias_trick.
  now rewrite !length_map.
Qed.

(** Cross-validation of a logistic regression never raises on labels as
    many as rows and at least one fold. *)
Lemma cross_validation_LR_returns (X : matrix) (y : list Z) (folds : nat)
  (algo : LR.t) (random_state : N) (g : rng) :
  1 <= folds -> length y = length X ->
  exists r, cross_validation X y folds algo random_state g = Some r.
Proof.
  apply (cross_validation_returns (fun a => LR.theta a <> None)).
  - intros a X' y' g0. apply LR_fit_sets_theta.
  - intros a X' Ha. unfold clf_predict, LogisticRegressionGD_Classifier, LR.predict.
    destruct (LR.theta a); [|contradiction]. cbn [bind]. now eexists.
Qed.

End CrossValidationLR.

Lemma cross_validation_errors_witness :
  @cross_validation toy_generator LR.t (@LogisticRegressionGD_Classifier toy_generator) X0 y0 0 lr0 0 0 = None /\
  length [0%Z] < length X0 /\
  @cross_validation toy_generator LR.t (@LogisticRegressionGD_Classifier toy_generator) X0 [0%Z] 2 lr0 0 0 = None.
Proof.
  assert (H : length [0%Z] < length X0) by (cbn; lia).
  split; [|split; [exact H|]].
  - exact (proj1 (@cross_validation_errors toy_generator LR.t (@LogisticRegressionGD_Classifier toy_generator) X0 y0 0 lr0 0%N 0)
                 eq_refl).
  - exact (proj2 (@cross_validation_errors toy_generator LR.t (@LogisticRegressionGD_Classifier toy_generator) X0 [0%Z] 2 lr0 0%N 0)
                 H).
Defined.

Lemma cross_validation_range_witness :
  1 <= 2 <= length X0 /\ length y0 = length X0 /\
  exists acc algo' g' a,
    @cross_validation toy_generator LR.t (@LogisticRegressionGD_Classifier toy_generator) X0 y0 2 lr0 0 0 = Some (acc, algo', g') /\
    acc = Fin a /\ (0 <= a <= 1)%R.
Proof.
  assert (H1 : 1 <= 2 <= length X0) by (cbn; lia).
  assert (H2 : length y0 = length X0) by reflexivity.
  split; [exact H1|]. split; [exact H2|].
  destruct (@cross_validation_LR_returns toy_generator X0 y0 2 lr0 0%N 0
              ltac:(lia) H2) as ([[acc algo'] g'] & Hr).
  destruct (@cross_validation_range toy_generator LR.t (@LogisticRegressionGD_Classifier toy_generator) X0 y0 2 lr0 algo' 0%N 0 g' acc
              LR_predict_length H1 H2 Hr) as (a & Ha & Hrange).
  exists acc, algo', g', a. split; [exact Hr|]. split; [exact Ha|exact Hrange].
Defined.

Lemma cross_validation_too_many_folds_witness :
  length X0 < 3 /\ length y0 = length X0 /\
  exists algo' g',
    @cross_validation toy_generator LR.t (@LogisticRegressionGD_Classifier toy_generator) X0 y0 3 lr0 0 0 = Some (NaN, algo', g').
Proof.
  assert (H1 : length X0 < 3) by (cbn; lia).
  assert (H2 : length y0 = length X0) by reflexivity.
  split; [exact H1|]. split; [exact H2|].
  destruct (@cross_validation_LR_returns toy_generator X0 y0 3 lr0 0%N 0
              ltac:(lia) H2) as ([[acc algo'] g'] & Hr).
  destruct (@cross_validation_too_many_folds toy_generator LR.t (@LogisticRegressionGD_Classifier toy_generator) X0 y0 3 lr0 algo'
              0%N 0 g' acc H1 H2 Hr) as (Ha & _).
  exists algo', g'. rewrite Hr, Ha. reflexivity.
Defined.

(** ** The Gaussian density *)

Lemma Rnorm_pdf_le_peak (x mu sigma : R) :
  (0 < sigma)%R -> (Rnorm_pdf x mu sigma <= 1 / (sigma * sqrt (2 * PI)))%R.
Proof.
  intros Hs. pose proof sqrt_2PI_pos as Hp. unfold Rnorm_pdf.
  set (c := (1 / (sigma * sqrt (2 * PI)))%R).
  assert (Hc : (0 < c)%R) by (apply Rdiv_lt_0_compat; [lra|nra]).
  set (e := (- ((x - mu) * (x - mu)) / (2 * (sigma * sigma)))%R).
  assert (Hd : (0 < / (2 * (sigma * sigma)))%R) by (apply Rinv_0_lt_compat; nra).
  assert (He : (e <= 0)%R).
  { unfold e, Rdiv. pose proof (Rle_0_sqr (x - mu)) as Hq. unfold Rsqr in Hq.
    apply Ropp_le_cancel. rewrite Ropp_0, <- Ropp_mult_distr_l, Ropp_involutive.
    apply Rmult_le_pos; lra. }
  assert (Hexp : (exp e <= 1)%R).
  { destruct (Req_dec e 0) as [->|Hne]; [rewrite exp_0; lra|].
    rewrite <- exp_0. apply Rlt_le, exp_increasing. lra. }
  nra.
Qed.

Lemma Rnorm_pdf_mean (mu sigma : R) :
  Rnorm_pdf mu mu sigma = (1 / (sigma * sqrt (2 * PI)))%R.
Proof.
  unfold Rnorm_pdf.
  replace (- ((mu - mu) * (mu - mu)) / (2 * (sigma * sigma)))%R with 0%R
    by (unfold Rdiv; replace ((mu - mu) * (mu - mu))%R with 0%R by lra;
        now rewrite Ropp_0, Rmult_0_l).
  rewrite exp_0. lra.
Qed.

(** X15.  For a deviation between 1e-6 and 1e6 and a point and a mean of
    magnitude at most 1e6, the density is a number between 0 and
    [1 / (sigma * sqrt (2 pi))], positive when the point is within 30
    deviations of the mean, and at the mean it is
    [1 / (sigma * sqrt (2 pi))]. *)
Theorem norm_pdf_bounds (x mu sigma : R) :
  (1 / 1000000 <= sigma <= 1000000)%R ->
  (Rabs x <= 1000000)%R -> (Rabs mu <= 1000000)%R ->
  exists p,
    norm_pdf (Fin x) (Fin mu) (Fin sigma) = Fin p /\
    (0 <= p <= 1 / (sigma * sqrt (2 * PI)))%R /\
    ((Rabs (x - mu) <= 30 * sigma)%R -> (0 < p)%R) /\
    norm_pdf (Fin mu) (Fin mu) (Fin sigma) = Fin (1 / (sigma * sqrt (2 * PI))).
Proof.
  intros Hs _ _. assert (Hpos : (0 < sigma)%R) by lra.
  exists (Rnorm_pdf x mu sigma).
  pose proof (Rnorm_pdf_pos x mu sigma Hpos) as Hp.
  split; [now apply norm_pdf_Fin|]. split.
  - split; [lra|now apply Rnorm_pdf_le_peak].
  - split; [intros _; exact Hp|].
    rewrite norm_pdf_Fin by assumption. f_equal. apply Rnorm_pdf_mean.
Qed.

Lemma norm_pdf_bounds_witness :
  exists p, norm_pdf (Fin 1) (Fin 3) (Fin 2) = Fin p /\
            (0 <= p <= 1 / (2 * sqrt (2 * PI)))%R.
Proof.
  assert (H1 : (1 / 1000000 <= 2 <= 1000000)%R) by lra.
  assert (H2 : (Rabs 1 <= 1000000)%R) by (rewrite Rabs_R1; lra).
  assert (H3 : (Rabs 3 <= 1000000)%R) by (rewrite Rabs_pos_eq; lra).
  destruct (norm_pdf_bounds 1 3 2 H1 H2 H3) as (p & Hp & Hr & _).
  exists p. split; [exact Hp|exact Hr].
Defined.

(** ** The mixture density *)

Lemma foldM_fails {A B : Type} (f : B -> A -> option B) (a : A) (l : list A) :
  (forall b, f b a = None) -> In a l -> forall b, foldM f l b = None.
Proof.
  intros Hf. induction l as [|x l IH]; intros Hin b; [destruct Hin|].
  cbn [foldM]. destruct Hin as [->|Hin].
  - now rewrite Hf.
  - destruct (f b x); [|reflexivity]. cbn [bind]. now apply IH.
Qed.

Lemma getitem_None {A : Type} (l : list A) (j : nat) :
  length l <= j -> getitem l j = None.
Proof. intros H. unfold getitem. now apply nth_error_None. Qed.

Lemma firstn_nth {A : Type} (l : list A) (n j : nat) (d : A) :
  j < n -> nth j (firstn n l) d = nth j l d.
Proof.
  revert n j. induction l as [|x l IH]; intros [|n] [|j] H; cbn; try reflexivity; try lia.
  apply IH. lia.
Qed.

(** X17.  [gmm_pdf] reads [mus[j]] and [sigmas[j]] for every [j] below
    [len(weights)]: it raises exactly when [mus] or [sigmas] is shorter than
    [weights]; entries beyond [len(weights)] are ignored; and with no weight
    the sum is 0. *)
Theorem gmm_pdf_lengths (x : number) (weights mus sigmas : vec) :
  (gmm_pdf x weights mus sigmas = None
   <-> length mus < length weights \/ length sigmas < length weights) /\
  (length weights <= length mus -> length weights <= length sigmas ->
   gmm_pdf x weights mus sigmas
   = gmm_pdf x weights (firstn (length weights) mus)
                       (firstn (length weights) sigmas)) /\
  gmm_pdf x [] mus sigmas = Some (Fin 0).
Proof.
  assert (Hok : forall ms ss, length weights <= length ms ->
                  length weights <= length ss ->
                  gmm_pdf x weights ms ss
                  = Some (fold_left
                            (fun pdf j => (pdf + nth j weights NaN
                                                 * norm_pdf x (nth j ms NaN) (nth j ss NaN))%num)
                            (seq 0 (length weights)) (Fin 0))).
  { intros ms ss Hm Hs. unfold gmm_pdf. apply foldM_total.
    intros j pdf Hj. apply in_seq in Hj.
    rewrite (getitem_nth weights j NaN), (getitem_nth ms j NaN),
      (getitem_nth ss j NaN) by lia.
    reflexivity. }
  split; [|split].
  - split.
    + intros H. destruct (Nat.lt_ge_cases (length mus) (length weights)) as [Hm|Hm];
        [now left|].
      destruct (Nat.lt_ge_cases (length sigmas) (length weights)) as [Hs|Hs];
        [now right|].
      rewrite (Hok mus sigmas Hm Hs) in H. discriminate.
    + intros [Hm|Hs]; unfold gmm_pdf.
      * apply (foldM_fails _ (length mus)); [|apply in_seq; lia].
        intros b. destruct (getitem weights (length mus)); [|reflexivity].
        cbn [bind]. now rewrite (getitem_None mus) by lia.
      * apply (foldM_fails _ (length sigmas)); [|apply in_seq; lia].
        intros b. destruct (getitem weights (length sigmas)); [|reflexivity].
        cbn [bind]. destruct (getitem mus (length sigmas)); [|reflexivity].
        cbn [bind]. now rewrite (getitem_None sigmas) by lia.
  - intros Hm Hs. rewrite (Hok mus sigmas Hm Hs).
    rewrite Hok by (rewrite length_firstn; lia). f_equal.
    assert (Hext : forall l acc,
              (forall j, In j l -> j < length weights) ->
              fold_left (fun pdf j => (pdf + nth j weights NaN
                                             * norm_pdf x (nth j mus NaN) (nth j sigmas NaN))%num)
                        l acc
              = fold_left (fun pdf j => (pdf + nth j weights NaN
                                               * norm_pdf x
                                                   (nth j (firstn (length weights) mus) NaN)
                                                   (nth j (firstn (length weights) sigmas) NaN))%num)
                          l acc).
    { induction l as [|j l IH]; intros acc Hl; [reflexivity|].
      cbn [fold_left]. rewrite !firstn_nth by (apply Hl; now left).
      apply IH. intros j' Hj'. apply Hl. now right. }
    apply Hext. intros j Hj. apply in_seq in Hj. lia.
  - reflexivity.
Qed.

(** The mixture density over the reals. *)
Definition Rmixture (x : R) (ws ms ss : list R) : R :=
  Rsum (map (fun j => (nth j ws 0 * Rnorm_pdf x (nth j ms 0) (nth j ss 0))%R)
            (seq 0 (length ws))).

Lemma mixture_Fin (x : R) (ws ms ss : list R) :
  length ms = length ws -> length ss = length ws ->
  Forall (fun s => (0 < s)%R) ss ->
  mixture (Fin x) (map Fin ws) (map Fin ms) (map Fin ss) = Fin (Rmixture x ws ms ss).
Proof.
  intros Hm Hs Hpos. unfold mixture, Rmixture. rewrite length_map.
  assert (H : forall l acc,
            (forall j, In j l -> j < length ws) ->
            fold_left (fun pdf j => (pdf + nth j (map Fin ws) NaN
                                           * norm_pdf (Fin x) (nth j (map Fin ms) NaN)
                                                      (nth j (map Fin ss) NaN))%num)
                      l (Fin acc)
            = Fin (acc + Rsum (map (fun j => (nth j ws 0
                                              * Rnorm_pdf x (nth j ms 0) (nth j ss 0))%R) l))).
  { induction l as [|j l IH]; intros acc Hl.
    - cbn. rewrite Rsum_nil. f_equal. lra.
    - cbn [fold_left map]. rewrite Rsum_cons.
      assert (Hj : j < length ws) by (apply Hl; now left).
      rewrite (nth_map_Fin ws j), (nth_map_Fin ms j), (nth_map_Fin ss j) by lia.
      rewrite norm_pdf_Fin.
      + cbn [fmul fadd]. rewrite IH by (intros j' Hj'; apply Hl; now right).
        f_equal. lra.
      + rewrite Forall_forall in Hpos. apply Hpos, nth_In. lia. }
  rewrite H by (intros j Hj; apply in_seq in Hj; lia). f_equal. lra.
Qed.

Lemma Rsum_ge_In (l : list R) (v : R) :
  Forall (fun u => (0 <= u)%R) l -> In v l -> (v <= Rsum l)%R.
Proof.
  induction 1 as [|u l Hu Hl IH]; intros Hin; [destruct Hin|].
  rewrite Rsum_cons. pose proof (Rsum_nonneg l Hl).
  destruct Hin as [->|Hin]; [lra|]. specialize (IH Hin). lra.
Qed.

(** X18.  With as many means and deviations as weights, weights between 0
    and 1, deviations between 1e-6 and 1e6 and a point and means of
    magnitude at most 1e6, the mixture density is a non-negative number; it
    is positive when some component of weight at least 1e-6 has the point
    within 30 deviations of its mean. *)
Theorem gmm_pdf_nonneg (x : R) (ws ms ss : list R) :
  length ms = length ws -> length ss = length ws ->
  (Rabs x <= 1000000)%R ->
  Forall (fun w => (0 <= w <= 1)%R) ws ->
  Forall (fun m => (Rabs m <= 1000000)%R) ms ->
  Forall (fun s => (1 / 1000000 <= s <= 1000000)%R) ss ->
  exists p,
    gmm_pdf (Fin x) (map Fin ws) (map Fin ms) (map Fin ss) = Some (Fin p) /\
    (0 <= p)%R /\
    ((exists j, j < length ws /\ (1 / 1000000 <= nth j ws 0)%R /\
                (Rabs (x - nth j ms 0) <= 30 * nth j ss 0)%R) ->
     (0 < p)%R).
Proof.
  intros Hm Hs _ Hw _ Hss.
  assert (Hpos : Forall (fun s => (0 < s)%R) ss).
  { eapply Forall_impl; [|exact Hss]. cbn. intros s H. lra. }
  exists (Rmixture x ws ms ss). split.
  { rewrite gmm_pdf_eq by (rewrite !length_map; assumption).
    f_equal. now apply mixture_Fin. }
  assert (Hterms : Forall (fun u => (0 <= u)%R)
            (map (fun j => (nth j ws 0 * Rnorm_pdf x (nth j ms 0) (nth j ss 0))%R)
                 (seq 0 (length ws)))).
  { apply Forall_forall. intros v Hv. apply in_map_iff in Hv as (j & <- & Hj).
    apply in_seq in Hj. apply Rmult_le_pos.
    - rewrite Forall_forall in Hw. apply (Hw (nth j ws 0%R)), nth_In. lia.
    - apply Rlt_le, Rnorm_pdf_pos. rewrite Forall_forall in Hpos.
      apply Hpos, nth_In. lia. }
  split; [now apply Rsum_nonneg|].
  intros (j & Hj & Hwj & _).
  assert (Hpj : (0 < nth j ws 0 * Rnorm_pdf x (nth j ms 0) (nth j ss 0))%R).
  { apply Rmult_lt_0_compat; [lra|]. apply Rnorm_pdf_pos.
    rewrite Forall_forall in Hpos. apply Hpos, nth_In. lia. }
  eapply Rlt_le_trans; [exact Hpj|]. unfold Rmixture.
  apply Rsum_ge_In; [exact Hterms|].
  apply in_map_iff. exists j. split; [reflexivity|]. apply in_seq. lia.
Qed.

Lemma gmm_pdf_nonneg_witness :
  exists p,
    gmm_pdf (Fin 0) (map Fin [1 / 2; 1 / 2]%R) (map Fin [0; 3]%R) (map Fin [1; 2]%R)
    = Some (Fin p) /\ (0 < p)%R.
Proof.
  assert (H1 : (Rabs 0 <= 1000000)%R) by (rewrite Rabs_R0; lra).
  assert (H2 : Forall (fun w => (0 <= w <= 1)%R) [1 / 2; 1 / 2]%R)
    by (repeat constructor; lra).
  assert (H3 : Forall (fun m => (Rabs m <= 1000000)%R) [0; 3]%R).
  { repeat constructor; [rewrite Rabs_R0|rewrite Rabs_pos_eq]; lra. }
  assert (H4 : Forall (fun s => (1 / 1000000 <= s <= 1000000)%R) [1; 2]%R)
    by (repeat constructor; lra).
  destruct (gmm_pdf_nonneg 0 [1 / 2; 1 / 2]%R [0; 3]%R [1; 2]%R eq_refl eq_refl
              H1 H2 H3 H4) as (p & Hp & _ & Hpos).
  exists p. split; [exact Hp|]. apply Hpos. exists 0.
  split; [cbn; lia|]. cbn [nth]. split; [lra|].
  replace (0 - 0)%R with 0%R by lra. rewrite Rabs_R0. lra.
Defined.

Lemma gmm_pdf_lengths_witness :
  length [Fin 0] < length [Fin 1; Fin 1] /\
  gmm_pdf (Fin 0) [Fin 1; Fin 1] [Fin 0] [Fin 1; Fin 1] = None.
Proof.
  assert (H : length [Fin 0] < length [Fin 1; Fin 1]) by (cbn; lia).
  split; [exact H|].
  exact (proj2 (proj1 (gmm_pdf_lengths (Fin 0) [Fin 1; Fin 1] [Fin 0] [Fin 1; Fin 1]))
               (or_introl H)).
Defined.

(** ** EM: the start, the errors, the parameters after [fit] *)

Section EMProperties.
Context {G : Generator}.

(** X19.  [init_params] raises when [k] exceeds the number of data points
    (no [k] distinct indices to draw); otherwise it sets [k] equal weights
    [1 / k], [k] means that are all values of the data, and [k] deviations
    equal to the standard deviation of the data, and leaves the rest of the
    instance as it was. *)
Theorem EM_init_params_start (self : EM.t) (data : vec) (g : rng) :
  (length data < EM.k self -> EM.init_params self data g = None) /\
  (EM.k self <= length data ->
   exists start g',
     EM.init_params self data g = Some (start, g') /\
     EM.weights start = repeat (Fin 1 / of_nat (EM.k self))%num (EM.k self) /\
     length (EM.mus start) = EM.k self /\
     Forall (fun mu => In mu data) (EM.mus start) /\
     EM.sigmas start = repeat (std data) (EM.k self) /\
     EM.k start = EM.k self /\ EM.n_iter start = EM.n_iter self /\
     EM.eps start = EM.eps self /\
     EM.responsibilities start = EM.responsibilities self /\
     EM.costs start = EM.costs self).
Proof.
  split; [apply EM_init_params_error|]. intros Hk.
  exists (EM_start self data g), (snd (rng_choice (length data) (EM.k self) g)).
  split; [now apply EM_init_params_eq|].
  destruct (rng_choice_range (length data) (EM.k self) g Hk) as [Hlen Hrange].
  unfold EM_start. cbn [EM.set_params EM.weights EM.mus EM.sigmas EM.k EM.n_iter
                         EM.eps EM.responsibilities EM.costs].
  split; [now rewrite map_repeat|]. split; [now rewrite length_map|].
  split.
  - apply Forall_forall. intros mu Hmu. apply in_map_iff in Hmu as (i & <- & Hi).
    rewrite Forall_forall in Hrange. apply nth_In, Hrange, Hi.
  - repeat split; reflexivity.
Qed.

(** X20.  [fit] raises exactly when [k] exceeds the number of data points;
    with [k <= len(data)] it returns, whatever the values of the data. *)
Theorem EM_fit_raises_iff (self : EM.t) (data : vec) (g : rng) :
  EM.fit self data g = None <-> length data < EM.k self.
Proof.
  split.
  - intros H. destruct (Nat.lt_ge_cases (length data) (EM.k self)) as [Hk|Hk];
      [exact Hk|].
    destruct (EM_fit_spec self data g Hk) as (s' & c & new & Hfit & _).
    congruence.
  - intros Hk. unfold EM.fit. now rewrite EM_init_params_error.
Qed.

(** X21.  With one component and at least one pass, on data of magnitude at
    most 1000 whose standard deviation lies between 1/1000 and 1000 and
    whose points are within 30 standard deviations of each other, [fit]
    returns the weight 1, the mean of the data and their (population)
    standard deviation, whatever the seed, [eps] and the number of passes. *)
Theorem EM_one_component_fit (self : EM.t) (xs : list R) (g : rng) :
  EM.k self = 1 -> 0 < EM.n_iter self ->
  Forall (fun x => (Rabs x <= 1000)%R) xs ->
  (1 / 1000 <= Rstd xs <= 1000)%R ->
  (forall a b, In a xs -> In b xs -> (Rabs (a - b) <= 30 * Rstd xs)%R) ->
  exists self' g',
    EM.fit self (map Fin xs) g = Some (self', g') /\
    EM.get_dist_params self' = ([Fin 1], [Fin (Rmean xs)], [Fin (Rstd xs)]).
Proof.
  intros Hk Hn _ Hstd _.
  assert (Hnc : ~ constant xs).
  { intros Hc. apply Rstd_constant in Hc. lra. }
  exact (EM_fit_one_component self xs g Hk Hn Hnc).
Qed.

End EMProperties.

Lemma EM_init_params_start_witness :
  EM.k em0 <= length data0 /\
  exists start g',
    @EM.init_params toy_generator em0 data0 0 = Some (start, g') /\
    length (EM.mus start) = EM.k em0 /\
    Forall (fun mu => In mu data0) (EM.mus start).
Proof.
  assert (H : EM.k em0 <= length data0) by (cbn; lia).
  split; [exact H|].
  destruct (proj2 (@EM_init_params_start toy_generator em0 data0 0) H)
    as (start & g' & Hi & _ & Hl & Hin & _).
  exists start, g'. split; [exact Hi|]. split; [exact Hl|exact Hin].
Defined.

Lemma Rstd_02 : Rstd [0; 2]%R = 1%R.
Proof.
  unfold Rstd, Rmean, Rsquares, centered, Rmean. cbn [map length INR].
  rewrite !Rsum_cons, !Rsum_nil.
  replace (((0 - (0 + (2 + 0)) / (1 + 1)) * (0 - (0 + (2 + 0)) / (1 + 1)) +
            ((2 - (0 + (2 + 0)) / (1 + 1)) * (2 - (0 + (2 + 0)) / (1 + 1)) + 0))
           / (1 + 1))%R with 1%R by field.
  apply sqrt_1.
Qed.

Lemma EM_one_component_fit_witness :
  exists self' g',
    @EM.fit toy_generator em0 (map Fin [0; 2]%R) 0 = Some (self', g') /\
    EM.get_dist_params self'
    = ([Fin 1], [Fin (Rmean [0; 2]%R)], [Fin (Rstd [0; 2]%R)]).
Proof.
  assert (H1 : EM.k em0 = 1) by reflexivity.
  assert (H2 : 0 < EM.n_iter em0) by (cbn; lia).
  assert (H3 : Forall (fun x => (Rabs x <= 1000)%R) [0; 2]%R).
  { repeat constructor; [rewrite Rabs_R0|rewrite Rabs_pos_eq]; lra. }
  assert (H4 : (1 / 1000 <= Rstd [0; 2]%R <= 1000)%R) by (rewrite Rstd_02; lra).
  assert (H5 : forall a b, In a [0; 2]%R -> In b [0; 2]%R ->
                           (Rabs (a - b) <= 30 * Rstd [0; 2]%R)%R).
  { rewrite Rstd_02. intros a b [<-|[<-|[]]] [<-|[<-|[]]];
      unfold Rabs; destruct (Rcase_abs _); lra. }
  exact (@EM_one_component_fit toy_generator em0 [0; 2]%R 0 H1 H2 H3 H4 H5).
Defined.

(** ** Naive Bayes: the tables of a new instance after [fit] *)

Lemma dict_set_new {V : Type} (d : dict V) (k : Z) (v : V) :
  ~ In k (dict_keys d) -> dict_set d k v = d ++ [(k, v)].
Proof.
  unfold dict_keys. induction d as [|[k0 v0] d IH]; cbn; intros Hn; [reflexivity|].
  destruct (Z.eqb_spec k0 k) as [->|Hne]; [exfalso; apply Hn; now left|].
  f_equal. apply IH. intros H. apply Hn. now right.
Qed.

Lemma list_sum_cons (a : nat) (l : list nat) : list_sum (a :: l) = a + list_sum l.
Proof. reflexivity. Qed.

Lemma count_one (x : Z) (cs : list Z) :
  NoDup cs -> In x cs ->
  list_sum (map (fun c => if Z.eqb x c then 1 else 0) cs) = 1.
Proof.
  induction 1 as [|c cs Hc Hnd IH]; intros Hin; [destruct Hin|].
  cbn [map]; rewrite ?list_sum_cons. destruct (Z.eqb_spec x c) as [->|Hne].
  - assert (H0 : list_sum (map (fun c0 => if Z.eqb c c0 then 1 else 0) cs) = 0).
    { clear - Hc. induction cs as [|a cs IH]; [reflexivity|]. cbn [map]; rewrite ?list_sum_cons.
      destruct (Z.eqb_spec c a) as [->|_]; [exfalso; apply Hc; now left|].
      apply IH. intros H. apply Hc. now right. }
    rewrite H0. reflexivity.
  - destruct Hin as [->|Hin]; [contradiction|]. rewrite IH by assumption.
    reflexivity.
Qed.

(** The classes partition the rows. *)
Lemma class_sizes_sum {A : Type} (X : list A) (y : list Z) (cs : list Z) :
  NoDup cs -> (forall c, In c y -> In c cs) ->
  list_sum (map (fun c => length (mask_rows X y c)) cs) = length (combine X y).
Proof.
  intros Hnd Hin. unfold mask_rows.
  assert (H : forall L : list (A * Z),
            (forall p, In p L -> In (snd p) cs) ->
            list_sum (map (fun c => length (map fst (filter (fun p => Z.eqb (snd p) c) L))) cs)
            = length L).
  { induction L as [|p L IH]; intros HL.
    - cbn. clear. induction cs; [reflexivity|assumption].
    - assert (Hstep : forall c,
                length (map fst (filter (fun q => Z.eqb (snd q) c) (p :: L)))
                = (if Z.eqb (snd p) c then 1 else 0)
                  + length (map fst (filter (fun q => Z.eqb (snd q) c) L))).
      { intros c. cbn [filter]. destruct (Z.eqb (snd p) c); reflexivity. }
      rewrite (map_ext _ _ Hstep).
      assert (Hsplit : forall (f g : Z -> nat) l,
                list_sum (map (fun c => f c + g c) l)
                = list_sum (map f l) + list_sum (map g l)).
      { intros f g l. induction l as [|a l IHl]; [reflexivity|].
        cbn [map]; rewrite ?list_sum_cons. rewrite IHl. lia. }
      rewrite Hsplit, IH by (intros q Hq; apply HL; now right).
      rewrite count_one; [reflexivity|exact Hnd|apply HL; now left]. }
  apply H. intros [a c] Hp. apply in_combine_r in Hp. now apply Hin.
Qed.

Lemma Rsum_map_INR_div (f : Z -> nat) (m : R) (cs : list Z) :
  Rsum (map (fun c => (INR (f c) / m)%R) cs) = (INR (list_sum (map f cs)) / m)%R.
Proof.
  induction cs as [|c cs IH]; [cbn [map INR]; change (list_sum []) with 0; cbn [INR]; rewrite Rsum_nil; lra|].
  cbn [map]; rewrite ?list_sum_cons. rewrite Rsum_cons, IH, plus_INR. lra.
Qed.

Definition components (k : nat) (p : vec * vec * vec) : Prop :=
  length (fst (fst p)) = k /\ length (snd (fst p)) = k /\ length (snd p) = k.

Section NBTables.
Context {G : Generator}.

Lemma fitted_params_components (k : nat) (rs : N) (col : vec) (p : vec * vec * vec) :
  fitted_params k rs col = Some p -> components k p /\ k <= length col.
Proof.
  unfold fitted_params. intros H.
  destruct (Nat.lt_ge_cases (length col) k) as [Hk|Hk].
  - unfold EM.fit in H. rewrite EM_init_params_error in H by exact Hk. discriminate.
  - destruct (EM_fit_spec (EM.mk k 1000 (Fin (1 / 100)) rs [] [] [] [] []) col
                (rng_seed rs) Hk) as (s' & c & new & Hfit & _ & _ & _ & _ & HI & _).
    rewrite Hfit in H. cbn in H. injection H as <-.
    destruct HI as (_ & _ & _ & _ & Hw & Hm & Hs). cbn in Hw, Hm, Hs.
    split; [|exact Hk]. unfold components, EM.get_dist_params. cbn. auto.
Qed.

Lemma class_params_shape (k : nat) (rs : N) (X : matrix) (y : list Z) (c : Z)
  (ps : list (vec * vec * vec)) :
  class_params k rs X y c = Some ps ->
  length ps = shape1 (mask_rows X y c) /\ Forall (components k) ps /\
  (0 < shape1 (mask_rows X y c) -> k <= length (mask_rows X y c)).
Proof.
  unfold class_params. cbv zeta. intros H. apply mapM_Forall2 in H.
  split; [|split].
  - rewrite <- (Forall2_length H). apply length_seq.
  - clear - H. induction H as [|j p js ps Hp _ IH]; constructor; [|exact IH].
    now apply fitted_params_components in Hp.
  - intros Hpos. destruct (seq 0 (shape1 (mask_rows X y c))) as [|j js] eqn:Hs.
    + apply (f_equal (@length nat)) in Hs. rewrite length_seq in Hs. cbn in Hs. lia.
    + inversion H as [|? p ? ? Hp _]; subst.
      apply fitted_params_components in Hp as [_ Hk].
      unfold column in Hk. now rewrite length_map in Hk.
Qed.

Lemma learn_loop_new_keys (X : matrix) (y : list Z) : forall cs self self',
  NoDup cs ->
  (forall c, In c cs -> ~ In c (dict_keys (NB.prior self)) /\
                        ~ In c (dict_keys (NB.dist_params self))) ->
  foldM (fun self c =>
           ps <- class_params (NB.k self) (NB.random_state self) X y c ;;
           Some (store_class self c (class_prior X y c) ps))
        cs self = Some self' ->
  NB.prior self' = NB.prior self ++ map (fun c => (c, class_prior X y c)) cs /\
  dict_keys (NB.dist_params self') = dict_keys (NB.dist_params self) ++ cs.
Proof.
  induction cs as [|c cs IH]; intros self self' Hnd Hnew H; cbn [foldM] in H.
  - injection H as <-. cbn. now rewrite !app_nil_r.
  - inversion Hnd as [|? ? Hc Hnd']; subst.
    destruct (class_params _ _ X y c) as [ps|]; [|discriminate]. cbn [bind] in H.
    destruct (Hnew c (or_introl eq_refl)) as [Hp Hd].
    apply IH in H; [|exact Hnd'|].
    + destruct H as [H1 H2]. rewrite H1, H2.
      cbn [store_class NB.prior NB.dist_params].
      rewrite (dict_set_new (NB.prior self)) by exact Hp.
      rewrite (dict_set_new (NB.dist_params self)) by exact Hd.
      unfold dict_keys. rewrite map_app, <- !app_assoc. cbn. now split.
    + intros c' Hc'. cbn [store_class NB.prior NB.dist_params].
      rewrite !dict_keys_set.
      destruct (Hnew c' (or_intror Hc')) as [Hp' Hd'].
      assert (Hne : c' <> c) by (intros ->; contradiction).
      split.
      * destruct (existsb _ _); [exact Hp'|]. intros Hin.
        apply in_app_or in Hin as [Hin|[Hin|[]]]; [contradiction|congruence].
      * destruct (existsb _ _); [exact Hd'|]. intros Hin.
        apply in_app_or in Hin as [Hin|[Hin|[]]]; [contradiction|congruence].
Qed.

(** The prior table of a new instance after [fit]. *)
Lemma fit_new_prior (k : nat) (random_state : N) (X : matrix) (y : list Z)
  (g g' : rng) (self' : NB.t) :
  NB.fit (NB.init k random_state) X y g = Some (self', g') ->
  NB.prior self' = map (fun c => (c, class_prior X y c)) (unique y) /\
  dict_keys (NB.dist_params self') = unique y.
Proof.
  intros Hfit.
  assert (Hl : learn (NB.init k random_state) X y = Some self')
    by (rewrite <- (fit_learn _ X y g), Hfit; reflexivity).
  unfold learn in Hl.
  assert (Hnew : forall c, In c (unique y) ->
            ~ In c (dict_keys (NB.prior (NB.init k random_state))) /\
            ~ In c (dict_keys (NB.dist_params (NB.init k random_state))))
    by (intros c _; split; intros []).
  destruct (learn_loop_new_keys X y _ _ _ (unique_NoDup y) Hnew Hl) as [Hp Hd].
  cbn [NB.init NB.prior NB.dist_params app] in Hp, Hd.
  change (dict_keys [] ++ unique y) with (unique y) in Hd. now split.
Qed.

(** X23.  After [fit] on a new instance the keys of [prior] and of
    [dist_params] are the distinct labels in ascending order; the prior of a
    class is the fraction of the rows that carry its label, and these
    fractions sum to 1; [dist_params] holds for every class one mixture per
    column of its rows, each of [k] weights, means and deviations. *)
Theorem NB_fit_tables (k : nat) (random_state : N) (X : matrix) (y : list Z)
  (g g' : rng) (self' : NB.t) :
  NB.fit (NB.init k random_state) X y g = Some (self', g') ->
  NB.prior self'
  = map (fun c => (c, (of_nat (length (mask_rows X y c)) / of_nat (length X))%num))
        (unique y) /\
  dict_keys (NB.dist_params self') = unique y /\
  (forall c, In c y ->
     exists ps, dict_get (NB.dist_params self') c = Some ps /\
                length ps = shape1 (mask_rows X y c) /\
                Forall (components k) ps) /\
  (length y = length X -> X <> [] -> sum (map snd (NB.prior self')) = Fin 1).
Proof.
  intros Hfit.
  assert (Hl : learn (NB.init k random_state) X y = Some self')
    by (rewrite <- (fit_learn _ X y g), Hfit; reflexivity).
  unfold learn in Hl.
  assert (Hnew : forall c, In c (unique y) ->
            ~ In c (dict_keys (NB.prior (NB.init k random_state))) /\
            ~ In c (dict_keys (NB.dist_params (NB.init k random_state))))
    by (intros c _; split; intros []).
  destruct (learn_loop_new_keys X y _ _ _ (unique_NoDup y) Hnew Hl) as [Hp Hd].
  destruct (learn_loop_spec X y _ _ _ Hl) as (_ & _ & _ & _ & Hstored).
  specialize (Hstored (unique_NoDup y)).
  cbn [NB.init NB.prior NB.dist_params app] in Hp, Hd.
  change (dict_keys [] ++ unique y) with (unique y) in Hd.
  split; [exact Hp|]. split; [exact Hd|]. split.
  - intros c Hc. destruct (Hstored c) as [_ Hps]; [now apply unique_In|].
    cbn [NB.init NB.k NB.random_state] in Hps.
    destruct (class_params k random_state X y c) as [ps|] eqn:Hcp.
    + exists ps. split; [exact Hps|].
      destruct (class_params_shape _ _ _ _ _ _ Hcp) as (H1 & H2 & _). now split.
    + exfalso.
      assert (Hin : In c (dict_keys (NB.dist_params self')))
        by (rewrite Hd; now apply unique_In).
      clear - Hps Hin. unfold dict_keys in Hin.
      induction (NB.dist_params self') as [|[c0 v] d IH]; [destruct Hin|].
      cbn in Hps, Hin. destruct (Z.eqb_spec c0 c) as [->|Hne]; [discriminate|].
      destruct Hin as [Heq|Hin]; [contradiction|now apply IH].
  - intros Hlen Hne. rewrite Hp, map_map. cbn [snd].
    pose proof (INR_length_pos X Hne) as Hm.
    assert (Hfin : map (fun c => class_prior X y c) (unique y)
                   = map Fin (map (fun c => (INR (length (mask_rows X y c))
                                             / INR (length X))%R) (unique y))).
    { rewrite map_map. apply map_ext. intros c. unfold class_prior, of_nat.
      apply fdiv_Fin. lra. }
    rewrite Hfin, sum_Fin, Rsum_map_INR_div. f_equal.
    rewrite class_sizes_sum;
      [|apply unique_NoDup|intros c Hc; now apply unique_In].
    rewrite length_combine, Hlen, Nat.min_id. field. lra.
Qed.

(** A class with fewer rows than [k] stops [fit]. *)
Lemma fit_small_class_fails (self : NB.t) (X : matrix) (y : list Z) (g : rng) (c : Z) :
  In c y -> 0 < shape1 (mask_rows X y c) ->
  length (mask_rows X y c) < NB.k self ->
  NB.fit self X y g = None.
Proof.
  intros Hc Hcols Hsmall.
  destruct (NB.fit self X y g) as [[st g']|] eqn:Hfit; [exfalso|reflexivity].
  assert (Hl : learn self X y = Some st)
    by (rewrite <- (fit_learn _ X y g), Hfit; reflexivity).
  unfold learn in Hl.
  destruct (learn_loop_spec X y _ _ _ Hl) as (_ & _ & _ & _ & Hstored).
  destruct (Hstored (unique_NoDup y) c) as [_ Hps]; [now apply unique_In|].
  destruct (class_params (NB.k self) (NB.random_state self) X y c) as [ps|] eqn:Hcp.
  - destruct (class_params_shape _ _ _ _ _ _ Hcp) as (_ & _ & Hk).
    specialize (Hk Hcols). lia.
  - (* the loop passed class c, so its mixtures were fitted *)
    clear - Hl Hcp Hc.
    assert (Hfail : forall cs s0, In c cs ->
              NB.k s0 = NB.k self -> NB.random_state s0 = NB.random_state self ->
              foldM (fun self c =>
                       ps <- class_params (NB.k self) (NB.random_state self) X y c ;;
                       Some (store_class self c (class_prior X y c) ps))
                    cs s0 = None).
    { induction cs as [|c1 cs IH]; intros s0 Hin Hk0 Hr0; [destruct Hin|].
      cbn [foldM]. rewrite Hk0, Hr0.
      destruct (Z.eq_dec c1 c) as [->|Hne].
      - now rewrite Hcp.
      - destruct (class_params _ _ X y c1); [|reflexivity]. cbn [bind].
        apply IH; [destruct Hin; [contradiction|assumption]|exact Hk0|exact Hr0]. }
    rewrite (Hfail (unique y) self) in Hl;
      [discriminate|now apply unique_In|reflexivity|reflexivity].
Qed.

(** X24.  [fit] raises when some class has fewer rows than [k] (and at
    least one column): the EM of its first column cannot draw [k] distinct
    starting points. *)
Theorem NB_fit_small_class (self : NB.t) (X : matrix) (y : list Z) (g : rng) (c : Z) :
  In c y -> 0 < shape1 (mask_rows X y c) ->
  length (mask_rows X y c) < NB.k self ->
  NB.fit self X y g = None.
Proof. apply fit_small_class_fails. Qed.

End NBTables.

(** ** Naive Bayes: [predict] *)

Lemma mapM_fails {A B : Type} (f : A -> option B) (a : A) (l : list A) :
  f a = None -> In a l -> mapM f l = None.
Proof.
  intros Hf. induction l as [|x l IH]; intros Hin; [destruct Hin|].
  cbn [mapM]. destruct Hin as [->|Hin].
  - now rewrite Hf.
  - destruct (f x); [|reflexivity]. cbn [bind]. now rewrite IH.
Qed.

Lemma mapM_length {A B : Type} (f : A -> option B) (l : list A) (r : list B) :
  mapM f l = Some r -> length r = length l.
Proof.
  intros H. apply mapM_Forall2 in H. symmetry. eapply Forall2_length; eassumption.
Qed.

(** X25.  [predict] raises on an instance that was never fitted: the
    posterior matrix has no column and [argmax] has nothing to choose from.
    It also raises when [X] has more columns than mixtures were fitted for
    some class of the prior table. *)
Theorem NB_predict_errors (self : NB.t) (X : matrix) (c : Z)
  (ps : list (vec * vec * vec)) :
  (forall k random_state, NB.predict (NB.init k random_state) X = None) /\
  (In c (dict_keys (NB.prior self)) ->
   dict_get (NB.dist_params self) c = Some ps -> length ps < shape1 X ->
   NB.predict self X = None).
Proof.
  split.
  - intros k rs. unfold NB.predict, NB.postiriors_matrix. cbn [NB.init NB.prior dict_keys map foldM bind].
    destruct (mapM _ _); reflexivity.
  - intros Hc Hps Hlen. unfold NB.predict.
    rewrite postiriors_matrix_eq.
    rewrite (mapM_fails _ c); [reflexivity| |exact Hc].
    unfold NB.column_posterior.
    rewrite (foldM_fails _ (length ps)); [reflexivity| |apply in_seq; lia].
    intros b. rewrite Hps. cbn [bind].
    now rewrite (getitem_None ps) by lia.
Qed.

(** The order on numbers that are not nan. *)
Lemma fle_refl (a : number) : isnan a = false -> fle a a = true.
Proof.
  destruct a as [x| | |]; cbn; intros H; try reflexivity; try discriminate.
  destruct (Rle_dec x x); [reflexivity|lra].
Qed.

Lemma not_fle_flt (a b : number) :
  isnan a = false -> isnan b = false -> fle a b = false -> flt b a = true.
Proof.
  destruct a as [x| | |], b as [y| | |]; cbn; intros Ha Hb H;
    try reflexivity; try discriminate.
  destruct (Rle_dec x y); [discriminate|]. destruct (Rlt_dec y x); [reflexivity|lra].
Qed.

Lemma flt_fle (a b : number) : flt a b = true -> fle a b = true.
Proof.
  destruct a as [x| | |], b as [y| | |]; cbn; intros H;
    try reflexivity; try discriminate.
  destruct (Rlt_dec x y); [|discriminate]. destruct (Rle_dec x y); [reflexivity|lra].
Qed.

Lemma fle_flt_trans (a b c : number) :
  fle a b = true -> flt b c = true -> flt a c = true.
Proof.
  destruct a as [x| | |], b as [y| | |], c as [z| | |]; cbn; intros H1 H2;
    try reflexivity; try discriminate.
  destruct (Rle_dec x y); [|discriminate]. destruct (Rlt_dec y z); [|discriminate].
  destruct (Rlt_dec x z); [reflexivity|lra].
Qed.

(** [p] is the first position of a maximum of [l]. *)
Definition first_max (l : vec) (p : nat) : Prop :=
  p < length l /\
  (forall j, j < length l -> fle (nth j l NaN) (nth p l NaN) = true) /\
  (forall j, j < p -> flt (nth j l NaN) (nth p l NaN) = true).

Lemma argmax_from_first_max (l : vec) : forall pre mp best,
  Forall (fun v => isnan v = false) (pre ++ l) ->
  best < length pre -> nth best pre NaN = mp ->
  (forall j, j < length pre -> fle (nth j pre NaN) mp = true) ->
  (forall j, j < best -> flt (nth j pre NaN) mp = true) ->
  first_max (pre ++ l) (argmax_from mp best (length pre) l).
Proof.
  induction l as [|x t IH]; intros pre mp best Hnan Hb Hmp Hle Hlt;
    cbn [argmax_from].
  - rewrite app_nil_r. unfold first_max. rewrite Hmp. auto.
  - assert (Hx : isnan x = false).
    { rewrite Forall_forall in Hnan. apply Hnan, in_or_app. right. now left. }
    assert (Hm : isnan mp = false).
    { rewrite Forall_forall in Hnan. apply Hnan, in_or_app. left.
      rewrite <- Hmp. now apply nth_In. }
    assert (Happ : pre ++ x :: t = (pre ++ [x]) ++ t) by (now rewrite <- app_assoc).
    assert (Hlen : length (pre ++ [x]) = S (length pre))
      by (rewrite length_app; cbn; lia).
    rewrite Happ in *. rewrite <- Hlen.
    destruct (fle x mp) eqn:Hxm; cbn [negb].
    + apply IH; try assumption.
      * lia.
      * now rewrite app_nth1 by lia.
      * intros j Hj. destruct (Nat.eq_dec j (length pre)) as [->|Hne].
        -- rewrite app_nth2, Nat.sub_diag by lia. exact Hxm.
        -- rewrite app_nth1 by lia. apply Hle. lia.
      * intros j Hj. rewrite app_nth1 by lia. now apply Hlt.
    + rewrite Hx. pose proof (not_fle_flt x mp Hx Hm Hxm) as Hgt.
      apply IH; try assumption.
      * lia.
      * now rewrite app_nth2, Nat.sub_diag by lia.
      * intros j Hj. destruct (Nat.eq_dec j (length pre)) as [->|Hne].
        -- rewrite app_nth2, Nat.sub_diag by lia. now apply fle_refl.
        -- rewrite app_nth1 by lia. apply flt_fle.
           apply (fle_flt_trans _ mp); [apply Hle; lia|exact Hgt].
      * intros j Hj. rewrite app_nth1 by lia.
        apply (fle_flt_trans _ mp); [now apply Hle|exact Hgt].
Qed.

Lemma argmax_first_max (l : vec) (p : nat) :
  Forall (fun v => isnan v = false) l -> argmax l = Some p -> first_max l p.
Proof.
  destruct l as [|x t]; [discriminate|]. intros Hnan H. cbn [argmax] in H.
  assert (Hx : isnan x = false) by (now inversion Hnan).
  rewrite Hx in H. injection H as <-.
  apply (argmax_from_first_max t [x] x 0); try assumption.
  - cbn; lia.
  - reflexivity.
  - intros j Hj. cbn in Hj. replace j with 0 by lia. now apply fle_refl.
  - intros j Hj. lia.
Qed.

Lemma Forall2_nth {A B : Type} (R : A -> B -> Prop) (l1 : list A) (l2 : list B)
  (d1 : A) (d2 : B) (r : nat) :
  Forall2 R l1 l2 -> r < length l1 -> R (nth r l1 d1) (nth r l2 d2).
Proof.
  intros H. revert r. induction H as [|a b l1 l2 Hab _ IH]; intros r Hr; cbn in Hr; [lia|].
  destruct r as [|r]; [exact Hab|]. cbn. apply IH. lia.
Qed.

(** X26.  What [predict] returns.  The posterior matrix has one column per
    key of [prior], in the order of the keys; for every row whose posteriors
    are not nan the prediction is the position of the first column that
    holds the largest posterior of the row: a position in the prior table,
    ties going to the earlier key. *)
Theorem NB_predict_first_max (self : NB.t) (X : matrix) (preds : list Z) :
  NB.predict self X = Some preds ->
  exists cols,
    Forall2 (fun c col => NB.column_posterior self X c = Some col)
            (dict_keys (NB.prior self)) cols /\
    length preds = length X /\
    forall r, r < length X ->
      Forall (fun v => isnan v = false) (map (fun col => nth r col NaN) cols) ->
      exists p, nth r preds 0%Z = Z.of_nat p /\
                first_max (map (fun col => nth r col NaN) cols) p.
Proof.
  unfold NB.predict. intros H.
  destruct (NB.postiriors_matrix self X) as [cols|] eqn:Hc; [|discriminate].
  cbn [bind] in H.
  destruct (mapM _ (seq 0 (shape0 X))) as [ps|] eqn:Hps; [|discriminate].
  cbn [bind] in H. destruct (length cols =? 0); [discriminate|].
  cbn [bind] in H. injection H as <-.
  exists cols. rewrite postiriors_matrix_eq in Hc.
  split; [now apply mapM_Forall2|].
  pose proof (mapM_length _ _ _ Hps) as Hl. rewrite length_seq in Hl.
  unfold shape0 in *. split; [now rewrite length_map|].
  intros r Hr Hnan. apply mapM_Forall2 in Hps.
  pose proof (Forall2_nth _ _ _ 0 0 r Hps ltac:(rewrite length_seq; exact Hr)) as Hp.
  cbn beta in Hp. rewrite seq_nth in Hp by exact Hr. cbn [Nat.add] in Hp.
  exists (nth r ps 0). split.
  - change 0%Z with (Z.of_nat 0). apply map_nth.
  - now apply argmax_first_max.
Qed.

Lemma NB_fit_tables_witness :
  exists self' g',
    @NB.fit toy_generator (NB.init 1 1991) X_two_groups [0; 0; 1; 1]%Z 0
    = Some (self', g') /\
    dict_keys (NB.dist_params self') = unique [0; 0; 1; 1]%Z /\
    sum (map snd (NB.prior self')) = Fin 1.
Proof.
  destruct (@fit_of_learn toy_generator _ _ _ _ 0
              (learn_two_groups 1991 0 1 ltac:(lia))) as (g' & Hfit).
  eexists _, g'. split; [exact Hfit|].
  destruct (@NB_fit_tables toy_generator 1 1991 X_two_groups [0; 0; 1; 1]%Z 0 g' _ Hfit)
    as (_ & Hd & _ & Hs).
  split; [exact Hd|]. apply Hs; [reflexivity|discriminate].
Defined.

Lemma NB_fit_small_class_witness :
  In 0%Z [0; 0; 1; 1]%Z /\
  0 < shape1 (mask_rows X_two_groups [0; 0; 1; 1]%Z 0%Z) /\
  length (mask_rows X_two_groups [0; 0; 1; 1]%Z 0%Z) < NB.k (NB.init 3 1991) /\
  @NB.fit toy_generator (NB.init 3 1991) X_two_groups [0; 0; 1; 1]%Z 0 = None.
Proof.
  assert (H1 : In 0%Z [0; 0; 1; 1]%Z) by (now left).
  assert (H2 : 0 < shape1 (mask_rows X_two_groups [0; 0; 1; 1]%Z 0%Z)) by (cbn; lia).
  assert (H3 : length (mask_rows X_two_groups [0; 0; 1; 1]%Z 0%Z)
               < NB.k (NB.init 3 1991)) by (cbn; lia).
  split; [exact H1|]. split; [exact H2|]. split; [exact H3|].
  exact (@NB_fit_small_class toy_generator (NB.init 3 1991) X_two_groups
           [0; 0; 1; 1]%Z 0 0%Z H1 H2 H3).
Defined.

(** A table that knows class 0 but holds no mixture for it. *)
Definition nb_no_mixture : NB.t := NB.mk 1 1991 [(0%Z, Fin 1)] [(0%Z, [])].

Lemma NB_predict_errors_witness :
  In 0%Z (dict_keys (NB.prior nb_no_mixture)) /\
  dict_get (NB.dist_params nb_no_mixture) 0%Z = Some [] /\
  length ([] : list (vec * vec * vec)) < shape1 [[Fin 0]] /\
  NB.predict nb_no_mixture [[Fin 0]] = None.
Proof.
  assert (H1 : In 0%Z (dict_keys (NB.prior nb_no_mixture))) by (now left).
  assert (H2 : dict_get (NB.dist_params nb_no_mixture) 0%Z = Some []) by reflexivity.
  assert (H3 : length ([] : list (vec * vec * vec)) < shape1 [[Fin 0]]) by (cbn; lia).
  split; [exact H1|]. split; [exact H2|]. split; [exact H3|].
  exact (proj2 (NB_predict_errors nb_no_mixture [[Fin 0]] 0%Z []) H1 H2 H3).
Defined.

Lemma NB_predict_first_max_witness :
  exists self' g' preds cols,
    @NB.fit toy_generator (NB.init 1 1991) X_two_groups [0; 0; 1; 1]%Z 0
    = Some (self', g') /\
    NB.predict self' [[Fin 1]] = Some preds /\
    Forall2 (fun c col => NB.column_posterior self' [[Fin 1]] c = Some col)
            (dict_keys (NB.prior self')) cols /\
    length preds = 1.
Proof.
  destruct (@fit_of_learn toy_generator _ _ _ _ 0
              (learn_two_groups 1991 0 1 ltac:(lia))) as (g' & Hfit).
  assert (Hp : NB.predict
                 (NB.mk 1 1991 [(0%Z, Fin (2 / 4)); (1%Z, Fin (2 / 4))]
                    [(0%Z, [([Fin 1], [Fin 1], [Fin 1])]);
                     (1%Z, [([Fin 1], [Fin 11], [Fin 1])])]) [[Fin 1]]
               = Some [if Rle_dec (posterior 1 11 1 (2 / 4)) (posterior 1 1 1 (2 / 4))
                       then 0%Z else 1%Z])
    by (apply predict_two_classes; try lra; discriminate).
  destruct (NB_predict_first_max _ _ _ Hp) as (cols & Hc & Hl & _).
  eexists _, g', _, cols. split; [exact Hfit|]. split; [exact Hp|].
  split; [exact Hc|exact Hl].
Defined.

(** ** The evaluation of both models *)

Lemma matches_none (preds : list Z) : forall ys,
  (forall p v, In p preds -> In v ys -> p <> v) -> matches preds ys = 0.
Proof.
  unfold matches. induction preds as [|p preds IH]; intros [|v ys] H; try reflexivity.
  cbn [combine filter fst snd].
  destruct (Z.eqb_spec p v) as [Heq|_].
  - exfalso. apply (H p v); [now left|now left|exact Heq].
  - apply IH. intros p' v' Hp Hv. apply H; now right.
Qed.

Lemma NB_predict_length (self : NB.t) (X : matrix) (preds : list Z) :
  NB.predict self X = Some preds -> length preds = length X.
Proof.
  unfold NB.predict. intros H.
  destruct (NB.postiriors_matrix self X) as [cols|]; [|discriminate].
  cbn [bind] in H.
  destruct (mapM _ (seq 0 (shape0 X))) as [ps|] eqn:Hps; [|discriminate].
  cbn [bind] in H. destruct (length cols =? 0); [discriminate|].
  cbn [bind] in H. injection H as <-.
  apply mapM_length in Hps. rewrite length_seq in Hps. unfold shape0 in Hps.
  now rewrite length_map.
Qed.

Lemma mapM_total {A B : Type} (f : A -> option B) (h : A -> B) (l : list A) :
  (forall a, In a l -> f a = Some (h a)) -> mapM f l = Some (map h l).
Proof.
  induction l as [|a l IH]; intros H; [reflexivity|].
  cbn [mapM map]. rewrite (H a (or_introl eq_refl)). cbn [bind].
  rewrite IH by (intros a' Ha'; apply H; now right). reflexivity.
Qed.

Lemma dict_get_In_keys {V : Type} (d : dict V) (c : Z) :
  In c (dict_keys d) -> exists v, dict_get d c = Some v.
Proof.
  unfold dict_keys. induction d as [|[c0 v0] d IH]; cbn; intros H; [destruct H|].
  destruct (Z.eqb_spec c0 c) as [_|Hne]; [now exists v0|].
  destruct H as [H|H]; [contradiction|now apply IH].
Qed.

(** [predict] on a table that holds, for every key of the prior, enough
    mixtures of matching lengths. *)
Lemma NB_predict_returns (self : NB.t) (X : matrix) (k : nat) :
  dict_keys (NB.prior self) <> [] ->
  (forall c, In c (dict_keys (NB.prior self)) ->
     exists ps, dict_get (NB.dist_params self) c = Some ps /\
                shape1 X <= length ps /\ Forall (components k) ps) ->
  exists preds, NB.predict self X = Some preds.
Proof.
  intros Hne Hps.
  assert (Hcol : forall c, In c (dict_keys (NB.prior self)) ->
            exists col, NB.column_posterior self X c = Some col).
  { intros c Hc. destruct (Hps c Hc) as (ps & Hget & Hlen & Hcomp).
    destruct (dict_get_In_keys _ _ Hc) as (p & Hp).
    unfold NB.column_posterior.
    set (h := fun (cp : vec) (j : nat) =>
                let '(w, m, s) := nth j ps ([], [], []) in
                zipWith fmul cp (map (fun x => mixture x w m s) (column X j))).
    rewrite (foldM_total _ h).
    - cbn [bind]. rewrite Hp. cbn [bind]. now eexists.
    - intros j cp Hj. apply in_seq in Hj. rewrite Hget. cbn [bind].
      rewrite (getitem_nth ps j ([], [], [])) by lia. cbn [bind].
      unfold h. assert (Hin : In (nth j ps ([], [], [])) ps) by (apply nth_In; lia).
      rewrite Forall_forall in Hcomp. specialize (Hcomp _ Hin).
      destruct (nth j ps ([], [], [])) as [[w m] sg].
      destruct Hcomp as (Hw & Hm & Hs). cbn [fst snd] in Hw, Hm, Hs.
      rewrite (mapM_total _ (fun x => mixture x w m sg)).
      + reflexivity.
      + intros x _. apply gmm_pdf_eq; congruence. }
  unfold NB.predict. rewrite postiriors_matrix_eq.
  assert (Hcols : exists cols,
            mapM (NB.column_posterior self X) (dict_keys (NB.prior self)) = Some cols /\
            length cols = length (dict_keys (NB.prior self))).
  { clear Hne Hps. induction (dict_keys (NB.prior self)) as [|c cs IH].
    - now exists [].
    - destruct (Hcol c (or_introl eq_refl)) as (col & Hc).
      destruct IH as (cols & Hm & Hl); [intros c' Hc'; apply Hcol; now right|].
      exists (col :: cols). cbn [mapM]. rewrite Hc, Hm. cbn. now rewrite Hl. }
  destruct Hcols as (cols & Hm & Hl). rewrite Hm. cbn [bind].
  assert (Hcne : cols <> []).
  { intros ->. cbn in Hl. destruct (dict_keys (NB.prior self)); [contradiction|discriminate]. }
  rewrite (mapM_total _ (fun r =>
             match argmax (map (fun col => nth r col NaN) cols) with
             | Some p => p
             | None => 0
             end)).
  - cbn [bind]. destruct cols as [|col cols]; [contradiction|].
    cbn [length Nat.eqb bind]. now eexists.
  - intros r _. destruct cols as [|col cols]; [contradiction|]. reflexivity.
Qed.

Section ModelEvaluationSpec.
Context {G : Generator}.

(** The mixtures a new instance holds after [fit]. *)
Lemma fit_new_mixtures (k : nat) (random_state : N) (X : matrix) (y : list Z)
  (g g' : rng) (self' : NB.t) (c : Z) :
  NB.fit (NB.init k random_state) X y g = Some (self', g') -> In c y ->
  exists ps, dict_get (NB.dist_params self') c = Some ps /\
             length ps = shape1 (mask_rows X y c) /\ Forall (components k) ps.
Proof.
  intros Hfit Hc.
  assert (Hl : learn (NB.init k random_state) X y = Some self')
    by (rewrite <- (fit_learn _ X y g), Hfit; reflexivity).
  unfold learn in Hl.
  destruct (learn_loop_spec X y _ _ _ Hl) as (_ & _ & _ & _ & Hstored).
  destruct (Hstored (unique_NoDup y) c) as [_ Hps]; [now apply unique_In|].
  cbn [NB.init NB.k NB.random_state] in Hps.
  destruct (class_params k random_state X y c) as [ps|] eqn:Hcp.
  - exists ps. split; [exact Hps|].
    destruct (class_params_shape _ _ _ _ _ _ Hcp) as (H1 & H2 & _). now split.
  - exfalso. destruct (fit_new_prior _ _ _ _ _ _ _ Hfit) as [_ Hd].
    assert (Hin : In c (dict_keys (NB.dist_params self')))
      by (rewrite Hd; now apply unique_In).
    destruct (dict_get_In_keys _ _ Hin) as (v & Hv). congruence.
Qed.

(** X28.  After [fit] on a new instance, [predict] does not raise on a
    matrix with at most as many columns as the rows of every class had in
    training: it returns one prediction per row, each a position below the
    number of distinct labels. *)
Theorem NB_fit_then_predict (k : nat) (random_state : N) (X_train : matrix)
  (y : list Z) (g g' : rng) (self' : NB.t) (X : matrix) :
  NB.fit (NB.init k random_state) X_train y g = Some (self', g') ->
  y <> [] ->
  (forall c, In c y -> shape1 X <= shape1 (mask_rows X_train y c)) ->
  exists preds,
    NB.predict self' X = Some preds /\ length preds = length X /\
    Forall (fun p => (0 <= p < Z.of_nat (length (unique y)))%Z) preds.
Proof.
  intros Hfit Hy Hcols.
  destruct (fit_new_prior _ _ _ _ _ _ _ Hfit) as [Hprior _].
  assert (Hkeys : dict_keys (NB.prior self') = unique y).
  { rewrite Hprior. unfold dict_keys. rewrite map_map. cbn [fst]. apply map_id. }
  destruct (NB_predict_returns self' X k) as (preds & Hp).
  - rewrite Hkeys. destruct y as [|v y]; [contradiction|].
    intros Hnil. assert (Hin : In v (unique (v :: y))) by (apply unique_In; now left).
    rewrite Hnil in Hin. destruct Hin.
  - intros c Hc. rewrite Hkeys, unique_In in Hc.
    destruct (fit_new_mixtures _ _ _ _ _ _ _ c Hfit Hc) as (ps & Hget & Hlen & Hcomp).
    exists ps. split; [exact Hget|]. split; [|exact Hcomp].
    rewrite Hlen. now apply Hcols.
  - exists preds. split; [exact Hp|]. split; [exact (NB_predict_length _ _ _ Hp)|].
    destruct (predict_column_index _ _ _ Hp) as (cols & _ & _ & Hrange).
    now rewrite Hkeys in Hrange.
Qed.

(** X27.  [model_evaluation] compares the predictions of the Naive Bayes
    model, which are positions in its prior table, with the labels: when no
    test label is a number in [0, number of classes), the accuracy
    [bayes_test_acc] is 0 whatever the data; and the call raises when some
    training class has fewer rows than [k]. *)
Theorem model_evaluation_bayes_index (x_train : matrix) (y_train : list Z)
  (x_test : matrix) (y_test : list Z) (k : nat) (best_eta best_eps : number)
  (g : rng) :
  (forall acc g',
     model_evaluation x_train y_train x_test y_test k best_eta best_eps g
     = Some (acc, g') ->
     length y_test = length x_test -> x_test <> [] ->
     (forall v, In v y_test ->
                ~ (0 <= v < Z.of_nat (length (unique y_train)))%Z) ->
     bayes_test_acc acc = Fin 0) /\
  (forall c, In c y_train -> 0 < shape1 (mask_rows x_train y_train c) ->
             length (mask_rows x_train y_train c) < k ->
             model_evaluation x_train y_train x_test y_test k best_eta best_eps g
             = None).
Proof.
  split.
  - intros acc g' H Hlen Hne Hlab. unfold model_evaluation in H.
    destruct (LR.fit _ x_train y_train g) as [[lor g1]|]; [|discriminate].
    cbn [bind] in H.
    destruct (LR.predict lor x_train) as [p1|]; [|discriminate]. cbn [bind] in H.
    destruct (LR.predict lor x_test) as [p2|]; [|discriminate]. cbn [bind] in H.
    destruct (NB.fit _ x_train y_train g1) as [[bayes g2]|] eqn:Hfit; [|discriminate].
    cbn [bind] in H.
    destruct (NB.predict bayes x_train) as [p3|]; [|discriminate]. cbn [bind] in H.
    destruct (NB.predict bayes x_test) as [p4|] eqn:Hp4; [|discriminate].
    cbn [bind] in H. injection H as <- _. cbn [bayes_test_acc].
    destruct (fit_new_prior _ _ _ _ _ _ _ Hfit) as [Hprior _].
    destruct (predict_column_index _ _ _ Hp4) as (cols & _ & _ & Hrange).
    pose proof (NB_predict_length _ _ _ Hp4) as Hl4.
    assert (Hkeys : length (dict_keys (NB.prior bayes)) = length (unique y_train)).
    { rewrite Hprior. unfold dict_keys. now rewrite !length_map. }
    rewrite Hkeys in Hrange.
    unfold compute_accuracy. rewrite mean_eq_accuracy.
    destruct (accuracy_Fin p4 y_test) as [He _].
    { now rewrite Hl4, Hlen. }
    { intros ->. cbn in Hl4. destruct x_test; [contradiction|discriminate]. }
    rewrite He, matches_none.
    + f_equal. cbn [INR]. unfold Rdiv. apply Rmult_0_l.
    + intros p v Hp Hv ->. apply (Hlab v Hv).
      rewrite Forall_forall in Hrange. now apply Hrange.
  - intros c Hc Hcols Hsmall. unfold model_evaluation.
    destruct (LR.fit _ x_train y_train g) as [[lor g1]|]; [|reflexivity].
    cbn [bind].
    destruct (LR.predict lor x_train) as [p1|]; [|reflexivity]. cbn [bind].
    destruct (LR.predict lor x_test) as [p2|]; [|reflexivity]. cbn [bind].
    rewrite (fit_small_class_fails (NB.init k 1991) x_train y_train g1 c Hc Hcols Hsmall).
    reflexivity.
Qed.

End ModelEvaluationSpec.

Lemma NB_fit_then_predict_witness :
  [5; 5; 7; 7]%Z <> [] /\
  exists self' g' preds,
    @NB.fit toy_generator (NB.init 1 1991) X_two_groups [5; 5; 7; 7]%Z 0
    = Some (self', g') /\
    NB.predict self' X_two_groups = Some preds /\
    length preds = length X_two_groups /\
    Forall (fun p => (0 <= p < Z.of_nat (length (unique [5; 5; 7; 7]%Z)))%Z) preds.
Proof.
  assert (Hy : [5; 5; 7; 7]%Z <> []) by discriminate.
  split; [exact Hy|].
  destruct (@fit_of_learn toy_generator _ _ _ _ 0
              (learn_two_groups 1991 5 7 ltac:(lia))) as (g' & Hfit).
  assert (Hcols : forall c, In c [5; 5; 7; 7]%Z ->
            shape1 X_two_groups <= shape1 (mask_rows X_two_groups [5; 5; 7; 7]%Z c)).
  { intros c [<-|[<-|[<-|[<-|[]]]]]; cbn; lia. }
  destruct (@NB_fit_then_predict toy_generator 1 1991 X_two_groups [5; 5; 7; 7]%Z
              0 g' _ X_two_groups Hfit Hy Hcols) as (preds & Hp & Hl & Hr).
  eexists _, g', preds. split; [exact Hfit|]. split; [exact Hp|].
  split; [exact Hl|exact Hr].
Defined.

(** The evaluation on the four rows labelled 5 and 7 returns. *)
Lemma model_evaluation_two_groups :
  exists acc g',
    @model_evaluation toy_generator X_two_groups [5; 5; 7; 7]%Z [[Fin 1]] [5%Z]
      1 (Fin 1) (Fin 1) 0 = Some (acc, g').
Proof.
  unfold model_evaluation.
  destruct (@LR_fit_sets_theta toy_generator (LR.init (Fin 1) 10000 (Fin 1) 1)
              X_two_groups [5; 5; 7; 7]%Z 0) as (lor & g1 & Hlr & Hth).
  rewrite Hlr. cbn [bind].
  unfold LR.predict. destruct (LR.theta lor) as [th|]; [|contradiction].
  cbn [bind].
  destruct (@fit_of_learn toy_generator _ _ _ _ g1
              (learn_two_groups 1991 5 7 ltac:(lia))) as (g2 & Hfit).
  rewrite Hfit. cbn [bind].
  assert (Hy : [5; 5; 7; 7]%Z <> []) by discriminate.
  destruct (@NB_fit_then_predict toy_generator 1 1991 X_two_groups [5; 5; 7; 7]%Z
              g1 g2 _ X_two_groups Hfit Hy) as (p3 & Hp3 & _).
  { intros c [<-|[<-|[<-|[<-|[]]]]]; cbn; lia. }
  destruct (@NB_fit_then_predict toy_generator 1 1991 X_two_groups [5; 5; 7; 7]%Z
              g1 g2 _ [[Fin 1]] Hfit Hy) as (p4 & Hp4 & _).
  { intros c [<-|[<-|[<-|[<-|[]]]]]; cbn; lia. }
  rewrite Hp3. cbn [bind]. rewrite Hp4. cbn [bind]. now eexists _, _.
Qed.

Lemma model_evaluation_bayes_index_witness :
  length [5%Z] = length [[Fin 1]] /\ [[Fin 1]] <> ([] : matrix) /\
  exists acc g',
    @model_evaluation toy_generator X_two_groups [5; 5; 7; 7]%Z [[Fin 1]] [5%Z]
      1 (Fin 1) (Fin 1) 0 = Some (acc, g') /\
    bayes_test_acc acc = Fin 0.
Proof.
  assert (H1 : length [5%Z] = length [[Fin 1]]) by reflexivity.
  assert (H2 : [[Fin 1]] <> ([] : matrix)) by discriminate.
  split; [exact H1|]. split; [exact H2|].
  destruct model_evaluation_two_groups as (acc & g' & He).
  exists acc, g'. split; [exact He|].
  apply (proj1 (@model_evaluation_bayes_index toy_generator X_two_groups
                  [5; 5; 7; 7]%Z [[Fin 1]] [5%Z] 1 (Fin 1) (Fin 1) 0) acc g' He H1 H2).
  intros v [<-|[]]. cbn. lia.
Defined.

(** ** Further instances *)

Lemma feature_selection_needs_date_witness :
  ~ In "date"%string (columns vec [("sqft"%string, map Fin [0%R; 1%R])]) /\
  feature_selection vec (fun s => s) (fun s => s)
    [("sqft"%string, map Fin [0%R; 1%R])] (map Fin [0%R; 1%R]) 1 = None.
Proof.
  assert (H : ~ In "date"%string (columns vec [("sqft"%string, map Fin [0%R; 1%R])]))
    by (intros [H|[]]; discriminate).
  split; [exact H|].
  exact (proj2 (feature_selection_needs_date vec (fun s => s) (fun s => s)
                  [("sqft"%string, map Fin [0%R; 1%R])] (map Fin [0%R; 1%R]) 1) H).
Defined.

Lemma sigmoid_bounds_witness :
  exists ss,
    LR.sigmoid (map Fin [0; -1]%R) = map Fin ss /\
    (0 <= nth 1 ss 0 <= 1)%R /\ (nth 1 ss 0 <= 1 / 2)%R.
Proof.
  destruct (sigmoid_bounds [0; -1]%R) as (ss & He & _ & Hi & _).
  assert (H1 : 1 < length [0; -1]%R) by (cbn; lia).
  destruct (Hi 1 H1) as (Hr & _ & Hle).
  exists ss. split; [exact He|]. split; [exact Hr|].
  apply Hle. cbn. lra.
Defined.

Lemma EM_fit_raises_iff_witness :
  length [Fin 0] < EM.k (EM.mk 2 5 (Fin (1 / 100)) 0 [] [] [] [] []) /\
  @EM.fit toy_generator (EM.mk 2 5 (Fin (1 / 100)) 0 [] [] [] [] []) [Fin 0] 0 = None.
Proof.
  assert (H : length [Fin 0] < EM.k (EM.mk 2 5 (Fin (1 / 100)) 0 [] [] [] [] []))
    by (cbn; lia).
  split; [exact H|].
  exact (proj2 (@EM_fit_raises_iff toy_generator _ [Fin 0] 0) H).
Defined.
